(** * Verification of the SQL live-suggestion core

    A shallow embedding of
    - [app/services/metadata_cache.py]  (the per-environment index and
                                         the registry of indexes),
    - [app/services/fuzzy_matcher.py]   (ranking of candidates),
    - [app/services/validator.py]       (two-stage validation),
    - [app/routers/suggest.py]          (typeahead suggestions),
    - [app/routers/validate.py]         (the validation endpoint),
    - [scripts/csv_to_pickle.py]        (ingestion of a sheet),
    - [standalone/]                     (the library without the service),
    followed by the properties of the specification that concern them.

    Modelling conventions.
    - Python [str] is [string]; [str.lower] and [str.strip] act on the
      ASCII range (bytes outside it are left alone), which is what
      Python does on ASCII strings.  Beyond ASCII [str.lower] depends on
      the neighbours of a character, so the statements that need
      lowercasing to go through concatenation are kept to snapshots
      whose names are ASCII ([ascii_names]).
    - Python [set] is [gset]; a [dict] that is only looked up is a [gmap];
      a [dict] that the code iterates with [.items()] is an association
      list in insertion order ([dict_set] keeps the position of a key that
      is already there, as Python does).  Python does not fix the order
      in which a [set] is iterated; the model takes the order of
      [elements].
    - The in-place mutation of [self] is explicit state passing over
      [EnvironmentCache]; code that can raise runs in the monad [M], in
      which a raised exception keeps the mutations made so far.
    - [rapidfuzz] is a third-party library: the scorer is a parameter of
      the development, and [extract] follows the documented contract of
      [rapidfuzz.process.extract] for a cutoff from 0 to 100 and a limit
      that fits a machine integer; outside these the library raises,
      which the model does not cover. *)

From Stdlib Require Import Ascii ZArith QArith Lqa.
From stdpp Require Import gmap strings list fin_maps sorting.

(** ** Python strings *)

Module PyString.

(** [c.lower()] for one ASCII character. *)
Definition lower_ascii (a : ascii) : ascii :=
  let n := nat_of_ascii a in
  if (65 <=? n) && (n <=? 90) then ascii_of_nat (n + 32) else a.

(** [s.lower()] *)
Fixpoint lower (s : string) : string :=
  match s with
  | EmptyString => EmptyString
  | String a s' => String (lower_ascii a) (lower s')
  end.

(** [c.isspace()]: tab, line feed, vertical tab, form feed, carriage
    return, the four separators 0x1c-0x1f and the space. *)
Definition is_space (a : ascii) : bool :=
  let n := nat_of_ascii a in
  ((9 <=? n) && (n <=? 13)) || ((28 <=? n) && (n <=? 32)).

Fixpoint lstrip (s : string) : string :=
  match s with
  | EmptyString => EmptyString
  | String a s' => if is_space a then lstrip s' else s
  end.

Fixpoint rev_onto (s acc : string) : string :=
  match s with
  | EmptyString => acc
  | String a s' => rev_onto s' (String a acc)
  end.

Definition reverse (s : string) : string := rev_onto s EmptyString.

(** [s.strip()] *)
Definition strip (s : string) : string :=
  reverse (lstrip (reverse (lstrip s))).

(** Truth value of a [str]: the empty string is false. *)
Definition truthy (s : string) : bool :=
  match s with EmptyString => false | _ => true end.

(** Truth value of a [str | None]. *)
Definition truthy_opt (o : option string) : bool :=
  match o with Some s => truthy s | None => false end.

End PyString.
Export PyString.

(** ** Python values, as [pickle.load] may return them *)

#[local] Unset Elimination Schemes.
Inductive pyval : Type :=
| PyNone
| PyInt (n : Z)
| PyStr (s : string)
| PyList (xs : list pyval)
| PyDict (items : list (pyval * pyval)).
#[local] Set Elimination Schemes.

(** ** Insertion-ordered dictionaries *)

Section dict.
Context {K V : Type} `{EqDecision K}.

(** [d.get(k)] *)
Fixpoint dict_get (k : K) (d : list (K * V)) : option V :=
  match d with
  | [] => None
  | (k', v) :: d' => if decide (k' = k) then Some v else dict_get k d'
  end.

(** [d[k] = v] *)
Fixpoint dict_set (k : K) (v : V) (d : list (K * V)) : list (K * V) :=
  match d with
  | [] => [(k, v)]
  | (k', v') :: d' =>
      if decide (k' = k) then (k', v) :: d' else (k', v') :: dict_set k v d'
  end.

(** [d[k]] mutated in place by [f]; the key is present wherever the
    build uses this (it was set just before), so the [KeyError] of a
    missing key is not modelled. *)
Fixpoint dict_alter (f : V → V) (k : K) (d : list (K * V)) : list (K * V) :=
  match d with
  | [] => []
  | (k', v) :: d' =>
      if decide (k' = k) then (k', f v) :: d' else (k', v) :: dict_alter f k d'
  end.
End dict.

(** ** The environment index ([EnvironmentCache]) *)

Record EnvironmentCache : Type := mkCache {
  environment : string;
  schemas : pyval;
  schemas_set : gset string;
  tables_set : gset string;
  columns_set : gset string;
  schemas_list : list string;
  tables_list : list string;
  columns_list : list string;
  schemas_map : gmap string string;
  tables_map : gmap string string;
  columns_map : gmap string string;
  tables_by_schema : list (string * gset string);
  tables_list_by_schema : gmap string (list string);
  columns_by_table : list ((string * string) * gset string);
  columns_list_by_table : gmap (string * string) (list string);
  qualified_tables_list : list string;
  qualified_tables_map : gmap string string;
  qualified_columns_list : list string;
  qualified_columns_map : gmap string string;
  exported_at : pyval;
  loaded_at : option Z;
  is_loaded : bool
}.

Definition set_environment (v : string) (c : EnvironmentCache) : EnvironmentCache :=
  mkCache v (schemas c) (schemas_set c) (tables_set c) (columns_set c)
    (schemas_list c) (tables_list c) (columns_list c) (schemas_map c)
    (tables_map c) (columns_map c) (tables_by_schema c)
    (tables_list_by_schema c) (columns_by_table c) (columns_list_by_table c)
    (qualified_tables_list c) (qualified_tables_map c)
    (qualified_columns_list c) (qualified_columns_map c) (exported_at c)
    (loaded_at c) (is_loaded c).

Definition set_schemas (v : pyval) (c : EnvironmentCache) : EnvironmentCache :=
  mkCache (environment c) v (schemas_set c) (tables_set c) (columns_set c)
    (schemas_list c) (tables_list c) (columns_list c) (schemas_map c)
    (tables_map c) (columns_map c) (tables_by_schema c)
    (tables_list_by_schema c) (columns_by_table c) (columns_list_by_table c)
    (qualified_tables_list c) (qualified_tables_map c)
    (qualified_columns_list c) (qualified_columns_map c) (exported_at c)
    (loaded_at c) (is_loaded c).

Definition set_schemas_set (v : gset string) (c : EnvironmentCache) : EnvironmentCache :=
  mkCache (environment c) (schemas c) v (tables_set c) (columns_set c)
    (schemas_list c) (tables_list c) (columns_list c) (schemas_map c)
    (tables_map c) (columns_map c) (tables_by_schema c)
    (tables_list_by_schema c) (columns_by_table c) (columns_list_by_table c)
    (qualified_tables_list c) (qualified_tables_map c)
    (qualified_columns_list c) (qualified_columns_map c) (exported_at c)
    (loaded_at c) (is_loaded c).

Definition set_tables_set (v : gset string) (c : EnvironmentCache) : EnvironmentCache :=
  mkCache (environment c) (schemas c) (schemas_set c) v (columns_set c)
    (schemas_list c) (tables_list c) (columns_list c) (schemas_map c)
    (tables_map c) (columns_map c) (tables_by_schema c)
    (tables_list_by_schema c) (columns_by_table c) (columns_list_by_table c)
    (qualified_tables_list c) (qualified_tables_map c)
    (qualified_columns_list c) (qualified_columns_map c) (exported_at c)
    (loaded_at c) (is_loaded c).

Definition set_columns_set (v : gset string) (c : EnvironmentCache) : EnvironmentCache :=
  mkCache (environment c) (schemas c) (schemas_set c) (tables_set c) v
    (schemas_list c) (tables_list c) (columns_list c) (schemas_map c)
    (tables_map c) (columns_map c) (tables_by_schema c)
    (tables_list_by_schema c) (columns_by_table c) (columns_list_by_table c)
    (qualified_tables_list c) (qualified_tables_map c)
    (qualified_columns_list c) (qualified_columns_map c) (exported_at c)
    (loaded_at c) (is_loaded c).

Definition set_schemas_list (v : list string) (c : EnvironmentCache) : EnvironmentCache :=
  mkCache (environment c) (schemas c) (schemas_set c) (tables_set c)
    (columns_set c) v (tables_list c) (columns_list c) (schemas_map c)
    (tables_map c) (columns_map c) (tables_by_schema c)
    (tables_list_by_schema c) (columns_by_table c) (columns_list_by_table c)
    (qualified_tables_list c) (qualified_tables_map c)
    (qualified_columns_list c) (qualified_columns_map c) (exported_at c)
    (loaded_at c) (is_loaded c).

Definition set_tables_list (v : list string) (c : EnvironmentCache) : EnvironmentCache :=
  mkCache (environment c) (schemas c) (schemas_set c) (tables_set c)
    (columns_set c) (schemas_list c) v (columns_list c) (schemas_map c)
    (tables_map c) (columns_map c) (tables_by_schema c)
    (tables_list_by_schema c) (columns_by_table c) (columns_list_by_table c)
    (qualified_tables_list c) (qualified_tables_map c)
    (qualified_columns_list c) (qualified_columns_map c) (exported_at c)
    (loaded_at c) (is_loaded c).

Definition set_columns_list (v : list string) (c : EnvironmentCache) : EnvironmentCache :=
  mkCache (environment c) (schemas c) (schemas_set c) (tables_set c)
    (columns_set c) (schemas_list c) (tables_list c) v (schemas_map c)
    (tables_map c) (columns_map c) (tables_by_schema c)
    (tables_list_by_schema c) (columns_by_table c) (columns_list_by_table c)
    (qualified_tables_list c) (qualified_tables_map c)
    (qualified_columns_list c) (qualified_columns_map c) (exported_at c)
    (loaded_at c) (is_loaded c).

Definition set_schemas_map (v : gmap string string) (c : EnvironmentCache) : EnvironmentCache :=
  mkCache (environment c) (schemas c) (schemas_set c) (tables_set c)
    (columns_set c) (schemas_list c) (tables_list c) (columns_list c) v
    (tables_map c) (columns_map c) (tables_by_schema c)
    (tables_list_by_schema c) (columns_by_table c) (columns_list_by_table c)
    (qualified_tables_list c) (qualified_tables_map c)
    (qualified_columns_list c) (qualified_columns_map c) (exported_at c)
    (loaded_at c) (is_loaded c).

Definition set_tables_map (v : gmap string string) (c : EnvironmentCache) : EnvironmentCache :=
  mkCache (environment c) (schemas c) (schemas_set c) (tables_set c)
    (columns_set c) (schemas_list c) (tables_list c) (columns_list c)
    (schemas_map c) v (columns_map c) (tables_by_schema c)
    (tables_list_by_schema c) (columns_by_table c) (columns_list_by_table c)
    (qualified_tables_list c) (qualified_tables_map c)
    (qualified_columns_list c) (qualified_columns_map c) (exported_at c)
    (loaded_at c) (is_loaded c).

Definition set_columns_map (v : gmap string string) (c : EnvironmentCache) : EnvironmentCache :=
  mkCache (environment c) (schemas c) (schemas_set c) (tables_set c)
    (columns_set c) (schemas_list c) (tables_list c) (columns_list c)
    (schemas_map c) (tables_map c) v (tables_by_schema c)
    (tables_list_by_schema c) (columns_by_table c) (columns_list_by_table c)
    (qualified_tables_list c) (qualified_tables_map c)
    (qualified_columns_list c) (qualified_columns_map c) (exported_at c)
    (loaded_at c) (is_loaded c).

Definition set_tables_by_schema (v : list (string * gset string)) (c : EnvironmentCache) : EnvironmentCache :=
  mkCache (environment c) (schemas c) (schemas_set c) (tables_set c)
    (columns_set c) (schemas_list c) (tables_list c) (columns_list c)
    (schemas_map c) (tables_map c) (columns_map c) v (tables_list_by_schema c)
    (columns_by_table c) (columns_list_by_table c) (qualified_tables_list c)
    (qualified_tables_map c) (qualified_columns_list c)
    (qualified_columns_map c) (exported_at c) (loaded_at c) (is_loaded c).

Definition set_tables_list_by_schema (v : gmap string (list string)) (c : EnvironmentCache) : EnvironmentCache :=
  mkCache (environment c) (schemas c) (schemas_set c) (tables_set c)
    (columns_set c) (schemas_list c) (tables_list c) (columns_list c)
    (schemas_map c) (tables_map c) (columns_map c) (tables_by_schema c) v
    (columns_by_table c) (columns_list_by_table c) (qualified_tables_list c)
    (qualified_tables_map c) (qualified_columns_list c)
    (qualified_columns_map c) (exported_at c) (loaded_at c) (is_loaded c).

Definition set_columns_by_table (v : list ((string * string) * gset string)) (c : EnvironmentCache) : EnvironmentCache :=
  mkCache (environment c) (schemas c) (schemas_set c) (tables_set c)
    (columns_set c) (schemas_list c) (tables_list c) (columns_list c)
    (schemas_map c) (tables_map c) (columns_map c) (tables_by_schema c)
    (tables_list_by_schema c) v (columns_list_by_table c)
    (qualified_tables_list c) (qualified_tables_map c)
    (qualified_columns_list c) (qualified_columns_map c) (exported_at c)
    (loaded_at c) (is_loaded c).

Definition set_columns_list_by_table (v : gmap (string * string) (list string)) (c : EnvironmentCache) : EnvironmentCache :=
  mkCache (environment c) (schemas c) (schemas_set c) (tables_set c)
    (columns_set c) (schemas_list c) (tables_list c) (columns_list c)
    (schemas_map c) (tables_map c) (columns_map c) (tables_by_schema c)
    (tables_list_by_schema c) (columns_by_table c) v (qualified_tables_list c)
    (qualified_tables_map c) (qualified_columns_list c)
    (qualified_columns_map c) (exported_at c) (loaded_at c) (is_loaded c).

Definition set_qualified_tables_list (v : list string) (c : EnvironmentCache) : EnvironmentCache :=
  mkCache (environment c) (schemas c) (schemas_set c) (tables_set c)
    (columns_set c) (schemas_list c) (tables_list c) (columns_list c)
    (schemas_map c) (tables_map c) (columns_map c) (tables_by_schema c)
    (tables_list_by_schema c) (columns_by_table c) (columns_list_by_table c) v
    (qualified_tables_map c) (qualified_columns_list c)
    (qualified_columns_map c) (exported_at c) (loaded_at c) (is_loaded c).

Definition set_qualified_tables_map (v : gmap string string) (c : EnvironmentCache) : EnvironmentCache :=
  mkCache (environment c) (schemas c) (schemas_set c) (tables_set c)
    (columns_set c) (schemas_list c) (tables_list c) (columns_list c)
    (schemas_map c) (tables_map c) (columns_map c) (tables_by_schema c)
    (tables_list_by_schema c) (columns_by_table c) (columns_list_by_table c)
    (qualified_tables_list c) v (qualified_columns_list c)
    (qualified_columns_map c) (exported_at c) (loaded_at c) (is_loaded c).

Definition set_qualified_columns_list (v : list string) (c : EnvironmentCache) : EnvironmentCache :=
  mkCache (environment c) (schemas c) (schemas_set c) (tables_set c)
    (columns_set c) (schemas_list c) (tables_list c) (columns_list c)
    (schemas_map c) (tables_map c) (columns_map c) (tables_by_schema c)
    (tables_list_by_schema c) (columns_by_table c) (columns_list_by_table c)
    (qualified_tables_list c) (qualified_tables_map c) v
    (qualified_columns_map c) (exported_at c) (loaded_at c) (is_loaded c).

Definition set_qualified_columns_map (v : gmap string string) (c : EnvironmentCache) : EnvironmentCache :=
  mkCache (environment c) (schemas c) (schemas_set c) (tables_set c)
    (columns_set c) (schemas_list c) (tables_list c) (columns_list c)
    (schemas_map c) (tables_map c) (columns_map c) (tables_by_schema c)
    (tables_list_by_schema c) (columns_by_table c) (columns_list_by_table c)
    (qualified_tables_list c) (qualified_tables_map c)
    (qualified_columns_list c) v (exported_at c) (loaded_at c) (is_loaded c).

Definition set_exported_at (v : pyval) (c : EnvironmentCache) : EnvironmentCache :=
  mkCache (environment c) (schemas c) (schemas_set c) (tables_set c)
    (columns_set c) (schemas_list c) (tables_list c) (columns_list c)
    (schemas_map c) (tables_map c) (columns_map c) (tables_by_schema c)
    (tables_list_by_schema c) (columns_by_table c) (columns_list_by_table c)
    (qualified_tables_list c) (qualified_tables_map c)
    (qualified_columns_list c) (qualified_columns_map c) v (loaded_at c)
    (is_loaded c).

Definition set_loaded_at (v : option Z) (c : EnvironmentCache) : EnvironmentCache :=
  mkCache (environment c) (schemas c) (schemas_set c) (tables_set c)
    (columns_set c) (schemas_list c) (tables_list c) (columns_list c)
    (schemas_map c) (tables_map c) (columns_map c) (tables_by_schema c)
    (tables_list_by_schema c) (columns_by_table c) (columns_list_by_table c)
    (qualified_tables_list c) (qualified_tables_map c)
    (qualified_columns_list c) (qualified_columns_map c) (exported_at c) v
    (is_loaded c).

Definition set_is_loaded (v : bool) (c : EnvironmentCache) : EnvironmentCache :=
  mkCache (environment c) (schemas c) (schemas_set c) (tables_set c)
    (columns_set c) (schemas_list c) (tables_list c) (columns_list c)
    (schemas_map c) (tables_map c) (columns_map c) (tables_by_schema c)
    (tables_list_by_schema c) (columns_by_table c) (columns_list_by_table c)
    (qualified_tables_list c) (qualified_tables_map c)
    (qualified_columns_list c) (qualified_columns_map c) (exported_at c)
    (loaded_at c) v.

(** [EnvironmentCache()]: every field at its dataclass default. *)
Definition empty_cache : EnvironmentCache :=
  mkCache "" (PyDict []) ∅ ∅ ∅ [] [] [] ∅ ∅ ∅ [] ∅ [] ∅ [] ∅ [] ∅
    PyNone None false.

(** [_reset_structures] *)
Definition _reset_structures (c : EnvironmentCache) : EnvironmentCache :=
  let c := set_schemas (PyDict []) c in
  let c := set_schemas_set ∅ c in
  let c := set_tables_set ∅ c in
  let c := set_columns_set ∅ c in
  let c := set_schemas_list [] c in
  let c := set_tables_list [] c in
  let c := set_columns_list [] c in
  let c := set_schemas_map ∅ c in
  let c := set_tables_map ∅ c in
  let c := set_columns_map ∅ c in
  let c := set_tables_by_schema [] c in
  let c := set_tables_list_by_schema ∅ c in
  let c := set_columns_by_table [] c in
  let c := set_columns_list_by_table ∅ c in
  let c := set_qualified_tables_list [] c in
  let c := set_qualified_tables_map ∅ c in
  let c := set_qualified_columns_list [] c in
  set_qualified_columns_map ∅ c.

(** *** The three levels of the build loop

    Each function is the straight-line part of one loop body of
    [_build_from_raw_data]; the names are the ones bound by the loops. *)

(** Schema level: the body of the outer loop up to the table loop. *)
Definition register_schema (schema_name : string) (c : EnvironmentCache)
  : EnvironmentCache :=
  let schema_lower := lower schema_name in
  let c := set_schemas_set ({[schema_lower]} ∪ schemas_set c) c in
  let c := set_schemas_list (schemas_list c ++ [schema_lower]) c in
  let c := set_schemas_map (<[schema_lower := schema_name]> (schemas_map c)) c in
  let c := set_tables_by_schema (dict_set schema_lower ∅ (tables_by_schema c)) c in
  set_tables_list_by_schema (<[schema_lower := []]> (tables_list_by_schema c)) c.

(** Table level: the body of the middle loop up to the column loop. *)
Definition register_table (schema_name table_name : string)
    (c : EnvironmentCache) : EnvironmentCache :=
  let schema_lower := lower schema_name in
  let table_lower := lower table_name in
  let c := set_tables_set ({[table_lower]} ∪ tables_set c) c in
  let c :=
    if decide (is_Some (tables_map c !! table_lower)) then c
    else
      let c := set_tables_list (tables_list c ++ [table_lower]) c in
      set_tables_map (<[table_lower := table_name]> (tables_map c)) c in
  let c :=
    set_tables_by_schema
      (dict_alter (λ s, {[table_lower]} ∪ s) schema_lower (tables_by_schema c)) c in
  let c :=
    set_tables_list_by_schema
      (alter (λ l, l ++ [table_lower]) schema_lower (tables_list_by_schema c)) c in
  let table_key := (schema_lower, table_lower) in
  let c := set_columns_by_table (dict_set table_key ∅ (columns_by_table c)) c in
  let c :=
    set_columns_list_by_table (<[table_key := []]> (columns_list_by_table c)) c in
  let qualified_table := schema_name +:+ "." +:+ table_name in
  let qualified_table_lower := lower qualified_table in
  let c :=
    set_qualified_tables_list
      (qualified_tables_list c ++ [qualified_table_lower]) c in
  set_qualified_tables_map
    (<[qualified_table_lower := qualified_table]> (qualified_tables_map c)) c.

(** Column level: the body of the inner loop. *)
Definition register_column (schema_name table_name column_name : string)
    (c : EnvironmentCache) : EnvironmentCache :=
  let table_key := (lower schema_name, lower table_name) in
  let column_lower := lower column_name in
  let c := set_columns_set ({[column_lower]} ∪ columns_set c) c in
  let c :=
    if decide (is_Some (columns_map c !! column_lower)) then c
    else
      let c := set_columns_list (columns_list c ++ [column_lower]) c in
      set_columns_map (<[column_lower := column_name]> (columns_map c)) c in
  let c :=
    set_columns_by_table
      (dict_alter (λ s, {[column_lower]} ∪ s) table_key (columns_by_table c)) c in
  let c :=
    set_columns_list_by_table
      (alter (λ l, l ++ [column_lower]) table_key (columns_list_by_table c)) c in
  let qualified_column :=
    schema_name +:+ "." +:+ table_name +:+ "." +:+ column_name in
  let qualified_column_lower := lower qualified_column in
  let c :=
    set_qualified_columns_list
      (qualified_columns_list c ++ [qualified_column_lower]) c in
  set_qualified_columns_map
    (<[qualified_column_lower := qualified_column]> (qualified_columns_map c)) c.

(** *** Well-typed snapshots

    [schemas: dict[str, {"tables": dict[str, list[str]]}]], each [dict]
    listed in insertion order. *)

Abbreviation RawTables := (list (string * list string)).
Abbreviation RawSchemas := (list (string * RawTables)).

Record RawMetadata : Type := mkRaw {
  raw_schemas : RawSchemas;
  raw_exported_at : option string
}.

Definition columns_to_py (columns : list string) : pyval :=
  PyList (PyStr <$> columns).

Definition tables_to_py (tables : RawTables) : pyval :=
  PyDict ((λ tc, (PyStr tc.1, columns_to_py tc.2)) <$> tables).

Definition schemas_to_py (raw : RawSchemas) : pyval :=
  PyDict ((λ st, (PyStr st.1, PyDict [(PyStr "tables", tables_to_py st.2)]))
            <$> raw).

(** The Python object a well-typed snapshot is. *)
Definition raw_to_py (data : RawMetadata) : pyval :=
  PyDict [ (PyStr "schemas", schemas_to_py (raw_schemas data));
           (PyStr "exported_at",
            from_option PyStr PyNone (raw_exported_at data)) ].

(** The three nested loops on a well-typed snapshot. *)
Definition build_columns (schema_name table_name : string)
    (columns : list string) (c : EnvironmentCache) : EnvironmentCache :=
  foldl (λ c column_name, register_column schema_name table_name column_name c)
        c columns.

Definition build_tables (schema_name : string) (tables_data : RawTables)
    (c : EnvironmentCache) : EnvironmentCache :=
  foldl (λ c tc, build_columns schema_name tc.1 tc.2
                   (register_table schema_name tc.1 c))
        c tables_data.

Definition build_schemas (raw : RawSchemas) (c : EnvironmentCache)
  : EnvironmentCache :=
  foldl (λ c st, build_tables st.1 st.2 (register_schema st.1 c)) c raw.

(** [_build_from_raw_data] on a well-typed snapshot. *)
Definition _build_from_raw_data (data : RawMetadata) (c : EnvironmentCache)
  : EnvironmentCache :=
  let c := set_exported_at (from_option PyStr PyNone (raw_exported_at data)) c in
  let c := _reset_structures c in
  let c := set_schemas (schemas_to_py (raw_schemas data)) c in
  build_schemas (raw_schemas data) c.

(** The index of a snapshot: a fresh cache, built. *)
Definition index_of (raw : RawSchemas) : EnvironmentCache :=
  _build_from_raw_data (mkRaw raw None) empty_cache.

(** *** Lookups *)

(** [x in s] for a Python set. *)
Definition set_mem (x : string) (s : gset string) : bool := bool_decide (x ∈ s).

Definition get_original_schema (c : EnvironmentCache) (normalized : string)
  : option string := schemas_map c !! normalized.

Definition get_original_table (c : EnvironmentCache) (normalized : string)
  : option string := tables_map c !! normalized.

Definition get_original_column (c : EnvironmentCache) (normalized : string)
  : option string := columns_map c !! normalized.

Definition schema_exists (c : EnvironmentCache) (name : string) : bool :=
  set_mem (lower name) (schemas_set c).

(** [if schema:] is the truth value of a [str | None]: [None] and the
    empty string both take the global branch. *)
Definition table_exists (c : EnvironmentCache) (name : string)
    (schema : option string) : bool :=
  let table_lower := lower name in
  match schema with
  | Some s =>
      if truthy s then
        let schema_lower := lower s in
        let tables := default ∅ (dict_get schema_lower (tables_by_schema c)) in
        set_mem table_lower tables
      else set_mem table_lower (tables_set c)
  | None => set_mem table_lower (tables_set c)
  end.

Definition column_exists (c : EnvironmentCache) (name : string)
    (schema table : option string) : bool :=
  let column_lower := lower name in
  if truthy_opt schema && truthy_opt table then
    let key := (lower (default "" schema), lower (default "" table)) in
    let columns := default ∅ (dict_get key (columns_by_table c)) in
    set_mem column_lower columns
  else set_mem column_lower (columns_set c).

(** The scope of a request: [Literal["schema", "table", "column"]]. *)
Inductive Scope : Type := ScopeSchema | ScopeTable | ScopeColumn.

Definition get_candidates_for_scope (c : EnvironmentCache) (scope : Scope)
    (schema table : option string) : list string :=
  match scope with
  | ScopeSchema => schemas_list c
  | ScopeTable =>
      if truthy_opt schema then
        default [] (tables_list_by_schema c !! lower (default "" schema))
      else tables_list c
  | ScopeColumn =>
      if truthy_opt schema && truthy_opt table then
        let key := (lower (default "" schema), lower (default "" table)) in
        default [] (columns_list_by_table c !! key)
      else columns_list c
  end.

Definition get_original_for_scope (c : EnvironmentCache) (scope : Scope)
    (normalized : string) : option string :=
  match scope with
  | ScopeSchema => get_original_schema c normalized
  | ScopeTable => get_original_table c normalized
  | ScopeColumn => get_original_column c normalized
  end.

(** [schema and schema.lower() != name]: the filter of the typeahead
    enumeration. *)
Definition filtered_out (ctx : option string) (name : string) : bool :=
  truthy_opt ctx && negb (bool_decide (lower (default "" ctx) = name)).

(** Pairs (search key, qualified name); a Python set is enumerated in
    the order [elements] gives. *)
Definition get_searchable_candidates_for_scope (c : EnvironmentCache)
    (scope : Scope) (schema table : option string) : list (string * string) :=
  match scope with
  | ScopeSchema => (λ name, (name, name)) <$> schemas_list c
  | ScopeTable =>
      tables_by_schema c ≫= λ '(schema_name, tables),
        if filtered_out schema schema_name then []
        else (λ table_name, (table_name, schema_name +:+ "." +:+ table_name))
               <$> elements tables
  | ScopeColumn =>
      columns_by_table c ≫= λ '((schema_name, table_name), columns),
        if filtered_out schema schema_name then []
        else if filtered_out table table_name then []
        else (λ column_name,
                (column_name,
                 schema_name +:+ "." +:+ table_name +:+ "." +:+ column_name))
               <$> elements columns
  end.

Definition get_original_qualified (c : EnvironmentCache) (scope : Scope)
    (normalized : string) : option string :=
  match scope with
  | ScopeSchema => schemas_map c !! normalized
  | ScopeTable => qualified_tables_map c !! normalized
  | ScopeColumn => qualified_columns_map c !! normalized
  end.

(** ** Exceptions and outcomes *)

Inductive PyExc : Type :=
| FileNotFoundError
| UnpicklingError
| AttributeError
| TypeError
| KeyError
| HTTPException (status_code : nat).

Inductive outcome (A : Type) : Type :=
| Returned (a : A)
| Raised (e : PyExc).
Arguments Returned {A} a.
Arguments Raised {A} e.

(** ** The fuzzy matcher *)

Record FuzzyMatch : Type := mkFuzzyMatch {
  match_name : string;   (* [name]: the matched candidate (normalized) *)
  match_score : Z        (* [score] *)
}.

Record FuzzyMatcher : Type := mkFuzzyMatcher {
  fm_threshold : Z;      (* [self.threshold] *)
  fm_max_results : nat   (* [self.max_results] *)
}.

(** [int(score)] of a float: truncation towards zero. *)
Definition py_int (score : Q) : Z := Z.quot (Qnum score) (Z.pos (Qden score)).

Section rapidfuzz.
(** [fuzz.WRatio(query, choice)]: a similarity, a float that is read
    here as the rational number it denotes. *)
Variable WRatio : string → string → Q.

(** One result of [process.extract]: (choice, score, index). *)
Definition result_score (r : string * Q * nat) : Q := r.1.2.
Definition result_index (r : string * Q * nat) : nat := r.2.

Definition score_all (query : string) (choices : list string)
  : list (string * Q * nat) :=
  imap (λ i choice, (choice, WRatio query choice, i)) choices.

Definition above_cutoff (score_cutoff : Z) (r : string * Q * nat) : bool :=
  Qle_bool (inject_Z score_cutoff) (result_score r).

(** [r] goes in front of the first result that does not score strictly
    higher.  [sort_desc] inserts from the right, so a result lands in
    front of the equal-scoring results that follow it in the input. *)
Fixpoint insert_desc (r : string * Q * nat) (l : list (string * Q * nat))
  : list (string * Q * nat) :=
  match l with
  | [] => [r]
  | r' :: l' =>
      if Qle_bool (result_score r') (result_score r) then r :: r' :: l'
      else r' :: insert_desc r l'
  end.

(** [sorted(results, key=score, reverse=True)], which is stable. *)
Definition sort_desc (l : list (string * Q * nat)) : list (string * Q * nat) :=
  foldr insert_desc [] l.

(** [process.extract(query, choices, scorer=fuzz.WRatio, limit=limit,
    score_cutoff=score_cutoff)]: the results that reach the cutoff,
    best first, at most [limit] of them. *)
Definition extract (query : string) (choices : list string) (limit : nat)
    (score_cutoff : Z) : list (string * Q * nat) :=
  take limit
    (sort_desc (filter (λ r, above_cutoff score_cutoff r = true)
                       (score_all query choices))).

(** [FuzzyMatcher.find_matches] *)
Definition find_matches (self : FuzzyMatcher) (query : string)
    (candidates : list string) (threshold : option Z) (limit : option nat)
  : list FuzzyMatch :=
  match candidates with
  | [] => []
  | _ =>
      let effective_threshold := default (fm_threshold self) threshold in
      let effective_limit := default (fm_max_results self) limit in
      let query_normalized := strip (lower query) in
      let results :=
        extract query_normalized candidates effective_limit
                effective_threshold in
      (λ r, mkFuzzyMatch r.1.1 (py_int r.1.2)) <$> results
  end.

(** ** The validator *)

Record Context : Type := mkContext {
  ctx_schema_name : option string;   (* [schema_name] *)
  ctx_table_name : option string     (* [table_name] *)
}.

Inductive ValidationStatus : Type := VALID | SUGGESTIONS | NOT_FOUND.

Record Suggestion : Type := mkSuggestion {
  sug_name : string;
  sug_score : Z
}.

Record ValidationResponse : Type := mkResponse {
  status : ValidationStatus;
  match_ : option string;
  suggestions : option (list Suggestion)
}.

Record Validator : Type := mkValidator {
  cache : EnvironmentCache;
  fuzzy_matcher : FuzzyMatcher
}.

Definition _check_exact_match (self : Validator) (scope : Scope)
    (normalized_term : string) (schema_name table_name : option string)
  : option string :=
  match scope with
  | ScopeSchema =>
      if schema_exists (cache self) normalized_term
      then get_original_schema (cache self) normalized_term else None
  | ScopeTable =>
      if table_exists (cache self) normalized_term schema_name
      then get_original_table (cache self) normalized_term else None
  | ScopeColumn =>
      if column_exists (cache self) normalized_term schema_name table_name
      then get_original_column (cache self) normalized_term else None
  end.

(** The loop that turns matches into suggestions: a match whose
    original casing is missing or empty is dropped. *)
Definition to_suggestion (self : Validator) (scope : Scope) (m : FuzzyMatch)
  : option Suggestion :=
  match get_original_for_scope (cache self) scope (match_name m) with
  | Some original_name =>
      if truthy original_name
      then Some (mkSuggestion original_name (match_score m)) else None
  | None => None
  end.

Definition _find_fuzzy_suggestions (self : Validator) (scope : Scope)
    (search_term : string) (schema_name table_name : option string)
  : option (list Suggestion) :=
  let candidates :=
    get_candidates_for_scope (cache self) scope schema_name table_name in
  match candidates with
  | [] => None
  | _ =>
      let matches :=
        find_matches (fuzzy_matcher self) search_term candidates None None in
      match matches with
      | [] => None
      | _ =>
          let suggestions := omap (to_suggestion self scope) matches in
          match suggestions with [] => None | _ => Some suggestions end
      end
  end.

(** The stages a call goes through, in order. *)
Inductive Stage : Type := ExactStage | FuzzyStage.

(** [Validator.validate], together with the stages it entered. *)
Definition validate_staged (self : Validator) (scope : Scope)
    (search_term : string) (context : option Context)
  : list Stage * ValidationResponse :=
  let normalized_term := strip (lower search_term) in
  let schema_name := context ≫= ctx_schema_name in
  let table_name := context ≫= ctx_table_name in
  let exact_match :=
    _check_exact_match self scope normalized_term schema_name table_name in
  if truthy_opt exact_match then
    ([ExactStage], mkResponse VALID exact_match None)
  else
    let suggestions :=
      _find_fuzzy_suggestions self scope search_term schema_name table_name in
    ([ExactStage; FuzzyStage],
     match suggestions with
     | Some (_ :: _) => mkResponse SUGGESTIONS None suggestions
     | _ => mkResponse NOT_FOUND None (Some [])
     end).

Definition validate (self : Validator) (scope : Scope)
    (search_term : string) (context : option Context) : ValidationResponse :=
  (validate_staged self scope search_term context).2.

(** ** The typeahead endpoint ([suggest]) *)

(** [{c[0]: c[1] for c in candidates}]: a later pair overwrites an
    earlier one with the same key. *)
Definition key_to_qualified_of (candidates : list (string * string))
  : gmap string string :=
  foldl (λ d c, <[c.1 := c.2]> d) ∅ candidates.

(** The result loop; [key_to_qualified[match_key]] raises [KeyError]
    on a key that is not there. *)
Fixpoint collect_results (cache : EnvironmentCache) (scope : Scope)
    (key_to_qualified : gmap string string)
    (matches : list (string * Q * nat)) (results : list string)
  : outcome (list string) :=
  match matches with
  | [] => Returned results
  | (match_key, _, _) :: matches' =>
      match key_to_qualified !! match_key with
      | None => Raised KeyError
      | Some qualified_lower =>
          let original := get_original_qualified cache scope qualified_lower in
          if truthy_opt original
             && negb (bool_decide (default "" original ∈ results))
          then collect_results cache scope key_to_qualified matches'
                 (results ++ [default "" original])
          else collect_results cache scope key_to_qualified matches' results
      end
  end.

(** [suggest]; [cache] is what [metadata_cache_manager.get_cache]
    returned for the requested environment. *)
Definition suggest (cache : option EnvironmentCache) (scope : Scope)
    (q : string) (schema_name table_name : option string)
    (threshold : Z) (limit : nat) : outcome (list string) :=
  match cache with
  | None => Raised (HTTPException 400)
  | Some cache =>
      if negb (is_loaded cache) then Raised (HTTPException 400)
      else
        let candidates :=
          get_searchable_candidates_for_scope cache scope schema_name
            table_name in
        match candidates with
        | [] => Returned []
        | _ =>
            let search_keys := candidates.*1 in
            let key_to_qualified := key_to_qualified_of candidates in
            let query_lower := strip (lower q) in
            let matches := extract query_lower search_keys limit threshold in
            collect_results cache scope key_to_qualified matches []
        end
  end.

End rapidfuzz.

(** ** Loading a snapshot as Python runs it

    [M A] is a computation on [self] that returns or raises; either
    way the mutations made so far stay. *)

Definition M (A : Type) : Type :=
  EnvironmentCache → outcome A * EnvironmentCache.

Definition ret {A} (a : A) : M A := λ c, (Returned a, c).

Definition raise {A} (e : PyExc) : M A := λ c, (Raised e, c).

#[global] Instance M_bind : MBind M := λ A B (k : A → M B) (m : M A) c,
  match m c with
  | (Returned a, c') => k a c'
  | (Raised e, c') => (Raised e, c')
  end.

Definition modify (f : EnvironmentCache → EnvironmentCache) : M unit :=
  λ c, (Returned tt, f c).


(** [for x in xs: body(x)] *)
Fixpoint for_each {A} (xs : list A) (body : A → M unit) : M unit :=
  match xs with
  | [] => ret tt
  | x :: xs' => body x ;; for_each xs' body
  end.

(** [v.get] and [v.items()] need a [dict]. *)
Definition as_dict (v : pyval) : M (list (pyval * pyval)) :=
  match v with PyDict items => ret items | _ => raise AttributeError end.

(** [v.lower()] needs a [str]. *)
Definition as_str (v : pyval) : M string :=
  match v with PyStr s => ret s | _ => raise AttributeError end.

(** [for x in v]: a list gives its elements, a dict its keys, a string
    its characters; [None] and numbers are not iterable. *)
Definition py_iter (v : pyval) : M (list pyval) :=
  match v with
  | PyList xs => ret xs
  | PyDict items => ret items.*1
  | PyStr s => ret ((λ a, PyStr (String a EmptyString)) <$> String.list_ascii_of_string s)
  | _ => raise TypeError
  end.

(** [d.get(key)] for a string key. *)
Fixpoint py_get (key : string) (items : list (pyval * pyval)) : option pyval :=
  match items with
  | [] => None
  | (PyStr k, v) :: items' => if decide (k = key) then Some v else py_get key items'
  | _ :: items' => py_get key items'
  end.

(** [_build_from_raw_data] on whatever [pickle.load] returned. *)
Definition _build_from_pickled (data : pyval) : M unit :=
  d ← as_dict data;
  modify (set_exported_at (default PyNone (py_get "exported_at" d))) ;;
  let raw_schemas := default (PyDict []) (py_get "schemas" d) in
  modify _reset_structures ;;
  modify (set_schemas raw_schemas) ;;
  schema_items ← as_dict raw_schemas;
  for_each schema_items (λ '(schema_name, schema_data),
    schema_name ← as_str schema_name;
    modify (register_schema schema_name) ;;
    schema_data ← as_dict schema_data;
    let tables_data := default (PyDict []) (py_get "tables" schema_data) in
    table_items ← as_dict tables_data;
    for_each table_items (λ '(table_name, columns),
      table_name ← as_str table_name;
      modify (register_table schema_name table_name) ;;
      columns ← py_iter columns;
      for_each columns (λ column_name,
        column_name ← as_str column_name;
        modify (register_column schema_name table_name column_name)))).

(** What is behind [pickle_path]. *)
Inductive resource : Type :=
| Absent                    (* [path.exists()] is false *)
| Corrupt                   (* [pickle.load] raises; [UnpicklingError]
                               stands for what it raises *)
| Pickled (data : pyval).   (* [pickle.load] returns [data] *)

(** [EnvironmentCache.load]; [now] is [datetime.now()]. *)
Definition load (file : resource) (environment : string) (now : Z) : M unit :=
  match file with
  | Absent => raise FileNotFoundError
  | Corrupt => raise UnpicklingError
  | Pickled data =>
      modify (set_environment environment) ;;
      _build_from_pickled data ;;
      modify (set_loaded_at (Some now)) ;;
      modify (set_is_loaded true)
  end.


(** ** Consistency of an index

    What the lookups rely on: at each level the set, the list and the
    keys of the casing map hold the same names; a scoped set and its
    scoped list hold the same names, all of them known globally. *)

Definition scoped_lockstep {K} (universe : gset string)
    (scoped_set : K → option (gset string))
    (scoped_list : K → option (list string)) : Prop :=
  ∀ k, match scoped_set k, scoped_list k with
       | Some names, Some listed =>
           (∀ x, x ∈ listed ↔ x ∈ names) ∧ names ⊆ universe
       | None, None => True
       | _, _ => False
       end.

Record consistent (c : EnvironmentCache) : Prop := mkConsistent {
  schemas_list_set : ∀ x, x ∈ schemas_list c ↔ x ∈ schemas_set c;
  schemas_map_set : ∀ x, is_Some (schemas_map c !! x) ↔ x ∈ schemas_set c;
  tables_list_set : ∀ x, x ∈ tables_list c ↔ x ∈ tables_set c;
  tables_map_set : ∀ x, is_Some (tables_map c !! x) ↔ x ∈ tables_set c;
  tables_list_NoDup : NoDup (tables_list c);
  columns_list_set : ∀ x, x ∈ columns_list c ↔ x ∈ columns_set c;
  columns_map_set : ∀ x, is_Some (columns_map c !! x) ↔ x ∈ columns_set c;
  columns_list_NoDup : NoDup (columns_list c);
  tables_by_schema_defined :
    ∀ s, is_Some (dict_get s (tables_by_schema c)) ↔ s ∈ schemas_set c;
  tables_by_schema_lockstep :
    scoped_lockstep (tables_set c)
      (λ s, dict_get s (tables_by_schema c))
      (λ s, tables_list_by_schema c !! s);
  columns_by_table_lockstep :
    scoped_lockstep (columns_set c)
      (λ k, dict_get k (columns_by_table c))
      (λ k, columns_list_by_table c !! k)
}.

(** Every entry of the three casing maps satisfies the predicate of its
    level, applied to the key and the original name. *)
Definition casing (Ps Pt Pc : string → string → Prop) (c : EnvironmentCache)
  : Prop :=
  (∀ k v, schemas_map c !! k = Some v → Ps k v)
  ∧ (∀ k v, tables_map c !! k = Some v → Pt k v)
  ∧ (∀ k v, columns_map c !! k = Some v → Pc k v).

(** ** The names of a snapshot, in the order the build meets them *)

Definition schema_names (raw : RawSchemas) : list string := raw.*1.

(** One entry per table: (schema name, table name, columns). *)
Definition table_entries (raw : RawSchemas)
  : list (string * string * list string) :=
  raw ≫= λ st, (λ tc, (st.1, tc.1, tc.2)) <$> st.2.

Definition table_names (raw : RawSchemas) : list string :=
  (λ e, e.1.2) <$> table_entries raw.

Definition column_names (raw : RawSchemas) : list string :=
  table_entries raw ≫= λ e, e.2.

(** The key under which the build files a table entry. *)
Definition entry_key (e : string * string * list string) : string * string :=
  (lower e.1.1, lower e.1.2).

(** The columns of the last entry filed under [key], if any. *)
Definition last_columns (key : string * string)
    (entries : list (string * string * list string)) : option (list string) :=
  foldl (λ found e, if decide (entry_key e = key) then Some e.2 else found)
        None entries.

(** ** Ranking *)

(** [r1] is ranked before [r2]: a strictly higher score, or the same
    score and an earlier position among the choices. *)
Definition ranks_before (r1 r2 : string * Q * nat) : Prop :=
  Qlt (result_score r2) (result_score r1)
  ∨ (Qeq (result_score r1) (result_score r2)
     ∧ result_index r1 < result_index r2).

(** The order the specification asks of [find_matches]: two returned
    entries with the same score come from two positions of the
    candidate list in the same order. *)
Definition ties_in_input_order (candidates : list string)
    (matches : list FuzzyMatch) : Prop :=
  ∀ i j m1 m2,
    i < j → matches !! i = Some m1 → matches !! j = Some m2 →
    match_score m1 = match_score m2 →
    ∃ p q, p < q ∧ candidates !! p = Some (match_name m1)
           ∧ candidates !! q = Some (match_name m2).

(** Length of a longest common subsequence. *)
Fixpoint lcs_length (s : string) : string → nat :=
  match s with
  | EmptyString => λ _, 0
  | String a s' =>
      fix against (t : string) : nat :=
        match t with
        | EmptyString => 0
        | String b t' =>
            if decide (a = b) then S (lcs_length s' t')
            else lcs_length s' t `max` against t'
        end
  end.

(** The normalized indel similarity [100 * 2 * lcs / (len s + len t)],
    with 0 when a string is empty.  For two non-empty strings without
    spaces whose lengths differ by a factor below 1.5, [fuzz.WRatio]
    returns this value. *)
Definition plain_ratio (s t : string) : Q :=
  match s, t with
  | EmptyString, _ | _, EmptyString => 0%Q
  | _, _ =>
      Qmake (200 * Z.of_nat (lcs_length s t))
            (Pos.of_nat (String.length s + String.length t))
  end.

(** ** Vocabulary of the validation claims *)

(** The existence check of a scope under a request context: the
    dispatch of the exact stage. *)
Definition exists_in_scope (c : EnvironmentCache) (scope : Scope)
    (name : string) (context : option Context) : bool :=
  match scope with
  | ScopeSchema => schema_exists c name
  | ScopeTable => table_exists c name (context ≫= ctx_schema_name)
  | ScopeColumn =>
      column_exists c name (context ≫= ctx_schema_name)
                    (context ≫= ctx_table_name)
  end.

(** The candidates of a scope under a request context: the input of the
    fuzzy stage. *)
Definition candidates_in_scope (c : EnvironmentCache) (scope : Scope)
    (context : option Context) : list string :=
  get_candidates_for_scope c scope (context ≫= ctx_schema_name)
                           (context ≫= ctx_table_name).

(** No schema, table or column of the snapshot is named by the empty
    string. *)
Definition nonempty_names (raw : RawSchemas) : bool :=
  forallb truthy (schema_names raw ++ table_names raw ++ column_names raw).

(** The snapshot of the specification's scenario. *)
Definition scenario : RawSchemas :=
  [("public", [("student", ["id"; "name"; "email"])])].

(** The matcher the service configures by default. *)
Definition default_matcher : FuzzyMatcher := mkFuzzyMatcher 50 5.

(** The names of one level of a snapshot. *)
Definition names_at (scope : Scope) (raw : RawSchemas) : list string :=
  match scope with
  | ScopeSchema => schema_names raw
  | ScopeTable => table_names raw
  | ScopeColumn => column_names raw
  end.

(** ** Loading: what a run of the build leaves of the previous state *)

(** A run with the load status put back afterwards. *)
Definition with_status (loaded_at : option Z) (is_loaded : bool)
    (c : EnvironmentCache) : EnvironmentCache :=
  set_loaded_at loaded_at (set_is_loaded is_loaded c).

(** A computation that neither reads nor writes the load status. *)
Definition ignores_status (loaded_at : option Z) (is_loaded : bool) {A}
    (m : M A) : Prop :=
  ∀ c, m (with_status loaded_at is_loaded c)
       = ((m c).1, with_status loaded_at is_loaded (m c).2).

(** A snapshot whose schema "hr" has [None] for its data. *)
Definition malformed_snapshot : pyval :=
  PyDict [(PyStr "schemas", PyDict [(PyStr "hr", PyNone)])].

(** Two schemas with a table of the same name. *)
Definition two_students : RawSchemas :=
  [("public", [("student", ["id"])]); ("hr", [("student", ["id"])])].

(** A computation that leaves a field of the index as it is. *)
Definition keeps {A B} (field : EnvironmentCache → B) (m : M A) : Prop :=
  ∀ c, field (m c).2 = field c.

(** ** The typeahead result, in the words of the specification *)



(** ** Further code of the services and routers *)

Section rapidfuzz_more.
Variable WRatio : string → string → Q.

(** [process.extractOne(query, choices, scorer=fuzz.WRatio,
  score_cutoff=score_cutoff)]: one pass over the choices that keeps
  the best result so far; a later result replaces it only with a
  strictly higher score. *)
Definition keep_best (score_cutoff : Z) (best : option (string * Q * nat))
  (r : string * Q * nat) : option (string * Q * nat) :=
if above_cutoff score_cutoff r then
  match best with
  | None => Some r
  | Some b => if Qle_bool (result_score r) (result_score b) then best else Some r
  end
else best.

Definition extractOne (query : string) (choices : list string)
  (score_cutoff : Z) : option (string * Q * nat) :=
foldl (keep_best score_cutoff) None (score_all WRatio query choices).

(** [FuzzyMatcher.find_best_match] *)
Definition find_best_match (self : FuzzyMatcher) (query : string)
  (candidates : list string) (threshold : option Z) : option FuzzyMatch :=
match candidates with
| [] => None
| _ =>
    let effective_threshold := default (fm_threshold self) threshold in
    let query_normalized := strip (lower query) in
    match extractOne query_normalized candidates effective_threshold with
    | None => None
    | Some r => Some (mkFuzzyMatch r.1.1 (py_int r.1.2))
    end
end.

(** One entry of [suggest_with_scores]: [{"name": ..., "score": ...}]. *)
Record ScoredSuggestion : Type := mkScored {
scored_name : string;
scored_score : Z
}.

(** The result loop of [suggest_with_scores], with its [seen] set. *)
Fixpoint collect_scored (cache : EnvironmentCache) (scope : Scope)
  (key_to_qualified : gmap string string)
  (matches : list (string * Q * nat)) (results : list ScoredSuggestion)
  (seen : gset string) : outcome (list ScoredSuggestion) :=
match matches with
| [] => Returned results
| (match_key, score, _) :: matches' =>
    match key_to_qualified !! match_key with
    | None => Raised KeyError
    | Some qualified_lower =>
        let original := get_original_qualified cache scope qualified_lower in
        if truthy_opt original
           && negb (set_mem (default "" original) seen)
        then collect_scored cache scope key_to_qualified matches'
               (results ++ [mkScored (default "" original) (py_int score)])
               ({[default "" original]} ∪ seen)
        else collect_scored cache scope key_to_qualified matches' results seen
    end
end.

(** [suggest_with_scores] *)
Definition suggest_with_scores (cache : option EnvironmentCache)
  (scope : Scope) (q : string) (schema_name table_name : option string)
  (threshold : Z) (limit : nat) : outcome (list ScoredSuggestion) :=
match cache with
| None => Raised (HTTPException 400)
| Some cache =>
    if negb (is_loaded cache) then Raised (HTTPException 400)
    else
      let candidates :=
        get_searchable_candidates_for_scope cache scope schema_name
          table_name in
      match candidates with
      | [] => Returned []
      | _ =>
          let search_keys := candidates.*1 in
          let key_to_qualified := key_to_qualified_of candidates in
          let query_lower := strip (lower q) in
          let matches := extract WRatio query_lower search_keys limit threshold in
          collect_scored cache scope key_to_qualified matches [] ∅
      end
end.

End rapidfuzz_more.

(** [s.startswith(prefix)] *)
Fixpoint startswith (prefix s : string) : bool :=
  match prefix, s with
  | EmptyString, _ => true
  | String a prefix', String b s' => bool_decide (a = b) && startswith prefix' s'
  | String _ _, EmptyString => false
  end.

(** [EnvironmentCache.get_qualified_candidates_for_scope] *)
Definition get_qualified_candidates_for_scope (c : EnvironmentCache)
    (scope : Scope) (schema table : option string) : list string :=
  match scope with
  | ScopeSchema => schemas_list c
  | ScopeTable =>
      if truthy_opt schema then
        let schema_lower := lower (default "" schema) in
        filter (λ q, startswith (schema_lower +:+ ".") q = true)
               (qualified_tables_list c)
      else qualified_tables_list c
  | ScopeColumn =>
      if truthy_opt schema && truthy_opt table then
        let prefix :=
          lower (default "" schema) +:+ "." +:+ lower (default "" table) +:+ "." in
        filter (λ q, startswith prefix q = true) (qualified_columns_list c)
      else if truthy_opt schema then
        filter (λ q, startswith (lower (default "" schema) +:+ ".") q = true)
               (qualified_columns_list c)
      else qualified_columns_list c
  end.

(** The tables of the last schema entry filed under [key], if any. *)
Definition last_tables (key : string) (raw : RawSchemas) : option RawTables :=
  foldl (λ found st, if decide (lower st.1 = key) then Some st.2 else found)
        None raw.

(** A qualified map files [key] under an original whose lowercase form
    is [key]. *)
Definition resolves (m : gmap string string) (key : string) : Prop :=
  ∃ original, m !! key = Some original ∧ lower original = key.

(** Every table under a schema and every column under a table has its
    dotted path in the qualified maps, and so has every entry of the
    qualified lists. *)
Record qualified_consistent (c : EnvironmentCache) : Prop := mkQualified {
  tables_resolve :
    ∀ s names t, (s, names) ∈ tables_by_schema c → t ∈ names →
      resolves (qualified_tables_map c) (s +:+ "." +:+ t);
  columns_resolve :
    ∀ s t names col, ((s, t), names) ∈ columns_by_table c → col ∈ names →
      resolves (qualified_columns_map c) (s +:+ "." +:+ t +:+ "." +:+ col);
  qualified_tables_resolve :
    ∀ q, q ∈ qualified_tables_list c → resolves (qualified_tables_map c) q;
  qualified_columns_resolve :
    ∀ q, q ∈ qualified_columns_list c → resolves (qualified_columns_map c) q
}.

(** The index a fresh [EnvironmentCache()] holds after [load] of a
    well-typed snapshot: what the manager registers. *)
Definition loaded_index (data : RawMetadata) (environment : string) (now : Z)
  : EnvironmentCache :=
  (load (Pickled (raw_to_py data)) environment now empty_cache).2.

(** ** The registry of indexes ([MetadataCacheManager]) *)

Record MetadataCacheManager : Type := mkManager {
  _caches : list (string * EnvironmentCache);
  _available_environments : list string
}.

(** [MetadataCacheManager()] *)
Definition new_manager : MetadataCacheManager := mkManager [] [].

(** The status strings of [load_all_environments]. *)
Inductive LoadStatus : Type :=
| StatusLoaded (schemas tables : nat)  (* "loaded (N schemas, M tables)" *)
| StatusError (e : PyExc)              (* "error: ..." *)
| StatusFileNotFound.                  (* "file not found" *)

(** One turn of the loop of [load_all_environments]: [files] tells what
    is behind the pickle path of an environment, [now] the time of its
    load. *)
Definition load_environment (files : string → resource) (now : string → Z)
    (state : list (string * LoadStatus) * MetadataCacheManager) (env : string)
  : list (string * LoadStatus) * MetadataCacheManager :=
  let '(results, self) := state in
  match files env with
  | Absent => (dict_set env StatusFileNotFound results, self)
  | file =>
      match load file env (now env) empty_cache with
      | (Returned _, cache) =>
          (dict_set env
             (StatusLoaded (size (schemas_set cache)) (size (tables_set cache)))
             results,
           mkManager (dict_set env cache (_caches self))
                     (_available_environments self ++ [env]))
      | (Raised e, _) => (dict_set env (StatusError e) results, self)
      end
  end.

(** [load_all_environments], over [settings.available_environments]. *)
Definition load_all_environments (files : string → resource)
    (now : string → Z) (environments : list string)
    (self : MetadataCacheManager)
  : list (string * LoadStatus) * MetadataCacheManager :=
  foldl (load_environment files now) ([], self) environments.

Definition get_cache (self : MetadataCacheManager) (environment : string)
  : option EnvironmentCache :=
  dict_get environment (_caches self).

Definition is_environment_loaded (self : MetadataCacheManager)
    (environment : string) : bool :=
  match get_cache self environment with
  | Some cache => is_loaded cache
  | None => false
  end.

Definition available_environments (self : MetadataCacheManager) : list string :=
  _available_environments self.

Definition is_any_loaded (self : MetadataCacheManager) : bool :=
  bool_decide (0 < length (_caches self)).

(** Whether [load] of an environment into a fresh cache returns. *)
Definition loads (files : string → resource) (now : string → Z)
    (env : string) : bool :=
  match (load (files env) env (now env) empty_cache).1 with
  | Returned _ => true
  | Raised _ => false
  end.

(** The validation endpoint ([routers/validate.py]); the matcher is the
    one built from the settings. *)
Definition validate_endpoint (WRatio : string → string → Q)
    (matcher : FuzzyMatcher) (manager : MetadataCacheManager)
    (environment : string) (scope : Scope) (search_term : string)
    (context : option Context) : outcome ValidationResponse :=
  if negb (is_any_loaded manager) then Raised (HTTPException 503)
  else
    match get_cache manager environment with
    | None => Raised (HTTPException 400)
    | Some cache =>
        if negb (is_loaded cache) then Raised (HTTPException 400)
        else Returned (validate WRatio (mkValidator cache matcher) scope
                                search_term context)
    end.

(** Every table under a schema and every column under a table has its
    dotted path in the qualified lists. *)
Definition qualified_listed (c : EnvironmentCache) : Prop :=
  (∀ s names t, (s, names) ∈ tables_by_schema c → t ∈ names →
     s +:+ "." +:+ t ∈ qualified_tables_list c)
  ∧ (∀ s t names col, ((s, t), names) ∈ columns_by_table c → col ∈ names →
       s +:+ "." +:+ t +:+ "." +:+ col ∈ qualified_columns_list c).

(** A start-up over two configured environments of which one has a
    snapshot file. *)
Definition one_snapshot (environment : string) : resource :=
  if decide (environment = "prod") then Pickled (raw_to_py (mkRaw scenario None))
  else Absent.

(** ** The ingestion script ([scripts/csv_to_pickle.py]) *)

(** What [load_csv] raises. *)
Inductive CsvError : Type :=
| ValueError          (* no headers, or a configured column is not a header *)
| CellAttributeError. (* [None.strip()]: the row is shorter than the headers *)

(** [row[col].strip()]; a row of [csv.DictReader] has [None] for the
    headers it is too short for. *)
Definition csv_cell (row : gmap string string) (col : string) : option string :=
  strip <$> row !! col.

(** The append of the loop,
    [schemas[schema_name]["tables"][table_name]] being a lookup in
    nested [defaultdict]s: a missing schema or table is created, at
    the end. *)
Definition add_column (schema_name table_name column_name : string)
    (schemas : RawSchemas) : RawSchemas :=
  let tables := default [] (dict_get schema_name schemas) in
  let columns := default [] (dict_get table_name tables) in
  let columns :=
    if bool_decide (column_name ∈ columns) then columns
    else columns ++ [column_name] in
  dict_set schema_name (dict_set table_name columns tables) schemas.

(** The body of the loop over the rows. *)
Definition load_csv_row (schema_col table_col column_col : string)
    (state : RawSchemas * nat) (row : gmap string string)
  : option (RawSchemas * nat) :=
  schema_name ← csv_cell row schema_col;
  table_name ← csv_cell row table_col;
  column_name ← csv_cell row column_col;
  if negb (truthy schema_name) || negb (truthy table_name)
     || negb (truthy column_name)
  then Some state
  else Some (add_column schema_name table_name column_name state.1, S state.2).

Fixpoint load_csv_rows (schema_col table_col column_col : string)
    (state : RawSchemas * nat) (rows : list (gmap string string))
  : option (RawSchemas * nat) :=
  match rows with
  | [] => Some state
  | row :: rows' =>
      state' ← load_csv_row schema_col table_col column_col state row;
      load_csv_rows schema_col table_col column_col state' rows'
  end.

(** [load_csv], on the headers and rows the reader gives; [now] is the
    time stamp put under ["exported_at"]. *)
Definition load_csv (fieldnames : list string)
    (rows : list (gmap string string))
    (schema_col table_col column_col : string) (now : string)
  : CsvError + (RawMetadata * nat) :=
  if bool_decide (fieldnames = []) then inl ValueError
  else if negb (bool_decide (schema_col ∈ fieldnames)
                && bool_decide (table_col ∈ fieldnames)
                && bool_decide (column_col ∈ fieldnames))
  then inl ValueError
  else
    match load_csv_rows schema_col table_col column_col ([], 0) rows with
    | None => inl CellAttributeError
    | Some (schemas, row_count) => inr (mkRaw schemas (Some now), row_count)
    end.

(** [count_stats] *)
Definition count_stats (metadata : RawMetadata) : nat * nat * nat :=
  let schemas := raw_schemas metadata in
  (length schemas,
   sum_list ((λ s : string * RawTables, length s.2) <$> schemas),
   sum_list (schemas ≫= λ s : string * RawTables,
               (λ tc : string * list string, length tc.2) <$> s.2)).

(** The columns a snapshot lists for a table of a schema, named
    exactly. *)
Definition csv_columns (raw : RawSchemas) (schema_name table_name : string)
  : list string :=
  default [] (dict_get table_name (default [] (dict_get schema_name raw))).

(** Every name of the snapshot satisfies [P]. *)
Definition names_satisfy (P : string → Prop) (raw : RawSchemas) : Prop :=
  Forall (λ st : string * RawTables,
            P st.1
            ∧ Forall (λ tc : string * list string, P tc.1 ∧ Forall P tc.2) st.2)
         raw.

(** Keys are unique at both levels, no schema is without tables, no
    table without columns, and no table lists a column twice. *)
Definition csv_well_formed (raw : RawSchemas) : Prop :=
  NoDup raw.*1
  ∧ Forall (λ st : string * RawTables,
              st.2 ≠ [] ∧ NoDup st.2.*1
              ∧ Forall (λ tc : string * list string, tc.2 ≠ [] ∧ NoDup tc.2)
                       st.2)
           raw.

(** A sheet of three rows: a padded one, a blank one and a repeat. *)
Definition sample_rows : list (gmap string string) :=
  [ {[ "schema" := "public"; "table" := "Student"; "column" := " Id " ]};
    {[ "schema" := "public"; "table" := ""; "column" := "name" ]};
    {[ "schema" := "public"; "table" := "Student"; "column" := "Id" ]} ].

(** ** The standalone library ([standalone/])

    [MetadataCache] builds its index by the text of
    [EnvironmentCache._build_from_raw_data], and its existence checks
    are the text of the service's; what differs follows.  The matcher
    of the library's validator is a parameter, [find_matches_of] being
    [self.fuzzy_matcher.find_matches]. *)

Definition standalone_get_original_schema (c : EnvironmentCache)
    (normalized : string) : option string :=
  schemas_map c !! lower normalized.

Definition standalone_get_original_table (c : EnvironmentCache)
    (normalized : string) : option string :=
  tables_map c !! lower normalized.

Definition standalone_get_original_column (c : EnvironmentCache)
    (normalized : string) : option string :=
  columns_map c !! lower normalized.

Definition get_schema_candidates (c : EnvironmentCache) : list string :=
  schemas_list c.

Definition get_table_candidates (c : EnvironmentCache) (schema : option string)
  : list string :=
  if truthy_opt schema
  then default [] (tables_list_by_schema c !! lower (default "" schema))
  else tables_list c.

Definition get_column_candidates (c : EnvironmentCache)
    (schema table : option string) : list string :=
  if truthy_opt schema && truthy_opt table
  then default [] (columns_list_by_table c
                     !! (lower (default "" schema), lower (default "" table)))
  else columns_list c.

Section standalone.
Variable find_matches_of : string → list string → list FuzzyMatch.

Definition standalone_check_exact_match (c : EnvironmentCache) (scope : Scope)
  (normalized_term : string) (schema table : option string) : option string :=
match scope with
| ScopeSchema =>
    if schema_exists c normalized_term
    then standalone_get_original_schema c normalized_term else None
| ScopeTable =>
    if table_exists c normalized_term schema
    then standalone_get_original_table c normalized_term else None
| ScopeColumn =>
    if column_exists c normalized_term schema table
    then standalone_get_original_column c normalized_term else None
end.

(** The body of the loop of [_find_suggestions]. *)
Definition standalone_suggestion (c : EnvironmentCache) (scope : Scope)
  (m : FuzzyMatch) : option Suggestion :=
let original :=
  match scope with
  | ScopeSchema => standalone_get_original_schema c (match_name m)
  | ScopeTable => standalone_get_original_table c (match_name m)
  | ScopeColumn => standalone_get_original_column c (match_name m)
  end in
match original with
| Some original =>
    if truthy original
    then Some (mkSuggestion original (match_score m)) else None
| None => None
end.

Definition _find_suggestions (c : EnvironmentCache) (scope : Scope)
  (search_term : string) (schema table : option string)
: option (list Suggestion) :=
let candidates :=
  match scope with
  | ScopeSchema => get_schema_candidates c
  | ScopeTable => get_table_candidates c schema
  | ScopeColumn => get_column_candidates c schema table
  end in
match candidates with
| [] => None
| _ =>
    match find_matches_of search_term candidates with
    | [] => None
    | matches =>
        match omap (standalone_suggestion c scope) matches with
        | [] => None
        | suggestions => Some suggestions
        end
    end
end.

(** [Validator.validate] of the library; [ValidationResult] has the
  three fields of the service's response, with [None] for the ones
  not given. *)
Definition standalone_validate (c : EnvironmentCache) (scope : Scope)
  (search_term : string) (schema table : option string)
: ValidationResponse :=
let normalized_term := strip (lower search_term) in
let exact_match :=
  standalone_check_exact_match c scope normalized_term schema table in
if truthy_opt exact_match then mkResponse VALID exact_match None
else
  match _find_suggestions c scope search_term schema table with
  | Some (s :: suggestions) =>
      mkResponse SUGGESTIONS None (Some (s :: suggestions))
  | _ => mkResponse NOT_FOUND None (Some [])
  end.

End standalone.

(** [ValidationResult.is_valid] *)
Definition is_valid (result : ValidationResponse) : bool :=
  match status result with VALID => true | _ => false end.

(** [ValidationResult.has_suggestions] *)
Definition has_suggestions (result : ValidationResponse) : bool :=
  match status result with
  | SUGGESTIONS =>
      match suggestions result with Some (_ :: _) => true | _ => false end
  | _ => false
  end.

(** The exit code [print_result] of the command line returns. *)
Definition print_result (result : ValidationResponse) : nat :=
  if is_valid result then 0 else if has_suggestions result then 1 else 2.

(** ** Names within ASCII

    On a string of ASCII characters [lower] and [strip] are Python's
    [str.lower] and [str.strip], and lowercasing a concatenation is
    concatenating the lowercase parts; beyond ASCII [str.lower] looks
    at the neighbours of a character, and the statements about dotted
    names are kept to snapshots whose names are ASCII. *)

Definition is_ascii (s : string) : bool :=
  forallb (λ a, nat_of_ascii a <? 128) (String.list_ascii_of_string s).

Definition ascii_names (raw : RawSchemas) : bool :=
  forallb is_ascii (schema_names raw ++ table_names raw ++ column_names raw).
(** Projections of updated caches. *)
Ltac cache_simpl :=
  cbn [
    environment schemas schemas_set tables_set columns_set schemas_list
    tables_list columns_list schemas_map tables_map columns_map
    tables_by_schema tables_list_by_schema columns_by_table
    columns_list_by_table qualified_tables_list qualified_tables_map
    qualified_columns_list qualified_columns_map exported_at loaded_at
    is_loaded set_environment set_schemas set_schemas_set set_tables_set
    set_columns_set set_schemas_list set_tables_list set_columns_list
    set_schemas_map set_tables_map set_columns_map set_tables_by_schema
    set_tables_list_by_schema set_columns_by_table
    set_columns_list_by_table set_qualified_tables_list
    set_qualified_tables_map set_qualified_columns_list
    set_qualified_columns_map set_exported_at set_loaded_at set_is_loaded ].

Ltac cache_simpl_in H :=
  cbn [
    environment schemas schemas_set tables_set columns_set schemas_list
    tables_list columns_list schemas_map tables_map columns_map
    tables_by_schema tables_list_by_schema columns_by_table
    columns_list_by_table qualified_tables_list qualified_tables_map
    qualified_columns_list qualified_columns_map exported_at loaded_at
    is_loaded set_environment set_schemas set_schemas_set set_tables_set
    set_columns_set set_schemas_list set_tables_list set_columns_list
    set_schemas_map set_tables_map set_columns_map set_tables_by_schema
    set_tables_list_by_schema set_columns_by_table
    set_columns_list_by_table set_qualified_tables_list
    set_qualified_tables_map set_qualified_columns_list
    set_qualified_columns_map set_exported_at set_loaded_at set_is_loaded ] in H.

(** * Properties *)

(** ** Strings *)

Lemma lower_ascii_idemp a : lower_ascii (lower_ascii a) = lower_ascii a.
Proof. by destruct a as [[] [] [] [] [] [] [] []]. Qed.

Lemma is_space_lower_ascii a : is_space (lower_ascii a) = is_space a.
Proof. by destruct a as [[] [] [] [] [] [] [] []]. Qed.

Lemma lower_idemp s : lower (lower s) = lower s.
Proof. induction s as [|a s IH]; simpl; [done|]. by rewrite lower_ascii_idemp, IH. Qed.

Lemma lower_empty s : lower s = "" ↔ s = "".
Proof. by destruct s. Qed.

Lemma truthy_lower s : truthy (lower s) = truthy s.
Proof. by destruct s. Qed.

Lemma truthy_true s : truthy s = true ↔ s ≠ "".
Proof. by destruct s. Qed.

Lemma lower_lstrip s : lower (lstrip s) = lstrip (lower s).
Proof.
  induction s as [|a s IH]; simpl; [done|].
  rewrite is_space_lower_ascii. by destruct (is_space a).
Qed.

Lemma lower_rev_onto s acc :
  lower (rev_onto s acc) = rev_onto (lower s) (lower acc).
Proof. revert acc. induction s as [|a s IH]; intros acc; simpl; [done|]. by rewrite IH. Qed.

Lemma lower_reverse s : lower (reverse s) = reverse (lower s).
Proof. apply lower_rev_onto. Qed.

Lemma lower_strip s : lower (strip s) = strip (lower s).
Proof.
  unfold strip. by rewrite lower_reverse, lower_lstrip, lower_reverse, lower_lstrip.
Qed.

(** A normalized term is not changed by a second [lower()]. *)
Lemma lower_normalized s : lower (strip (lower s)) = strip (lower s).
Proof. by rewrite lower_strip, lower_idemp. Qed.

Lemma lower_app s t : lower (s +:+ t) = lower s +:+ lower t.
Proof. induction s as [|a s IH]; simpl; [done|]. by rewrite IH. Qed.

(** ** Dictionaries *)

Section dict_facts.
Context {K V : Type} `{EqDecision K}.
Implicit Types (d : list (K * V)) (k : K) (v : V).

Lemma dict_get_set k k' v d :
  dict_get k' (dict_set k v d) = if decide (k = k') then Some v else dict_get k' d.
Proof.
  induction d as [|[k0 v0] d IH]; simpl.
  - by destruct (decide (k = k')).
  - destruct (decide (k0 = k)) as [->|Hne]; simpl.
    + by destruct (decide (k = k')).
    + rewrite IH. destruct (decide (k0 = k')) as [->|]; [|done].
      by rewrite decide_False.
Qed.

Lemma dict_get_set_eq k v d : dict_get k (dict_set k v d) = Some v.
Proof. by rewrite dict_get_set, decide_True. Qed.

Lemma dict_get_set_ne k k' v d :
  k ≠ k' → dict_get k' (dict_set k v d) = dict_get k' d.
Proof. intros. by rewrite dict_get_set, decide_False. Qed.

Lemma dict_get_alter f k k' d :
  dict_get k' (dict_alter f k d)
  = if decide (k = k') then f <$> dict_get k' d else dict_get k' d.
Proof.
  induction d as [|[k0 v0] d IH]; simpl.
  - by destruct (decide (k = k')).
  - destruct (decide (k0 = k)) as [->|Hne]; simpl.
    + by destruct (decide (k = k')).
    + rewrite IH. destruct (decide (k0 = k')) as [->|]; [|done].
      by rewrite decide_False.
Qed.

Lemma dict_get_Some_elem k v d : dict_get k d = Some v → (k, v) ∈ d.
Proof.
  induction d as [|[k0 v0] d IH]; simpl; [done|].
  destruct (decide (k0 = k)) as [->|]; [intros [= ->]; left|right; auto].
Qed.
End dict_facts.

(** ** The Python run of the build agrees with the typed one *)

Lemma bind_ret {A B} (a : A) (k : A → M B) c : (ret a ≫= k) c = k a c.
Proof. done. Qed.

Lemma bind_modify {B} f (k : unit → M B) c : (modify f ≫= k) c = k tt (f c).
Proof. done. Qed.

Lemma bind_raise {A B} e (k : A → M B) c :
  (raise e ≫= k) c = (Raised e, c).
Proof. done. Qed.

Lemma bind_run {A B} (m : M A) (k : A → M B) c :
  (m ≫= k) c
  = match m c with
    | (Returned a, c') => k a c'
    | (Raised e, c') => (Raised e, c')
    end.
Proof. done. Qed.

Lemma for_each_cons {A} (x : A) xs body :
  for_each (x :: xs) body = (body x ;; for_each xs body).
Proof. done. Qed.

#[local] Opaque M_bind.

Lemma for_each_columns schema_name table_name columns c :
  for_each (PyStr <$> columns) (λ column_name,
    column_name ← as_str column_name;
    modify (register_column schema_name table_name column_name)) c
  = (Returned tt, build_columns schema_name table_name columns c).
Proof.
  revert c. induction columns as [|cn columns IH]; intros c; [done|].
  rewrite fmap_cons, for_each_cons, bind_run. cbn [as_str].
  rewrite bind_ret. cbn [modify]. apply IH.
Qed.

Lemma for_each_tables schema_name tables c :
  for_each ((λ tc, (PyStr tc.1, columns_to_py tc.2)) <$> tables)
    (λ '(table_name, columns),
      table_name ← as_str table_name;
      modify (register_table schema_name table_name) ;;
      columns ← py_iter columns;
      for_each columns (λ column_name,
        column_name ← as_str column_name;
        modify (register_column schema_name table_name column_name))) c
  = (Returned tt, build_tables schema_name tables c).
Proof.
  revert c. induction tables as [|[tn cols] tables IH]; intros c; [done|].
  rewrite fmap_cons, for_each_cons, bind_run. cbn [as_str fst snd columns_to_py].
  rewrite bind_ret, bind_modify. unfold columns_to_py. cbn [py_iter].
  rewrite bind_ret, for_each_columns. apply IH.
Qed.

Lemma for_each_schemas raw c :
  for_each
    ((λ st, (PyStr st.1, PyDict [(PyStr "tables", tables_to_py st.2)])) <$> raw)
    (λ '(schema_name, schema_data),
      schema_name ← as_str schema_name;
      modify (register_schema schema_name) ;;
      schema_data ← as_dict schema_data;
      let tables_data := default (PyDict []) (py_get "tables" schema_data) in
      table_items ← as_dict tables_data;
      for_each table_items (λ '(table_name, columns),
        table_name ← as_str table_name;
        modify (register_table schema_name table_name) ;;
        columns ← py_iter columns;
        for_each columns (λ column_name,
          column_name ← as_str column_name;
          modify (register_column schema_name table_name column_name)))) c
  = (Returned tt, build_schemas raw c).
Proof.
  revert c. induction raw as [|[sn tables] raw IH]; intros c; [done|].
  rewrite fmap_cons, for_each_cons, bind_run. cbn [as_str fst snd].
  rewrite bind_ret, bind_modify. cbn [as_dict].
  rewrite bind_ret.
  change (py_get "tables" [(PyStr "tables", tables_to_py tables)])
    with (Some (tables_to_py tables)).
  unfold tables_to_py. cbn [from_option id as_dict].
  rewrite bind_ret, for_each_tables. apply IH.
Qed.

(** On a well-typed snapshot the Python run returns, with the state the
    typed build computes. *)
Lemma _build_from_pickled_typed data c :
  _build_from_pickled (raw_to_py data) c
  = (Returned tt, _build_from_raw_data data c).
Proof.
  unfold _build_from_pickled, _build_from_raw_data, raw_to_py.
  cbn [as_dict]. rewrite bind_ret, bind_modify.
  change (py_get "exported_at" _)
    with (Some (from_option PyStr PyNone (raw_exported_at data))).
  change (py_get "schemas" _) with (Some (schemas_to_py (raw_schemas data))).
  cbn [from_option id]. rewrite !bind_modify.
  unfold schemas_to_py at 1. cbn [as_dict]. rewrite bind_ret.
  apply for_each_schemas.
Qed.

(** ** The build keeps the index consistent *)

#[local] Set Warnings "-clear-no-such-hyp".

Lemma consistent_reset c : consistent (_reset_structures c).
Proof.
  split; unfold scoped_lockstep, _reset_structures; cache_simpl; try done;
    try (intros x; rewrite ?lookup_empty, ?is_Some_alt; set_solver);
    try apply NoDup_nil_2.
Qed.

Lemma scoped_lockstep_mono {K} (U U' : gset string)
    (f : K → option (gset string)) g :
  U ⊆ U' → scoped_lockstep U f g → scoped_lockstep U' f g.
Proof.
  intros HU H k. specialize (H k).
  destruct (f k), (g k); try done. destruct H as [Hsl Hsm]. split; [done|set_solver].
Qed.

Lemma consistent_register_schema schema_name c :
  consistent c → consistent (register_schema schema_name c).
Proof.
  intros [Hsl Hsm Htl Htm Htn Hcl Hcm Hcn Hdef Hts Hcs].
  split; unfold register_schema; cache_simpl; try done.
  - intros x. rewrite elem_of_app, list_elem_of_singleton, Hsl. set_solver.
  - intros x. rewrite lookup_insert_is_Some, Hsm.
    destruct (decide (lower schema_name = x)); set_solver.
  - intros s. rewrite dict_get_set. case_decide; [subst|].
    + split; [set_solver|eauto].
    + rewrite Hdef. set_solver.
  - intros s. rewrite dict_get_set, lookup_insert. case_decide; [|apply Hts].
    split; [|set_solver]. intros x. set_solver.
Qed.

Lemma consistent_register_table schema_name table_name c :
  consistent c → consistent (register_table schema_name table_name c).
Proof.
  intros [Hsl Hsm Htl Htm Htn Hcl Hcm Hcn Hdef Hts Hcs].
  split; unfold register_table; case_decide as Hin; cache_simpl; try done.
  - intros x. rewrite Htl. apply Htm, Htl in Hin. set_solver.
  - intros x. rewrite elem_of_app, list_elem_of_singleton, Htl. set_solver.
  - intros x. rewrite Htm. apply Htm in Hin. set_solver.
  - intros x. rewrite lookup_insert_is_Some, Htm.
    destruct (decide (lower table_name = x)); set_solver.
  - apply NoDup_app. split_and!; [done| |apply NoDup_singleton].
    intros x Hx ->%list_elem_of_singleton. apply Hin, Htm, Htl, Hx.
  - intros s. rewrite dict_get_alter. case_decide; [subst|done].
    by rewrite fmap_is_Some.
  - intros s. rewrite dict_get_alter. case_decide; [subst|done].
    by rewrite fmap_is_Some.
  - intros s. rewrite dict_get_alter, lookup_alter. case_decide; [subst|].
    + specialize (Hts (lower schema_name)). cbv beta in Hts.
      destruct (dict_get (lower schema_name) (tables_by_schema c)),
        (tables_list_by_schema c !! lower schema_name); simpl; try done.
      destruct Hts as [Ha Hb]. split; [|set_solver].
      intros x. rewrite elem_of_app, list_elem_of_singleton, Ha. set_solver.
    + refine (scoped_lockstep_mono (tables_set c) _ _ _ _ Hts s). set_solver.
  - intros s. rewrite dict_get_alter, lookup_alter. case_decide; [subst|].
    + specialize (Hts (lower schema_name)). cbv beta in Hts.
      destruct (dict_get (lower schema_name) (tables_by_schema c)),
        (tables_list_by_schema c !! lower schema_name); simpl; try done.
      destruct Hts as [Ha Hb]. split; [|set_solver].
      intros x. rewrite elem_of_app, list_elem_of_singleton, Ha. set_solver.
    + refine (scoped_lockstep_mono (tables_set c) _ _ _ _ Hts s). set_solver.
  - intros k. rewrite dict_get_set, lookup_insert. case_decide; [|apply Hcs].
    split; [|set_solver]. intros x. set_solver.
  - intros k. rewrite dict_get_set, lookup_insert. case_decide; [|apply Hcs].
    split; [|set_solver]. intros x. set_solver.
Qed.

Lemma consistent_register_column schema_name table_name column_name c :
  consistent c →
  consistent (register_column schema_name table_name column_name c).
Proof.
  intros [Hsl Hsm Htl Htm Htn Hcl Hcm Hcn Hdef Hts Hcs].
  split; unfold register_column; case_decide as Hin; cache_simpl; try done.
  - intros x. rewrite Hcl. apply Hcm, Hcl in Hin. set_solver.
  - intros x. rewrite elem_of_app, list_elem_of_singleton, Hcl. set_solver.
  - intros x. rewrite Hcm. apply Hcm in Hin. set_solver.
  - intros x. rewrite lookup_insert_is_Some, Hcm.
    destruct (decide (lower column_name = x)); set_solver.
  - apply NoDup_app. split_and!; [done| |apply NoDup_singleton].
    intros x Hx ->%list_elem_of_singleton. apply Hin, Hcm, Hcl, Hx.
  - intros k. rewrite dict_get_alter, lookup_alter. case_decide; [subst|].
    + specialize (Hcs (lower schema_name, lower table_name)). cbv beta in Hcs.
      destruct (dict_get (lower schema_name, lower table_name)
                  (columns_by_table c)),
        (columns_list_by_table c !! (lower schema_name, lower table_name));
        simpl; try done.
      destruct Hcs as [Ha Hb]. split; [|set_solver].
      intros x. rewrite elem_of_app, list_elem_of_singleton, Ha. set_solver.
    + refine (scoped_lockstep_mono (columns_set c) _ _ _ _ Hcs k). set_solver.
  - intros k. rewrite dict_get_alter, lookup_alter. case_decide; [subst|].
    + specialize (Hcs (lower schema_name, lower table_name)). cbv beta in Hcs.
      destruct (dict_get (lower schema_name, lower table_name)
                  (columns_by_table c)),
        (columns_list_by_table c !! (lower schema_name, lower table_name));
        simpl; try done.
      destruct Hcs as [Ha Hb]. split; [|set_solver].
      intros x. rewrite elem_of_app, list_elem_of_singleton, Ha. set_solver.
    + refine (scoped_lockstep_mono (columns_set c) _ _ _ _ Hcs k). set_solver.
Qed.

Lemma consistent_build_columns schema_name table_name columns c :
  consistent c → consistent (build_columns schema_name table_name columns c).
Proof.
  revert c. induction columns as [|cn columns IH]; intros c Hc; [done|].
  apply IH, consistent_register_column, Hc.
Qed.

Lemma consistent_build_tables schema_name tables c :
  consistent c → consistent (build_tables schema_name tables c).
Proof.
  revert c. induction tables as [|[tn cols] tables IH]; intros c Hc; [done|].
  apply IH, consistent_build_columns, consistent_register_table, Hc.
Qed.

Lemma consistent_build_schemas raw c :
  consistent c → consistent (build_schemas raw c).
Proof.
  revert c. induction raw as [|[sn tables] raw IH]; intros c Hc; [done|].
  apply IH, consistent_build_tables, consistent_register_schema, Hc.
Qed.

Lemma consistent_set_schemas v c : consistent c → consistent (set_schemas v c).
Proof. intros []. split; cache_simpl; assumption. Qed.

(** Every built index is consistent, whatever the cache held before. *)
Lemma consistent_build data c : consistent (_build_from_raw_data data c).
Proof.
  unfold _build_from_raw_data.
  apply consistent_build_schemas, consistent_set_schemas, consistent_reset.
Qed.

(** *** Original casings *)

Section casing.
Context (Ps Pt Pc : string → string → Prop).

Lemma casing_register_schema schema_name c :
  Ps (lower schema_name) schema_name →
  casing Ps Pt Pc c → casing Ps Pt Pc (register_schema schema_name c).
Proof.
  intros HP (Hs & Ht & Hc).
  split_and!; unfold register_schema; cache_simpl; [|done..].
  intros k v. rewrite lookup_insert. case_decide; [|auto].
  by intros [= <-]; subst.
Qed.

Lemma casing_register_table schema_name table_name c :
  Pt (lower table_name) table_name →
  casing Ps Pt Pc c → casing Ps Pt Pc (register_table schema_name table_name c).
Proof.
  intros HP (Hs & Ht & Hc).
  split_and!; unfold register_table; case_decide; cache_simpl; try done.
  intros k v. rewrite lookup_insert. case_decide; [|auto].
  by intros [= <-]; subst.
Qed.

Lemma casing_register_column schema_name table_name column_name c :
  Pc (lower column_name) column_name →
  casing Ps Pt Pc c →
  casing Ps Pt Pc (register_column schema_name table_name column_name c).
Proof.
  intros HP (Hs & Ht & Hc).
  split_and!; unfold register_column; case_decide; cache_simpl; try done.
  intros k v. rewrite lookup_insert. case_decide; [|auto].
  by intros [= <-]; subst.
Qed.

Lemma casing_build_columns schema_name table_name columns c :
  Forall (λ n, Pc (lower n) n) columns →
  casing Ps Pt Pc c →
  casing Ps Pt Pc (build_columns schema_name table_name columns c).
Proof.
  intros Hall. revert c.
  induction Hall as [|cn columns Hcn _ IH]; intros c Hc; [done|].
  by apply IH, casing_register_column.
Qed.

Lemma casing_build_tables schema_name (tables : RawTables) c :
  Forall (λ tc, Pt (lower tc.1) tc.1 ∧ Forall (λ n, Pc (lower n) n) tc.2)
         tables →
  casing Ps Pt Pc c → casing Ps Pt Pc (build_tables schema_name tables c).
Proof.
  intros Hall. revert c.
  induction Hall as [|[tn cols] tables [Htn Hcols] _ IH]; intros c Hc; [done|].
  by apply IH, casing_build_columns, casing_register_table.
Qed.

Lemma casing_build_schemas (raw : RawSchemas) c :
  Forall (λ st, Ps (lower st.1) st.1
                ∧ Forall (λ tc, Pt (lower tc.1) tc.1
                                ∧ Forall (λ n, Pc (lower n) n) tc.2) st.2)
         raw →
  casing Ps Pt Pc c → casing Ps Pt Pc (build_schemas raw c).
Proof.
  intros Hall. revert c.
  induction Hall as [|[sn tables] raw [Hsn Htables] _ IH]; intros c Hc; [done|].
  by apply IH, casing_build_tables, casing_register_schema.
Qed.
End casing.

(** *** What the build files, field by field *)

Ltac step_eq :=
  unfold register_schema, register_table, register_column;
  try case_decide; reflexivity.

Section steps.
Implicit Types (c : EnvironmentCache).
Context (sn tn cn : string).

Lemma register_schema_schemas_set c :
  schemas_set (register_schema sn c) = {[lower sn]} ∪ schemas_set c.
Proof. step_eq. Qed.
Lemma register_schema_tables_set c :
  tables_set (register_schema sn c) = tables_set c.
Proof. step_eq. Qed.
Lemma register_schema_columns_set c :
  columns_set (register_schema sn c) = columns_set c.
Proof. step_eq. Qed.
Lemma register_schema_columns_list_by_table c :
  columns_list_by_table (register_schema sn c) = columns_list_by_table c.
Proof. step_eq. Qed.

Lemma register_table_schemas_set c :
  schemas_set (register_table sn tn c) = schemas_set c.
Proof. step_eq. Qed.
Lemma register_table_tables_set c :
  tables_set (register_table sn tn c) = {[lower tn]} ∪ tables_set c.
Proof. step_eq. Qed.
Lemma register_table_columns_set c :
  columns_set (register_table sn tn c) = columns_set c.
Proof. step_eq. Qed.
Lemma register_table_columns_list_by_table c :
  columns_list_by_table (register_table sn tn c)
  = <[(lower sn, lower tn) := []]> (columns_list_by_table c).
Proof. step_eq. Qed.

Lemma register_column_schemas_set c :
  schemas_set (register_column sn tn cn c) = schemas_set c.
Proof. step_eq. Qed.
Lemma register_column_tables_set c :
  tables_set (register_column sn tn cn c) = tables_set c.
Proof. step_eq. Qed.
Lemma register_column_columns_set c :
  columns_set (register_column sn tn cn c) = {[lower cn]} ∪ columns_set c.
Proof. step_eq. Qed.
Lemma register_column_columns_list_by_table c :
  columns_list_by_table (register_column sn tn cn c)
  = alter (λ l, l ++ [lower cn]) (lower sn, lower tn)
          (columns_list_by_table c).
Proof. step_eq. Qed.
End steps.

Lemma build_columns_cons sn tn cn columns c :
  build_columns sn tn (cn :: columns) c
  = build_columns sn tn columns (register_column sn tn cn c).
Proof. done. Qed.

Lemma build_tables_cons sn tn cols (tables : RawTables) c :
  build_tables sn ((tn, cols) :: tables) c
  = build_tables sn tables (build_columns sn tn cols (register_table sn tn c)).
Proof. done. Qed.

Lemma build_schemas_cons sn tables (raw : RawSchemas) c :
  build_schemas ((sn, tables) :: raw) c
  = build_schemas raw (build_tables sn tables (register_schema sn c)).
Proof. done. Qed.

(** The column loop. *)
Lemma build_columns_sets sn tn columns c :
  schemas_set (build_columns sn tn columns c) = schemas_set c
  ∧ tables_set (build_columns sn tn columns c) = tables_set c
  ∧ columns_set (build_columns sn tn columns c)
    = columns_set c ∪ list_to_set (lower <$> columns).
Proof.
  revert c. induction columns as [|cn columns IH]; intros c.
  - split_and!; [done|done|]. simpl. set_solver.
  - rewrite build_columns_cons. destruct (IH (register_column sn tn cn c))
      as (-> & -> & ->).
    rewrite register_column_schemas_set, register_column_tables_set,
      register_column_columns_set.
    split_and!; [done|done|]. rewrite fmap_cons, list_to_set_cons. set_solver.
Qed.

Lemma build_columns_list_by_table sn tn columns c k :
  columns_list_by_table (build_columns sn tn columns c) !! k
  = if decide ((lower sn, lower tn) = k)
    then (λ l, l ++ (lower <$> columns)) <$> columns_list_by_table c !! k
    else columns_list_by_table c !! k.
Proof.
  revert c. induction columns as [|cn columns IH]; intros c.
  - simpl. case_decide; [|done].
    destruct (_ !! k); simpl; [|done]. by rewrite app_nil_r.
  - rewrite build_columns_cons, IH, register_column_columns_list_by_table.
    rewrite lookup_alter. case_decide; [subst k|done].
    destruct (columns_list_by_table c !! _); simpl; [|done].
    by rewrite <-app_assoc.
Qed.

(** One table entry: the table step followed by its column loop. *)
Lemma build_entry_list_by_table sn tn columns c k :
  columns_list_by_table
    (build_columns sn tn columns (register_table sn tn c)) !! k
  = if decide ((lower sn, lower tn) = k) then Some (lower <$> columns)
    else columns_list_by_table c !! k.
Proof.
  rewrite build_columns_list_by_table, register_table_columns_list_by_table.
  case_decide; [subst|].
  - by rewrite lookup_insert_eq.
  - by rewrite lookup_insert_ne.
Qed.

(** The table loop. *)
Lemma build_tables_sets sn (tables : RawTables) c :
  schemas_set (build_tables sn tables c) = schemas_set c
  ∧ tables_set (build_tables sn tables c)
    = tables_set c ∪ list_to_set (lower <$> tables.*1)
  ∧ columns_set (build_tables sn tables c)
    = columns_set c ∪ list_to_set (lower <$> (tables ≫= snd)).
Proof.
  revert c. induction tables as [|[tn cols] tables IH]; intros c.
  - split_and!; [done|..]; simpl; set_solver.
  - rewrite build_tables_cons.
    destruct (IH (build_columns sn tn cols (register_table sn tn c)))
      as (-> & -> & ->).
    destruct (build_columns_sets sn tn cols (register_table sn tn c))
      as (-> & -> & ->).
    rewrite register_table_schemas_set, register_table_tables_set,
      register_table_columns_set.
    split_and!; [done|..].
    + rewrite !fmap_cons, list_to_set_cons. simpl. set_solver.
    + rewrite bind_cons, fmap_app, list_to_set_app_L. simpl. set_solver.
Qed.

Lemma build_tables_list_by_table sn (tables : RawTables) c k :
  columns_list_by_table (build_tables sn tables c) !! k
  = foldl (λ found tc, if decide ((lower sn, lower tc.1) = k)
                       then Some (lower <$> tc.2) else found)
          (columns_list_by_table c !! k) tables.
Proof.
  revert c. induction tables as [|[tn cols] tables IH]; intros c; [done|].
  by rewrite build_tables_cons, IH, build_entry_list_by_table.
Qed.

(** The schema loop. *)
Lemma table_entries_cons sn (tables : RawTables) (raw : RawSchemas) :
  table_entries ((sn, tables) :: raw)
  = ((λ tc, (sn, tc.1, tc.2)) <$> tables) ++ table_entries raw.
Proof. done. Qed.

Lemma table_names_cons sn (tables : RawTables) (raw : RawSchemas) :
  table_names ((sn, tables) :: raw) = tables.*1 ++ table_names raw.
Proof.
  unfold table_names. rewrite table_entries_cons, fmap_app. f_equal.
  by rewrite <-list_fmap_compose.
Qed.

Lemma column_names_cons sn (tables : RawTables) (raw : RawSchemas) :
  column_names ((sn, tables) :: raw) = (tables ≫= snd) ++ column_names raw.
Proof.
  unfold column_names. rewrite table_entries_cons, bind_app. f_equal.
  induction tables as [|[tn cols] tables IH]; [done|].
  by rewrite fmap_cons, !bind_cons, IH.
Qed.

Lemma build_schemas_sets (raw : RawSchemas) c :
  schemas_set (build_schemas raw c)
  = schemas_set c ∪ list_to_set (lower <$> schema_names raw)
  ∧ tables_set (build_schemas raw c)
    = tables_set c ∪ list_to_set (lower <$> table_names raw)
  ∧ columns_set (build_schemas raw c)
    = columns_set c ∪ list_to_set (lower <$> column_names raw).
Proof.
  revert c. induction raw as [|[sn tables] raw IH]; intros c.
  - split_and!; simpl; by rewrite (right_id_L ∅ (∪)).
  - rewrite build_schemas_cons.
    destruct (IH (build_tables sn tables (register_schema sn c)))
      as (-> & -> & ->).
    destruct (build_tables_sets sn tables (register_schema sn c))
      as (-> & -> & ->).
    rewrite register_schema_schemas_set, register_schema_tables_set,
      register_schema_columns_set.
    rewrite table_names_cons, column_names_cons.
    unfold schema_names. rewrite !fmap_cons, !fmap_app, list_to_set_cons,
      !list_to_set_app_L. simpl.
    generalize (list_to_set (C:=gset string) (lower <$> raw.*1)).
    generalize (list_to_set (C:=gset string) (lower <$> tables.*1)).
    generalize (list_to_set (C:=gset string) (lower <$> table_names raw)).
    generalize (list_to_set (C:=gset string) (lower <$> (tables ≫= snd))).
    generalize (list_to_set (C:=gset string) (lower <$> column_names raw)).
    intros. split_and!; set_solver.
Qed.

Lemma build_schemas_list_by_table (raw : RawSchemas) c k :
  columns_list_by_table (build_schemas raw c) !! k
  = foldl (λ found e, if decide (entry_key e = k)
                      then Some (lower <$> e.2) else found)
          (columns_list_by_table c !! k) (table_entries raw).
Proof.
  revert c. induction raw as [|[sn tables] raw IH]; intros c; [done|].
  rewrite build_schemas_cons, IH, build_tables_list_by_table,
    register_schema_columns_list_by_table.
  rewrite table_entries_cons, foldl_app. f_equal.
  by rewrite foldl_fmap.
Qed.

(** ** Ranking ([process.extract] and [find_matches]) *)


Section sorted_facts.
Context {A : Type} (R : relation A).

Lemma StronglySorted_filter (P : A → Prop) `{!∀ x, Decision (P x)} l :
  StronglySorted R l → StronglySorted R (filter P l).
Proof.
  induction 1 as [|x l Hl IH Hx]; [constructor|].
  rewrite filter_cons. case_decide; [|done].
  constructor; [done|]. rewrite Forall_forall in Hx |- *.
  intros y [_ Hy]%list_elem_of_filter. by apply Hx.
Qed.

Lemma StronglySorted_take n l :
  StronglySorted R l → StronglySorted R (take n l).
Proof.
  intros Hl. revert n. induction Hl as [|x l Hl IH Hx]; intros [|n]; simpl;
    try constructor; [apply IH|by apply Forall_take].
Qed.

Lemma StronglySorted_fmap_mono {B} (R' : relation B) (f : A → B) l :
  (∀ a b, R a b → R' (f a) (f b)) →
  StronglySorted R l → StronglySorted R' (f <$> l).
Proof.
  intros Hf. induction 1 as [|x l Hl IH Hx]; simpl; constructor; [done|].
  apply Forall_fmap. eapply Forall_impl; [done|]. intros y. apply Hf.
Qed.
End sorted_facts.

Section ranking.
Context (WRatio : string → string → Q).
Implicit Types (r : string * Q * nat) (l : list (string * Q * nat)).

Lemma score_all_indices query choices :
  StronglySorted (λ r1 r2, result_index r1 < result_index r2)
                 (score_all WRatio query choices).
Proof.
  unfold score_all.
  cut (∀ n, StronglySorted (λ r1 r2, result_index r1 < result_index r2)
              (imap (λ i choice, (choice, WRatio query choice, n + i)) choices)
            ∧ Forall (λ r, n ≤ result_index r)
                (imap (λ i choice, (choice, WRatio query choice, n + i))
                      choices)).
  { intros H. apply (H 0). }
  induction choices as [|c choices IH]; intros n; simpl.
  - split; constructor.
  - destruct (IH (S n)) as [IH1 IH2].
    assert (imap ((λ i choice, (choice, WRatio query choice, n + i)) ∘ S)
              choices
            = imap (λ i choice, (choice, WRatio query choice, S n + i)) choices)
      as ->.
    { apply imap_ext. intros i x _. simpl. do 2 f_equal. lia. }
    split.
    + constructor; [done|]. eapply Forall_impl; [done|].
      intros r. unfold result_index. simpl. lia.
    + constructor; [unfold result_index; simpl; lia|].
      eapply Forall_impl; [done|]. intros r. simpl. lia.
Qed.

Lemma score_all_elem query choices r :
  r ∈ score_all WRatio query choices →
  choices !! r.2 = Some r.1.1 ∧ r.1.2 = WRatio query r.1.1.
Proof.
  unfold score_all. intros (i & c & -> & Hc)%elem_of_lookup_imap. done.
Qed.

Lemma insert_desc_Permutation r l : insert_desc r l ≡ₚ r :: l.
Proof.
  induction l as [|r' l IH]; simpl; [done|].
  destruct (Qle_bool _ _); [done|]. by rewrite IH, Permutation_swap.
Qed.

Lemma sort_desc_Permutation l : sort_desc l ≡ₚ l.
Proof.
  induction l as [|r l IH]; simpl; [done|].
  by rewrite insert_desc_Permutation, IH.
Qed.

Lemma ranks_before_score r1 r2 :
  ranks_before r1 r2 → Qle (result_score r2) (result_score r1).
Proof.
  intros [H|[H _]]; [by apply Qlt_le_weak|]. rewrite H. apply Qle_refl.
Qed.

Lemma insert_desc_sorted r l :
  Forall (λ r', result_index r < result_index r') l →
  StronglySorted ranks_before l →
  StronglySorted ranks_before (insert_desc r l).
Proof.
  intros Hidx Hl. induction Hl as [|r' l Hl IH Hr']; simpl.
  - repeat constructor.
  - apply Forall_cons in Hidx as [Hi Hidx].
    destruct (Qle_bool (result_score r') (result_score r)) eqn:Hle.
    + apply Qle_bool_iff in Hle.
      assert (∀ y, Qle (result_score y) (result_score r) →
                   result_index r < result_index y → ranks_before r y) as Hrank.
      { intros y Hy Hiy. destruct (Qlt_le_dec (result_score y) (result_score r))
          as [?|Hge]; [by left|right]. split; [|done]. by apply Qle_antisym. }
      constructor; [by constructor|]. constructor; [by apply Hrank|].
      rewrite Forall_forall in Hr', Hidx |- *. intros y Hy.
      apply Hrank; [|by apply Hidx].
      eapply Qle_trans; [|done]. by apply ranks_before_score, Hr'.
    + constructor; [by apply IH|].
      rewrite insert_desc_Permutation. constructor; [|done].
      left. apply Qnot_le_lt. intros H%Qle_bool_iff. congruence.
Qed.

Lemma sort_desc_sorted l :
  StronglySorted (λ r1 r2, result_index r1 < result_index r2) l →
  StronglySorted ranks_before (sort_desc l).
Proof.
  induction 1 as [|r l Hl IH Hr]; simpl; [constructor|].
  apply insert_desc_sorted; [|done]. by rewrite sort_desc_Permutation.
Qed.

(** [process.extract]: ranked, from the choices, at the cutoff or
    above, at most [limit]. *)
Lemma extract_sorted query choices limit score_cutoff :
  StronglySorted ranks_before (extract WRatio query choices limit score_cutoff).
Proof.
  unfold extract. apply StronglySorted_take, sort_desc_sorted.
  apply StronglySorted_filter, score_all_indices.
Qed.

Lemma extract_elem query choices limit score_cutoff r :
  r ∈ extract WRatio query choices limit score_cutoff →
  choices !! r.2 = Some r.1.1
  ∧ r.1.2 = WRatio query r.1.1
  ∧ Qle (inject_Z score_cutoff) r.1.2.
Proof.
  unfold extract. intros Hr%subseteq_take.
  rewrite sort_desc_Permutation in Hr.
  apply list_elem_of_filter in Hr as [Hcut Hr].
  apply score_all_elem in Hr as [? ?]. split_and!; [done..|].
  by apply Qle_bool_iff.
Qed.

Lemma extract_length query choices limit score_cutoff :
  length (extract WRatio query choices limit score_cutoff) ≤ limit.
Proof. unfold extract. rewrite length_take. lia. Qed.

(** Nothing is returned only if nothing reaches the cutoff. *)
Lemma extract_nil query choices limit score_cutoff :
  0 < limit →
  extract WRatio query choices limit score_cutoff = [] ↔
  ∀ choice, choice ∈ choices →
    Qlt (WRatio query choice) (inject_Z score_cutoff).
Proof.
  intros Hlimit. unfold extract. split.
  - intros Hnil choice [i Hi]%list_elem_of_lookup.
    apply Qnot_le_lt. intros Hle.
    assert ((choice, WRatio query choice, i)
              ∈ sort_desc (filter (λ r, above_cutoff score_cutoff r = true)
                             (score_all WRatio query choices))) as Hin.
    { rewrite sort_desc_Permutation. apply list_elem_of_filter. split.
      - by apply Qle_bool_iff.
      - unfold score_all.
        by apply (elem_of_lookup_imap_2
                    (λ i choice, (choice, WRatio query choice, i))). }
    destruct (sort_desc _) as [|r l]; [by apply elem_of_nil in Hin|].
    destruct limit; [lia|done].
  - intros Hall.
    assert (filter (λ r, above_cutoff score_cutoff r = true)
              (score_all WRatio query choices) = []) as ->; [|by destruct limit].
    destruct (filter _ _) as [|r l] eqn:Hf; [done|]. exfalso.
    assert (r ∈ filter (λ r, above_cutoff score_cutoff r = true)
              (score_all WRatio query choices)) as Hr by (rewrite Hf; left).
    apply list_elem_of_filter in Hr as [Hcut Hr].
    apply Qle_bool_iff in Hcut. apply score_all_elem in Hr as [Hc Hs].
    apply list_elem_of_lookup_2 in Hc. apply Hall in Hc.
    unfold result_score in Hcut. rewrite Hs in Hcut.
    by apply Qlt_not_le in Hc.
Qed.

(** [int(score)] keeps the order and the cutoff. *)
Lemma py_int_mono (x y : Q) : Qle x y → (py_int x ≤ py_int y)%Z.
Proof.
  destruct x as [a b], y as [c d]. unfold Qle, py_int. simpl. intros H.
  rewrite <-(Z.quot_mul_cancel_r a (Z.pos b) (Z.pos d)) by done.
  rewrite <-(Z.quot_mul_cancel_r c (Z.pos d) (Z.pos b)) by done.
  rewrite (Z.mul_comm (Z.pos d) (Z.pos b)). apply Z.quot_le_mono; lia.
Qed.

Lemma py_int_inject_Z (n : Z) : py_int (inject_Z n) = n.
Proof. unfold py_int. simpl. apply Z.quot_1_r. Qed.
End ranking.

(** ** Facts about built indexes used by the validation claims *)

(** A property of the names of each level holds of every name the
    loops meet. *)
Lemma names_nested (Ps Pt Pc : string → Prop) (raw : RawSchemas) :
  Forall Ps (schema_names raw) →
  Forall Pt (table_names raw) →
  Forall Pc (column_names raw) →
  Forall (λ st, Ps st.1 ∧ Forall (λ tc, Pt tc.1 ∧ Forall Pc tc.2) st.2) raw.
Proof.
  induction raw as [|[sn tables] raw IH]; [constructor|].
  rewrite table_names_cons, column_names_cons. unfold schema_names.
  rewrite fmap_cons, Forall_cons, !Forall_app.
  intros [Hs Hss] [Ht Hts] [Hc Hcs]. constructor; [|by apply IH].
  split; [done|]. clear -Ht Hc.
  induction tables as [|[tn cols] tables IH]; [constructor|].
  rewrite fmap_cons, Forall_cons in Ht. rewrite bind_cons, Forall_app in Hc.
  destruct Ht, Hc. constructor; [done|by apply IH].
Qed.

(** The casing maps of a built index hold names of the snapshot, each
    under its lowercase form. *)
Lemma casing_build (Ps Pt Pc : string → Prop) data c :
  Forall Ps (schema_names (raw_schemas data)) →
  Forall Pt (table_names (raw_schemas data)) →
  Forall Pc (column_names (raw_schemas data)) →
  casing (λ k v, lower v = k ∧ Ps v) (λ k v, lower v = k ∧ Pt v)
         (λ k v, lower v = k ∧ Pc v) (_build_from_raw_data data c).
Proof.
  intros Hs Ht Hc. unfold _build_from_raw_data.
  apply casing_build_schemas.
  - pose proof (names_nested Ps Pt Pc _ Hs Ht Hc) as H.
    eapply Forall_impl; [exact H|]. intros st [? Hst]. split; [done|].
    eapply Forall_impl; [exact Hst|]. intros tc [? Htc]. split; [done|].
    eapply Forall_impl; [exact Htc|]. done.
  - unfold casing, _reset_structures. cache_simpl.
    split_and!; intros k v; by rewrite lookup_empty.
Qed.

Lemma casing_build_lower data c :
  casing (λ k v, lower v = k) (λ k v, lower v = k) (λ k v, lower v = k)
         (_build_from_raw_data data c).
Proof.
  destruct (casing_build (λ _, True) (λ _, True) (λ _, True) data c)
    as (Hs & Ht & Hc); try (apply Forall_forall; done).
  split_and!; intros k v H; [apply Hs in H|apply Ht in H|apply Hc in H];
    by destruct H.
Qed.

Lemma set_mem_true x (s : gset string) : set_mem x s = true ↔ x ∈ s.
Proof. unfold set_mem. by rewrite bool_decide_eq_true. Qed.

(** What the exact stage finds is known to the casing map of the scope. *)
Lemma exists_in_scope_original c scope name context :
  consistent c →
  exists_in_scope c scope name context = true →
  is_Some (get_original_for_scope c scope (lower name)).
Proof.
  intros Hc. destruct scope; simpl.
  - unfold schema_exists, get_original_schema.
    rewrite set_mem_true. apply (schemas_map_set c Hc).
  - unfold table_exists, get_original_table.
    destruct (context ≫= ctx_schema_name) as [s|];
      [destruct (truthy s)|]; rewrite set_mem_true;
      [|apply (tables_map_set c Hc)..].
    pose proof (tables_by_schema_lockstep c Hc (lower s)) as H. cbv beta in H.
    destruct (dict_get (lower s) (tables_by_schema c)) as [names|];
      simpl; [|set_solver].
    destruct (tables_list_by_schema c !! lower s); [|done].
    destruct H as [_ H]. intros Hin. apply (tables_map_set c Hc). set_solver.
  - unfold column_exists, get_original_column.
    destruct (truthy_opt _ && truthy_opt _); rewrite set_mem_true;
      [|apply (columns_map_set c Hc)].
    match goal with |- context [dict_get ?k _] =>
      pose proof (columns_by_table_lockstep c Hc k) as H; cbv beta in H;
      destruct (dict_get k (columns_by_table c)) as [names|];
        simpl; [|set_solver];
      destruct (columns_list_by_table c !! k); [|done] end.
    destruct H as [_ H]. intros Hin. apply (columns_map_set c Hc). set_solver.
Qed.

(** Every candidate of the fuzzy stage is known to the casing map of
    the scope. *)
Lemma candidates_original c scope schema table x :
  consistent c →
  x ∈ get_candidates_for_scope c scope schema table →
  is_Some (get_original_for_scope c scope x).
Proof.
  intros Hc. destruct scope; simpl.
  - rewrite (schemas_list_set c Hc). apply (schemas_map_set c Hc).
  - unfold get_original_table. destruct (truthy_opt schema).
    + pose proof (tables_by_schema_lockstep c Hc (lower (default "" schema)))
        as H. cbv beta in H.
      destruct (tables_list_by_schema c !! _) as [listed|]; simpl;
        [|by intros ?%elem_of_nil].
      destruct (dict_get _ _); [|done]. destruct H as [H1 H2].
      intros Hin%H1. apply (tables_map_set c Hc). set_solver.
    + rewrite (tables_list_set c Hc). apply (tables_map_set c Hc).
  - unfold get_original_column. destruct (truthy_opt schema && truthy_opt table).
    + match goal with |- context [columns_list_by_table c !! ?k] =>
        pose proof (columns_by_table_lockstep c Hc k) as H; cbv beta in H;
        destruct (columns_list_by_table c !! k) as [listed|]; simpl;
          [|by intros ?%elem_of_nil] end.
      destruct (dict_get _ _); [|done]. destruct H as [H1 H2].
      intros Hin%H1. apply (columns_map_set c Hc). set_solver.
    + rewrite (columns_list_set c Hc). apply (columns_map_set c Hc).
Qed.

Lemma casing_for_scope (P : string → string → Prop) c scope k v :
  casing P P P c → get_original_for_scope c scope k = Some v → P k v.
Proof. intros (Hs & Ht & Hc). destruct scope; simpl; auto. Qed.

Lemma forallb_truthy l :
  forallb truthy l = true → Forall (λ n, n ≠ "") l.
Proof.
  induction l as [|n l IH]; simpl; [constructor|].
  intros [Hn Hl]%andb_true_iff. constructor; [by apply truthy_true|auto].
Qed.

(** In an index built from a snapshot without empty names, every
    original casing is a non-empty string. *)
Lemma originals_truthy data c scope k v :
  nonempty_names (raw_schemas data) = true →
  get_original_for_scope (_build_from_raw_data data c) scope k = Some v →
  truthy v = true.
Proof.
  intros Hne%forallb_truthy Hv. apply Forall_app in Hne as [Hs Hne].
  apply Forall_app in Hne as [Ht Hc].
  pose proof (casing_build _ _ _ data c Hs Ht Hc) as (Ps & Pt & Pc).
  apply truthy_true.
  destruct scope; simpl in Hv; [apply Ps in Hv|apply Pt in Hv|apply Pc in Hv];
    by destruct Hv.
Qed.

Section fuzzy_stage.
Context (WRatio : string → string → Q).

(** The fuzzy stage finds nothing exactly when no candidate reaches
    the threshold; otherwise it returns at least one suggestion. *)
Lemma find_fuzzy_suggestions_cases self scope search_term schema table :
  consistent (cache self) →
  (∀ k v, get_original_for_scope (cache self) scope k = Some v →
          truthy v = true) →
  0 < fm_max_results (fuzzy_matcher self) →
  let candidates := get_candidates_for_scope (cache self) scope schema table in
  let none_reaches :=
    ∀ candidate, candidate ∈ candidates →
      Qlt (WRatio (strip (lower search_term)) candidate)
          (inject_Z (fm_threshold (fuzzy_matcher self))) in
  (_find_fuzzy_suggestions WRatio self scope search_term schema table = None
   ∧ none_reaches)
  ∨ (∃ s ss,
       _find_fuzzy_suggestions WRatio self scope search_term schema table
       = Some (s :: ss)
       ∧ candidates ≠ [] ∧ ¬ none_reaches).
Proof.
  intros Hc Htruthy Hlimit candidates none_reaches.
  unfold _find_fuzzy_suggestions. fold candidates.
  destruct candidates as [|cand cands] eqn:Hcands.
  { left. split; [done|]. by intros ? ?%elem_of_nil. }
  unfold find_matches. cbn [default from_option id].
  pose proof (extract_nil WRatio (strip (lower search_term)) (cand :: cands)
                (fm_max_results (fuzzy_matcher self))
                (fm_threshold (fuzzy_matcher self)) Hlimit) as Hnil.
  destruct (extract WRatio _ _ _ _) as [|r rs] eqn:Hext.
  { left. split; [done|]. unfold none_reaches. by apply Hnil. }
  right.
  assert (r ∈ extract WRatio (strip (lower search_term)) (cand :: cands)
                (fm_max_results (fuzzy_matcher self))
                (fm_threshold (fuzzy_matcher self))) as Hr
    by (rewrite Hext; left).
  apply extract_elem in Hr as (Hr & _ & _).
  apply list_elem_of_lookup_2 in Hr. rewrite <-Hcands in Hr.
  destruct (candidates_original _ _ _ _ _ Hc Hr) as [original Ho].
  rewrite fmap_cons. cbn [omap list_omap].
  assert (to_suggestion self scope (mkFuzzyMatch r.1.1 (py_int r.1.2))
          = Some (mkSuggestion original (py_int r.1.2))) as ->.
  { unfold to_suggestion. cbn [match_name match_score].
    by rewrite Ho, (Htruthy _ _ Ho). }
  eexists _, _. split; [done|].
  split; [done|]. unfold none_reaches. intros Hall.
  apply Hnil in Hall. discriminate.
Qed.
End fuzzy_stage.

(** *** The sets and the per-table lists of a built index *)

Lemma build_sets data c :
  schemas_set (_build_from_raw_data data c)
  = list_to_set (lower <$> schema_names (raw_schemas data))
  ∧ tables_set (_build_from_raw_data data c)
    = list_to_set (lower <$> table_names (raw_schemas data))
  ∧ columns_set (_build_from_raw_data data c)
    = list_to_set (lower <$> column_names (raw_schemas data)).
Proof.
  unfold _build_from_raw_data.
  destruct (build_schemas_sets (raw_schemas data)
    (set_schemas (schemas_to_py (raw_schemas data))
       (_reset_structures
          (set_exported_at (from_option PyStr PyNone (raw_exported_at data)) c))))
    as (-> & -> & ->).
  unfold _reset_structures. cache_simpl.
  by rewrite !(left_id_L ∅ (∪)).
Qed.

Lemma build_list_by_table data c key :
  columns_list_by_table (_build_from_raw_data data c) !! key
  = (λ cols : list string, lower <$> cols)
      <$> last_columns key (table_entries (raw_schemas data)).
Proof.
  unfold _build_from_raw_data. rewrite build_schemas_list_by_table.
  unfold _reset_structures. cache_simpl. rewrite lookup_empty.
  unfold last_columns.
  change (@None (list string))
    with ((λ cols : list string, lower <$> cols) <$> @None (list string)) at 1.
  generalize (@None (list string)).
  induction (table_entries (raw_schemas data)) as [|e l IH]; intros found;
    simpl; [done|].
  rewrite <-IH. by case_decide.
Qed.

(** The per-table set holds the names of the per-table list. *)
Lemma build_set_by_table data c key :
  dict_get key (columns_by_table (_build_from_raw_data data c))
  = (λ cols, list_to_set (lower <$> cols))
      <$> last_columns key (table_entries (raw_schemas data)).
Proof.
  pose proof (columns_by_table_lockstep _ (consistent_build data c) key) as H.
  cbv beta in H. rewrite build_list_by_table in H.
  destruct (dict_get key _) as [names|],
    (last_columns key _) as [cols|]; simpl in *; try done.
  destruct H as [H _]. f_equal. apply set_eq. intros x.
  by rewrite <-H, elem_of_list_to_set.
Qed.

(** An entry that no later entry shadows is the last one of its key. *)
Lemma last_columns_app before e after :
  Forall (λ e', entry_key e' ≠ entry_key e) after →
  last_columns (entry_key e) (before ++ e :: after) = Some e.2.
Proof.
  intros Hafter. unfold last_columns. rewrite foldl_app. simpl.
  rewrite decide_True by done. generalize (Some e.2) at 1 2 as found.
  induction Hafter as [|e' after He' _ IH]; intros found; simpl; [done|].
  by rewrite decide_False.
Qed.

(** Every schema of the snapshot has its scoped table structures, and
    every table entry its scoped column structures. *)
Lemma last_columns_is_Some key entries :
  key ∈ entry_key <$> entries → is_Some (last_columns key entries).
Proof.
  unfold last_columns. generalize (@None (list string)).
  induction entries as [|e entries IH]; intros found; simpl.
  - by intros ?%elem_of_nil.
  - intros [->|Hin]%elem_of_cons; [|by apply IH].
    rewrite decide_True by done. clear IH.
    generalize e.2 at 1 as cols. revert e.
    induction entries as [|e' entries IH]; intros e cols; simpl; [by eexists|].
    case_decide as He; [|apply IH]. rewrite <-He. apply IH.
Qed.

Lemma build_scopes_defined data c :
  (∀ sn, sn ∈ schema_names (raw_schemas data) →
     is_Some (dict_get (lower sn) (tables_by_schema (_build_from_raw_data data c)))
     ∧ is_Some (tables_list_by_schema (_build_from_raw_data data c) !! lower sn))
  ∧ (∀ e, e ∈ table_entries (raw_schemas data) →
       is_Some (dict_get (entry_key e)
                  (columns_by_table (_build_from_raw_data data c)))
       ∧ is_Some (columns_list_by_table (_build_from_raw_data data c)
                    !! entry_key e)).
Proof.
  pose proof (consistent_build data c) as Hc. split.
  - intros sn Hsn.
    assert (is_Some (dict_get (lower sn)
              (tables_by_schema (_build_from_raw_data data c)))) as Hdef.
    { apply (tables_by_schema_defined _ Hc).
      destruct (build_sets data c) as (-> & _).
      apply elem_of_list_to_set, list_elem_of_fmap. eauto. }
    split; [done|].
    pose proof (tables_by_schema_lockstep _ Hc (lower sn)) as H. cbv beta in H.
    destruct Hdef as [names Hnames]. rewrite Hnames in H.
    by destruct (tables_list_by_schema _ !! lower sn).
  - intros e He.
    rewrite build_set_by_table, build_list_by_table, !fmap_is_Some.
    split; apply last_columns_is_Some, list_elem_of_fmap; eauto.
Qed.

Section status_frame.
Context (loaded_at : option Z) (is_loaded : bool).
#[local] Abbreviation g := (with_status loaded_at is_loaded).
#[local] Abbreviation ignores_status :=
  (ignores_status loaded_at is_loaded).

Lemma ignores_ret {A} (a : A) : ignores_status (ret a).
Proof. done. Qed.

Lemma ignores_raise {A} e : ignores_status (@raise A e).
Proof. done. Qed.

Lemma ignores_modify f :
  (∀ c, f (g c) = g (f c)) → ignores_status (modify f).
Proof. intros Hf c. unfold modify. simpl. by rewrite Hf. Qed.

Lemma ignores_bind {A B} (m : M A) (k : A → M B) :
  ignores_status m → (∀ a, ignores_status (k a)) → ignores_status (m ≫= k).
Proof.
  intros Hm Hk c. rewrite !bind_run, Hm.
  destruct (m c) as [[a|e] c']; simpl; [apply Hk|done].
Qed.

Lemma ignores_for_each {A} (xs : list A) body :
  (∀ x, ignores_status (body x)) → ignores_status (for_each xs body).
Proof.
  intros Hbody. induction xs as [|x xs IH]; [apply ignores_ret|].
  rewrite for_each_cons. apply ignores_bind; [apply Hbody|done].
Qed.

Lemma ignores_as_dict v : ignores_status (as_dict v).
Proof. by destruct v. Qed.

Lemma ignores_as_str v : ignores_status (as_str v).
Proof. by destruct v. Qed.

Lemma ignores_py_iter v : ignores_status (py_iter v).
Proof. by destruct v. Qed.

Lemma register_schema_status sn c :
  register_schema sn (g c) = g (register_schema sn c).
Proof. reflexivity. Qed.

Lemma register_table_status sn tn c :
  register_table sn tn (g c) = g (register_table sn tn c).
Proof.
  unfold register_table, with_status. cache_simpl.
  destruct (decide (is_Some (tables_map c !! lower tn))); reflexivity.
Qed.

Lemma register_column_status sn tn cn c :
  register_column sn tn cn (g c) = g (register_column sn tn cn c).
Proof.
  unfold register_column, with_status. cache_simpl.
  destruct (decide (is_Some (columns_map c !! lower cn))); reflexivity.
Qed.

(** The three loops of the build. *)
Lemma ignores_schema_loop schema_items :
  ignores_status
    (for_each schema_items (λ '(schema_name, schema_data),
      schema_name ← as_str schema_name;
      modify (register_schema schema_name) ;;
      schema_data ← as_dict schema_data;
      let tables_data := default (PyDict []) (py_get "tables" schema_data) in
      table_items ← as_dict tables_data;
      for_each table_items (λ '(table_name, columns),
        table_name ← as_str table_name;
        modify (register_table schema_name table_name) ;;
        columns ← py_iter columns;
        for_each columns (λ column_name,
          column_name ← as_str column_name;
          modify (register_column schema_name table_name column_name))))).
Proof.
  apply ignores_for_each. intros [schema_name schema_data].
  apply ignores_bind; [apply ignores_as_str|]. intros sn.
  apply ignores_bind;
    [apply ignores_modify, register_schema_status|]. intros _.
  apply ignores_bind; [apply ignores_as_dict|]. intros sd.
  apply ignores_bind; [apply ignores_as_dict|]. intros table_items.
  apply ignores_for_each. intros [table_name columns].
  apply ignores_bind; [apply ignores_as_str|]. intros tn.
  apply ignores_bind;
    [apply ignores_modify, register_table_status|]. intros _.
  apply ignores_bind; [apply ignores_py_iter|]. intros cols.
  apply ignores_for_each. intros column_name.
  apply ignores_bind; [apply ignores_as_str|]. intros cn.
  apply ignores_modify, register_column_status.
Qed.
End status_frame.

(** The state a build starts its loops from, on a fresh cache named
    [environment]. *)
Lemma build_prefix_normal exported raw_schemas c :
  set_schemas raw_schemas (_reset_structures (set_exported_at exported c))
  = with_status (loaded_at c) (is_loaded c)
      (set_schemas raw_schemas
         (_reset_structures
            (set_exported_at exported
               (set_environment (environment c) empty_cache)))).
Proof. reflexivity. Qed.

(** On a dictionary the build is the build on a fresh cache of the
    same environment name, with the previous load status put back. *)
Lemma _build_from_pickled_fresh items c :
  _build_from_pickled (PyDict items) c
  = ((_build_from_pickled (PyDict items)
        (set_environment (environment c) empty_cache)).1,
     with_status (loaded_at c) (is_loaded c)
       (_build_from_pickled (PyDict items)
          (set_environment (environment c) empty_cache)).2).
Proof.
  unfold _build_from_pickled. cbn [as_dict].
  rewrite !bind_ret, !bind_modify.
  rewrite (build_prefix_normal _ _ c).
  apply (ignores_bind (loaded_at c) (is_loaded c));
    [apply ignores_as_dict|apply ignores_schema_loop].
Qed.

(** Whatever was unpickled, the build leaves the load status alone. *)
Lemma _build_from_pickled_status data c :
  loaded_at (_build_from_pickled data c).2 = loaded_at c
  ∧ is_loaded (_build_from_pickled data c).2 = is_loaded c.
Proof.
  destruct data; try done. by rewrite _build_from_pickled_fresh.
Qed.


(** ** Loading: the fields a run of the build leaves alone *)

Section keeps_frame.
Context {B : Type} (field : EnvironmentCache → B).
Hypothesis register_schema_field :
  ∀ sn c, field (register_schema sn c) = field c.
Hypothesis register_table_field :
  ∀ sn tn c, field (register_table sn tn c) = field c.
Hypothesis register_column_field :
  ∀ sn tn cn c, field (register_column sn tn cn c) = field c.

Lemma keeps_ret {A} (a : A) : keeps field (ret a).
Proof. done. Qed.

Lemma keeps_raise {A} e : keeps field (@raise A e).
Proof. done. Qed.

Lemma keeps_modify f : (∀ c, field (f c) = field c) → keeps field (modify f).
Proof. intros Hf c. apply Hf. Qed.

Lemma keeps_bind {A C} (m : M A) (k : A → M C) :
  keeps field m → (∀ a, keeps field (k a)) → keeps field (m ≫= k).
Proof.
  intros Hm Hk c. rewrite bind_run. specialize (Hm c).
  destruct (m c) as [[a|e] c']; cbn [snd] in *; [by rewrite Hk|done].
Qed.

Lemma keeps_for_each {A} (xs : list A) body :
  (∀ x, keeps field (body x)) → keeps field (for_each xs body).
Proof.
  intros Hbody. induction xs as [|x xs IH]; [apply keeps_ret|].
  rewrite for_each_cons. apply keeps_bind; [apply Hbody|done].
Qed.

Lemma keeps_as_dict v : keeps field (as_dict v).
Proof. by destruct v. Qed.

Lemma keeps_as_str v : keeps field (as_str v).
Proof. by destruct v. Qed.

Lemma keeps_py_iter v : keeps field (py_iter v).
Proof. by destruct v. Qed.

Lemma keeps_schema_loop schema_items :
  keeps field
    (for_each schema_items (λ '(schema_name, schema_data),
      schema_name ← as_str schema_name;
      modify (register_schema schema_name) ;;
      schema_data ← as_dict schema_data;
      let tables_data := default (PyDict []) (py_get "tables" schema_data) in
      table_items ← as_dict tables_data;
      for_each table_items (λ '(table_name, columns),
        table_name ← as_str table_name;
        modify (register_table schema_name table_name) ;;
        columns ← py_iter columns;
        for_each columns (λ column_name,
          column_name ← as_str column_name;
          modify (register_column schema_name table_name column_name))))).
Proof.
  apply keeps_for_each. intros [schema_name schema_data].
  apply keeps_bind; [apply keeps_as_str|]. intros sn.
  apply keeps_bind; [apply keeps_modify, register_schema_field|]. intros _.
  apply keeps_bind; [apply keeps_as_dict|]. intros sd.
  apply keeps_bind; [apply keeps_as_dict|]. intros table_items.
  apply keeps_for_each. intros [table_name columns].
  apply keeps_bind; [apply keeps_as_str|]. intros tn.
  apply keeps_bind; [apply keeps_modify, register_table_field|]. intros _.
  apply keeps_bind; [apply keeps_py_iter|]. intros cols.
  apply keeps_for_each. intros column_name.
  apply keeps_bind; [apply keeps_as_str|]. intros cn.
  apply keeps_modify, register_column_field.
Qed.
End keeps_frame.

(** On a dictionary the build, returning or raising, leaves the
    environment name alone and leaves the export stamp of the
    dictionary. *)
Lemma _build_from_pickled_fields items c :
  environment (_build_from_pickled (PyDict items) c).2 = environment c
  ∧ exported_at (_build_from_pickled (PyDict items) c).2
    = default PyNone (py_get "exported_at" items).
Proof.
  unfold _build_from_pickled. cbn [as_dict].
  rewrite !bind_ret, !bind_modify. split.
  - rewrite (keeps_bind environment); [done|apply keeps_as_dict|].
    intros schema_items. apply keeps_schema_loop.
    + done.
    + intros sn tn c0. unfold register_table. cache_simpl.
      by destruct (decide (is_Some (tables_map c0 !! lower tn))).
    + intros sn tn cn c0. unfold register_column. cache_simpl.
      by destruct (decide (is_Some (columns_map c0 !! lower cn))).
  - rewrite (keeps_bind exported_at); [done|apply keeps_as_dict|].
    intros schema_items. apply keeps_schema_loop.
    + done.
    + intros sn tn c0. unfold register_table. cache_simpl.
      by destruct (decide (is_Some (tables_map c0 !! lower tn))).
    + intros sn tn cn c0. unfold register_column. cache_simpl.
      by destruct (decide (is_Some (columns_map c0 !! lower cn))).
Qed.

(** ** The typeahead endpoint *)

Lemma key_to_qualified_from (candidates : list (string * string))
    (d : gmap string string) k :
  (∀ q, foldl (λ d c, <[c.1 := c.2]> d) d candidates !! k = Some q →
        (k, q) ∈ candidates ∨ d !! k = Some q)
  ∧ (k ∈ candidates.*1 ∨ is_Some (d !! k) →
     is_Some (foldl (λ d c, <[c.1 := c.2]> d) d candidates !! k)).
Proof.
  revert d. induction candidates as [|[k' q'] candidates IH]; intros d; simpl.
  - split; [by right|]. by intros [?%elem_of_nil|].
  - destruct (IH (<[k' := q']> d)) as [IH1 IH2]. split.
    + intros q [Hin|Hd]%IH1; [left; by right|].
      rewrite lookup_insert in Hd. case_decide; [|by right].
      injection Hd as <-. subst. left. left.
    + intros Hk. apply IH2. rewrite lookup_insert_is_Some.
      destruct Hk as [[->|Hk]%elem_of_cons|Hk]; [by right; left|by left|].
      right. destruct (decide (k' = k)); [by left|by right].
Qed.

Lemma key_to_qualified_elem candidates k q :
  key_to_qualified_of candidates !! k = Some q → (k, q) ∈ candidates.
Proof.
  intros H. destruct (key_to_qualified_from candidates ∅ k) as [H1 _].
  destruct (H1 q H) as [?|Hempty]; [done|]. by rewrite lookup_empty in Hempty.
Qed.

Lemma key_to_qualified_is_Some candidates k :
  k ∈ candidates.*1 → is_Some (key_to_qualified_of candidates !! k).
Proof.
  intros H. destruct (key_to_qualified_from candidates ∅ k) as [_ H2]. auto.
Qed.

(** The result loop never raises on keys of the mapping, keeps the
    results free of duplicates, adds at most one per match, and adds
    only non-empty original casings of qualified names mapped from a
    match. *)
Lemma collect_results_spec cache scope key_to_qualified matches results :
  Forall (λ r : string * Q * nat, is_Some (key_to_qualified !! r.1.1)) matches →
  NoDup results →
  ∃ final,
    collect_results cache scope key_to_qualified matches results
    = Returned final
    ∧ NoDup final
    ∧ length final ≤ length results + length matches
    ∧ ∀ display, display ∈ final →
        display ∈ results
        ∨ (truthy display = true
           ∧ ∃ r qualified,
               r ∈ matches
               ∧ key_to_qualified !! r.1.1 = Some qualified
               ∧ get_original_qualified cache scope qualified = Some display).
Proof.
  intros Hkeys. revert results.
  induction Hkeys as [|[[match_key score] index] matches [qualified Hq] _ IH];
    intros results Hnodup; simpl.
  { exists results. split_and!; [done|done|lia|auto]. }
  simpl in Hq. rewrite Hq.
  destruct (get_original_qualified cache scope qualified) as [original|] eqn:Ho;
    cbn [truthy_opt default from_option id andb].
  2: { destruct (IH results Hnodup) as (final & -> & ? & ? & Hfrom).
       exists final. split_and!; [done|done|lia|].
       intros d [?|(? & r & q' & ? & ? & ?)]%Hfrom; [by left|right].
       split; [done|]. exists r, q'. split_and!; [by right|done..]. }
  destruct (truthy original) eqn:Htruthy; cbn [andb].
  2: { destruct (IH results Hnodup) as (final & -> & ? & ? & Hfrom).
       exists final. split_and!; [done|done|lia|].
       intros d [?|(? & r & q' & ? & ? & ?)]%Hfrom; [by left|right].
       split; [done|]. exists r, q'. split_and!; [by right|done..]. }
  case_bool_decide as Hin; cbn [negb].
  - destruct (IH results Hnodup) as (final & -> & ? & ? & Hfrom).
    exists final. split_and!; [done|done|lia|].
    intros d [?|(? & r & q' & ? & ? & ?)]%Hfrom; [by left|right].
    split; [done|]. exists r, q'. split_and!; [by right|done..].
  - destruct (IH (results ++ [original])) as (final & -> & ? & Hlen & Hfrom).
    { apply NoDup_app. split_and!; [done| |apply NoDup_singleton].
      by intros x Hx ->%list_elem_of_singleton. }
    exists final. rewrite length_app in Hlen. simpl in Hlen.
    split_and!; [done|done|lia|].
    intros d [[?| ->%list_elem_of_singleton]%elem_of_app
             |(? & r & q' & ? & ? & ?)]%Hfrom.
    + by left.
    + right. split; [done|].
      exists (match_key, score, index), qualified. split_and!; [left|done..].
    + right. split; [done|]. exists r, q'. split_and!; [by right|done..].
Qed.









(** * The claims *)

(** ** Fuzzy matcher *)

(** C3 (as amended).  For a threshold from 0 to 100 and a limit from 1
    to 2^31 - 1, [find_matches] returns the results of
    [process.extract] with their scores truncated to integers: the
    results are ranked by descending scorer score, two results with the
    same scorer score keep the order of the candidate list, and each
    result is a candidate at its position with its score; consequently
    the returned integer scores descend, none is below the threshold,
    and there are at most [limit] entries.  An empty candidate list gives
    an empty result. *)
Theorem find_matches_ranked WRatio self query candidates threshold limit :
  (0 ≤ default (fm_threshold self) threshold ≤ 100)%Z →
  (1 ≤ Z.of_nat (default (fm_max_results self) limit) ≤ 2147483647)%Z →
  let effective_threshold := default (fm_threshold self) threshold in
  let effective_limit := default (fm_max_results self) limit in
  let results :=
    extract WRatio (strip (lower query)) candidates effective_limit
            effective_threshold in
  let matches := find_matches WRatio self query candidates threshold limit in
  matches = (λ r, mkFuzzyMatch r.1.1 (py_int r.1.2)) <$> results
  ∧ StronglySorted ranks_before results
  ∧ Forall (λ r, candidates !! r.2 = Some r.1.1
                 ∧ r.1.2 = WRatio (strip (lower query)) r.1.1) results
  ∧ StronglySorted (λ m1 m2, (match_score m2 ≤ match_score m1)%Z) matches
  ∧ Forall (λ m, (effective_threshold ≤ match_score m)%Z) matches
  ∧ length matches ≤ effective_limit
  ∧ find_matches WRatio self query [] threshold limit = [].
Proof.
  intros _ _ thr lim results matches.
  assert (matches = (λ r, mkFuzzyMatch r.1.1 (py_int r.1.2)) <$> results) as Heq.
  { unfold matches, find_matches. destruct candidates; [|done].
    unfold results, extract, score_all. simpl. by destruct lim. }
  split_and!; [done|apply extract_sorted| | | | |done].
  - apply Forall_forall. intros r Hr%extract_elem. naive_solver.
  - rewrite Heq. eapply StronglySorted_fmap_mono; [|apply extract_sorted].
    intros r1 r2 Hr. simpl. by apply py_int_mono, ranks_before_score.
  - rewrite Heq. apply Forall_fmap, Forall_forall.
    intros r (_ & _ & Hr)%extract_elem. simpl.
    rewrite <-(py_int_inject_Z thr). by apply py_int_mono.
  - rewrite Heq, length_fmap. apply extract_length.
Qed.

Lemma find_matches_ranked_witness :
  let candidates := ["abcdefghix"; "abcdefghijkl"] in
  let results :=
    extract plain_ratio (strip (lower "abcdefghij")) candidates 5 50 in
  let matches :=
    find_matches plain_ratio default_matcher "abcdefghij" candidates None None in
  matches = (λ r, mkFuzzyMatch r.1.1 (py_int r.1.2)) <$> results
  ∧ StronglySorted ranks_before results
  ∧ Forall (λ r, candidates !! r.2 = Some r.1.1
                 ∧ r.1.2 = plain_ratio (strip (lower "abcdefghij")) r.1.1)
      results
  ∧ StronglySorted (λ m1 m2, (match_score m2 ≤ match_score m1)%Z) matches
  ∧ Forall (λ m, (50 ≤ match_score m)%Z) matches
  ∧ length matches ≤ 5
  ∧ find_matches plain_ratio default_matcher "abcdefghij" [] None None = [].
Proof.
  apply (find_matches_ranked plain_ratio default_matcher "abcdefghij"
           ["abcdefghix"; "abcdefghijkl"] None None).
  - cbn [default_matcher fm_threshold default from_option id]. lia.
  - cbn [default_matcher fm_max_results default from_option id]. lia.
Defined.

(** C3 (counterexample).  With the default matcher (threshold 50, at
    most 5 results) and the query "abcdefghij", the candidates
    "abcdefghix" (ratio 90.0) and "abcdefghijkl" (ratio 90.909...) come
    back in the opposite order with the same integer score 90. *)
Lemma find_matches_ties_reordered :
  let candidates := ["abcdefghix"; "abcdefghijkl"] in
  let matches :=
    find_matches plain_ratio (mkFuzzyMatcher 50 5) "abcdefghij" candidates
                 None None in
  matches = [mkFuzzyMatch "abcdefghijkl" 90; mkFuzzyMatch "abcdefghix" 90]
  ∧ ¬ ties_in_input_order candidates matches.
Proof.
  intros candidates matches.
  assert (matches
          = [mkFuzzyMatch "abcdefghijkl" 90; mkFuzzyMatch "abcdefghix" 90])
    as Heq by (vm_compute; reflexivity).
  split; [done|]. rewrite Heq. intros H.
  destruct (H 0 1 _ _ ltac:(lia) eq_refl eq_refl eq_refl)
    as (p & q & Hpq & Hp & Hq).
  clear H Heq. subst candidates matches. cbn [match_name] in Hp, Hq.
  destruct p as [|[|p]]; [discriminate Hp| |discriminate Hp].
  destruct q as [|[|q]]; [lia|discriminate Hq..].
Qed.

(** ** Validator *)

(** C1 (as amended).  On an index built from any snapshot, when the
    normalized search term is not empty and the existence check of the
    scope (under the request context) finds it, [validate] answers
    [valid] with the original casing the index keeps for the term, and
    the call stops after the exact stage, whatever the scorer and the
    matcher are. *)
Theorem validate_exact_match_priority WRatio data c0 matcher scope search_term
    context :
  truthy (strip (lower search_term)) = true →
  exists_in_scope (_build_from_raw_data data c0) scope
                  (strip (lower search_term)) context = true →
  ∃ original,
    validate_staged WRatio
      (mkValidator (_build_from_raw_data data c0) matcher)
      scope search_term context
    = ([ExactStage], mkResponse VALID (Some original) None)
    ∧ get_original_for_scope (_build_from_raw_data data c0) scope
        (strip (lower search_term)) = Some original
    ∧ lower original = strip (lower search_term).
Proof.
  set (idx := _build_from_raw_data data c0).
  set (term := strip (lower search_term)).
  intros Hterm Hexists.
  assert (lower term = term) as Hlower by apply lower_normalized.
  destruct (exists_in_scope_original idx scope term context) as [original Ho];
    [apply consistent_build|done|].
  rewrite Hlower in Ho.
  assert (lower original = term) as Hcase.
  { eapply (casing_for_scope (λ k v, lower v = k)); [|done].
    apply casing_build_lower. }
  assert (truthy original = true) as Htruthy.
  { by rewrite <-truthy_lower, Hcase. }
  exists original. split_and!; [|done..].
  unfold validate_staged. fold term.
  assert (_check_exact_match (mkValidator idx matcher) scope term
            (context ≫= ctx_schema_name) (context ≫= ctx_table_name)
          = Some original) as ->.
  { unfold _check_exact_match. cbn [cache].
    destruct scope; simpl in Hexists, Ho; by rewrite Hexists. }
  simpl. by rewrite Htruthy.
Qed.

Lemma validate_exact_match_priority_witness :
  ∃ original,
    validate_staged plain_ratio
      (mkValidator (_build_from_raw_data (mkRaw scenario None) empty_cache)
                   default_matcher)
      ScopeTable "Student " None
    = ([ExactStage], mkResponse VALID (Some original) None)
    ∧ get_original_for_scope
        (_build_from_raw_data (mkRaw scenario None) empty_cache) ScopeTable
        (strip (lower "Student ")) = Some original
    ∧ lower original = strip (lower "Student ").
Proof.
  apply (validate_exact_match_priority plain_ratio (mkRaw scenario None)
           empty_cache default_matcher ScopeTable "Student " None).
  - vm_compute. reflexivity.
  - vm_compute. reflexivity.
Defined.

(** C1 (counterexample).  A snapshot with a schema named by the empty
    string: the blank search term normalizes to that name and the
    existence check finds it, yet the answer is [not_found], reached
    through the fuzzy stage. *)
Lemma validate_blank_term_not_valid :
  let idx := index_of [("", [])] in
  exists_in_scope idx ScopeSchema (strip (lower " ")) None = true
  ∧ validate_staged plain_ratio (mkValidator idx default_matcher)
      ScopeSchema " " None
    = ([ExactStage; FuzzyStage], mkResponse NOT_FOUND None (Some [])).
Proof. split; vm_compute; reflexivity. Qed.

(** C2 (as amended).  On an index built from a snapshot in which no
    name is the empty string, and with a matcher that may return at
    least one result, [validate] answers [not_found] exactly when the
    existence check of the scope misses the normalized term and either
    the candidate list of the scope is empty or every candidate scores
    strictly below the threshold. *)
Theorem validate_not_found_iff WRatio data c0 matcher scope search_term
    context :
  nonempty_names (raw_schemas data) = true →
  0 < fm_max_results matcher →
  status (validate WRatio (mkValidator (_build_from_raw_data data c0) matcher)
                   scope search_term context) = NOT_FOUND
  ↔ exists_in_scope (_build_from_raw_data data c0) scope
                    (strip (lower search_term)) context = false
    ∧ (candidates_in_scope (_build_from_raw_data data c0) scope context = []
       ∨ ∀ candidate,
           candidate ∈ candidates_in_scope (_build_from_raw_data data c0)
                         scope context →
           Qlt (WRatio (strip (lower search_term)) candidate)
               (inject_Z (fm_threshold matcher))).
Proof.
  set (idx := _build_from_raw_data data c0).
  set (term := strip (lower search_term)).
  intros Hne Hlimit. unfold validate, validate_staged. fold term.
  destruct (exists_in_scope idx scope term context) eqn:Hexists.
  - (* exact hit: the answer is [valid] *)
    destruct (exists_in_scope_original idx scope term context)
      as [original Ho]; [apply consistent_build|done|].
    unfold term in Ho. rewrite lower_normalized in Ho. fold term in Ho.
    assert (_check_exact_match (mkValidator idx matcher) scope term
              (context ≫= ctx_schema_name) (context ≫= ctx_table_name)
            = Some original) as ->.
    { unfold _check_exact_match. cbn [cache].
      destruct scope; simpl in Hexists, Ho; by rewrite Hexists. }
    cbn [truthy_opt]. rewrite (originals_truthy _ _ _ _ _ Hne Ho). simpl.
    split; [done|]. by intros [? _].
  - (* exact miss: the fuzzy stage decides *)
    assert (_check_exact_match (mkValidator idx matcher) scope term
              (context ≫= ctx_schema_name) (context ≫= ctx_table_name)
            = None) as ->.
    { unfold _check_exact_match. cbn [cache].
      destruct scope; simpl in Hexists; by rewrite Hexists. }
    cbn [truthy_opt snd].
    destruct (find_fuzzy_suggestions_cases WRatio (mkValidator idx matcher)
                scope search_term (context ≫= ctx_schema_name)
                (context ≫= ctx_table_name))
      as [[-> Hall]|(s & ss & -> & Hcands & Hsome)];
      [apply consistent_build|intros k v; by apply originals_truthy|done|..].
    + simpl. split; [|done]. intros _. split; [done|]. by right.
    + simpl. split; [done|]. intros [_ [Hnil|Hall]]; [done|].
      by destruct Hsome.
Qed.

Lemma validate_not_found_iff_witness :
  status (validate plain_ratio
            (mkValidator (_build_from_raw_data (mkRaw scenario None) empty_cache)
                         default_matcher)
            ScopeTable "zzz" None) = NOT_FOUND
  ↔ exists_in_scope (_build_from_raw_data (mkRaw scenario None) empty_cache)
                    ScopeTable (strip (lower "zzz")) None = false
    ∧ (candidates_in_scope
         (_build_from_raw_data (mkRaw scenario None) empty_cache)
         ScopeTable None = []
       ∨ ∀ candidate,
           candidate ∈ candidates_in_scope
                         (_build_from_raw_data (mkRaw scenario None) empty_cache)
                         ScopeTable None →
           Qlt (plain_ratio (strip (lower "zzz")) candidate)
               (inject_Z (fm_threshold default_matcher))).
Proof.
  apply (validate_not_found_iff plain_ratio (mkRaw scenario None) empty_cache
           default_matcher ScopeTable "zzz" None).
  - vm_compute. reflexivity.
  - simpl. lia.
Defined.

(** C2 (counterexample).  A snapshot whose only table is named by the
    empty string: for a blank search term the existence check hits, so
    the right-hand side of the equivalence is false, and yet the answer
    is [not_found]. *)
Lemma validate_not_found_despite_exact_hit :
  let idx := index_of [("s", [("", ["id"])])] in
  status (validate plain_ratio (mkValidator idx default_matcher)
                   ScopeTable "  " None) = NOT_FOUND
  ∧ exists_in_scope idx ScopeTable (strip (lower "  ")) None = true.
Proof. split; vm_compute; reflexivity. Qed.

(** ** Environment index: lookups *)

(** C10.  An empty-string schema or table argument is treated as an
    absent one: [table_exists], [column_exists] and
    [get_candidates_for_scope] give the result of the call without that
    argument, which for an empty schema is the global check. *)
Theorem empty_context_is_absent c name scope schema table :
  table_exists c name (Some "") = table_exists c name None
  ∧ table_exists c name (Some "") = set_mem (lower name) (tables_set c)
  ∧ column_exists c name (Some "") table = column_exists c name None table
  ∧ column_exists c name schema (Some "") = column_exists c name schema None
  ∧ column_exists c name (Some "") table = set_mem (lower name) (columns_set c)
  ∧ column_exists c name schema (Some "") = set_mem (lower name) (columns_set c)
  ∧ get_candidates_for_scope c scope (Some "") table
    = get_candidates_for_scope c scope None table
  ∧ get_candidates_for_scope c scope schema (Some "")
    = get_candidates_for_scope c scope schema None
  ∧ get_candidates_for_scope c ScopeTable (Some "") table = tables_list c
  ∧ get_candidates_for_scope c ScopeColumn (Some "") table = columns_list c
  ∧ get_candidates_for_scope c ScopeColumn schema (Some "") = columns_list c.
Proof.
  unfold table_exists, column_exists, get_candidates_for_scope.
  cbn [truthy_opt truthy andb]. rewrite !andb_false_r.
  split_and!; try reflexivity; by destruct scope.
Qed.

(** ** Environment index: build *)




(** The column candidates of a (schema, table) pair are the column list
    of the last table entry filed under the pair, lowercased, in the raw
    order and with the raw multiplicities. *)
Lemma column_candidates_of_entry data c0 before schema_name table_name
    columns after :
  table_entries (raw_schemas data)
  = before ++ (schema_name, table_name, columns) :: after →
  Forall (λ e, entry_key e ≠ (lower schema_name, lower table_name)) after →
  truthy schema_name = true →
  truthy table_name = true →
  get_candidates_for_scope (_build_from_raw_data data c0) ScopeColumn
    (Some schema_name) (Some table_name) = lower <$> columns.
Proof.
  intros Hentries Hafter Hs Ht.
  unfold get_candidates_for_scope. cbn [truthy_opt]. rewrite Hs, Ht.
  cbn [andb default from_option id].
  rewrite build_list_by_table, Hentries.
  change (lower schema_name, lower table_name)
    with (entry_key (schema_name, table_name, columns)).
  by rewrite (last_columns_app before (schema_name, table_name, columns) after).
Qed.

(** C6 (the build at the failing input).  A table whose raw column list
    holds two names that differ by case only: the column candidates of
    the table hold the lowercase name twice, and a misspelt term
    validated under the table gets the same suggestion twice, where the
    global column list, which is guarded by the casing map, holds the
    name once, with the casing seen first. *)
Theorem column_candidates_repeat_colliding_name :
  let idx := index_of [("S", [("T", ["email"; "Email"])])] in
  get_candidates_for_scope idx ScopeColumn (Some "S") (Some "T")
  = ["email"; "email"]
  ∧ ¬ NoDup (get_candidates_for_scope idx ScopeColumn (Some "S") (Some "T"))
  ∧ suggestions
      (validate plain_ratio (mkValidator idx default_matcher) ScopeColumn
         "emial" (Some (mkContext (Some "S") (Some "T"))))
    = Some [mkSuggestion "email" 80; mkSuggestion "email" 80]
  ∧ get_candidates_for_scope idx ScopeColumn None None = ["email"]
  ∧ columns_list idx = ["email"]
  ∧ get_original_column idx "email" = Some "email".
Proof.
  assert (get_candidates_for_scope
            (index_of [("S", [("T", ["email"; "Email"])])])
            ScopeColumn (Some "S") (Some "T") = ["email"; "email"]) as Heq
    by (vm_compute; reflexivity).
  cbn zeta. rewrite Heq. split_and!; try (vm_compute; reflexivity).
  intros [Hnotin _]%NoDup_cons. apply Hnotin. left.
Qed.

(** The per-pair column set and column list of the built index are
    those of the last table entry filed under the pair. *)
Lemma redeclared_table_replaces_columns data c0 before entry after :
  table_entries (raw_schemas data) = before ++ entry :: after →
  Forall (λ e, entry_key e ≠ entry_key entry) after →
  dict_get (entry_key entry) (columns_by_table (_build_from_raw_data data c0))
  = Some (list_to_set (lower <$> entry.2))
  ∧ columns_list_by_table (_build_from_raw_data data c0) !! entry_key entry
    = Some (lower <$> entry.2).
Proof.
  intros Hentries Hafter.
  rewrite build_set_by_table, build_list_by_table, Hentries.
  by rewrite (last_columns_app before entry after).
Qed.

(** C7 (the build at the failing input).  The table "T" of schema "S"
    is declared again as "t": the column of the first declaration is no
    longer found under the pair nor among its candidates, and no
    validation of it under the pair answers [valid], where the global
    check and the qualified names of the same index still have it. *)
Theorem redeclared_table_drops_first_columns :
  let idx := index_of [("S", [("T", ["a"]); ("t", ["b"])])] in
  column_exists idx "a" (Some "S") (Some "T") = false
  ∧ column_exists idx "b" (Some "S") (Some "T") = true
  ∧ get_candidates_for_scope idx ScopeColumn (Some "S") (Some "T") = ["b"]
  ∧ (∀ WRatio matcher,
       status (validate WRatio (mkValidator idx matcher) ScopeColumn "a"
                 (Some (mkContext (Some "S") (Some "T")))) ≠ VALID)
  ∧ column_exists idx "a" None None = true
  ∧ get_original_qualified idx ScopeColumn "s.t.a" = Some "S.T.a"
  ∧ get_qualified_candidates_for_scope idx ScopeColumn (Some "S") (Some "T")
    = ["s.t.a"; "s.t.b"].
Proof.
  split_and!; try (vm_compute; reflexivity).
  intros WRatio matcher. unfold validate, validate_staged.
  assert (_check_exact_match
            (mkValidator (index_of [("S", [("T", ["a"]); ("t", ["b"])])]) matcher)
            ScopeColumn (strip (lower "a"))
            (Some (mkContext (Some "S") (Some "T")) ≫= ctx_schema_name)
            (Some (mkContext (Some "S") (Some "T")) ≫= ctx_table_name)
          = None) as -> by (vm_compute; reflexivity).
  cbn [truthy_opt snd].
  by destruct (_find_fuzzy_suggestions _ _ _ _ _ _) as [[|? ?]|].
Qed.

(** C9 (the build at the failing input).  Two schemas whose names
    differ by case only: the schema list holds the lowercase name twice
    and the schema casing map keeps the casing written last, where the
    table and column levels keep their lists free of duplicates and the
    casing written first. *)
Theorem schemas_list_repeats_colliding_name :
  let idx := index_of [("Public", []); ("PUBLIC", [])] in
  schemas_list idx = ["public"; "public"]
  ∧ ¬ NoDup (schemas_list idx)
  ∧ get_original_schema idx "public" = Some "PUBLIC".
Proof.
  split_and!; [vm_compute; reflexivity| |vm_compute; reflexivity].
  assert (schemas_list (index_of [("Public", []); ("PUBLIC", [])])
          = ["public"; "public"]) as -> by (vm_compute; reflexivity).
  intros [Hnotin _]%NoDup_cons. apply Hnotin. left.
Qed.

(** ** Environment index: load *)

(** C4 (as amended).  [load] raises when the resource is absent or
    cannot be unpickled, and the index is then unchanged.  On unpickled
    data, whether [load] returns or raises depends on the data alone,
    and the index carries the new environment name either way.  When
    [load] returns, the index is loaded and its whole state is
    determined by the data, the environment name and the load time,
    whatever it held before.  When it raises, the load status
    ([is_loaded], [loaded_at]) keeps its previous value; if the data is
    not a dictionary nothing but the environment name has changed; if it
    is one, the export stamp is the one of the data and every field but
    the load status is what the same failing load leaves in an empty
    index: the lookup structures were reset and partly rebuilt, and
    nothing of the previous ones is left.  On a well-typed snapshot
    [load] returns, with the index of the snapshot. *)
Theorem load_outcome :
  (∀ file name now c,
     match file with
     | Absent => load file name now c = (Raised FileNotFoundError, c)
     | Corrupt => load file name now c = (Raised UnpicklingError, c)
     | Pickled data =>
         (∀ c', (load file name now c').1 = (load file name now c).1)
         ∧ environment (load file name now c).2 = name
         ∧ match (load file name now c).1 with
           | Raised e =>
               is_loaded (load file name now c).2 = is_loaded c
               ∧ loaded_at (load file name now c).2 = loaded_at c
               ∧ match data with
                 | PyDict items =>
                     exported_at (load file name now c).2
                     = default PyNone (py_get "exported_at" items)
                     ∧ (load file name now c).2
                       = with_status (loaded_at c) (is_loaded c)
                           (load file name now empty_cache).2
                 | _ =>
                     e = AttributeError
                     ∧ (load file name now c).2 = set_environment name c
                 end
           | Returned _ =>
               is_loaded (load file name now c).2 = true
               ∧ loaded_at (load file name now c).2 = Some now
               ∧ ∀ c', (load file name now c').2
                       = (load file name now c).2
           end
     end)
  ∧ (∀ data name now c,
       load (Pickled (raw_to_py data)) name now c
       = (Returned tt,
          set_is_loaded true
            (set_loaded_at (Some now)
               (_build_from_raw_data data (set_environment name c))))).
Proof.
  split.
  - intros [| |data] name now c; [done..|].
    assert (∀ c0, load (Pickled data) name now c0
              = match _build_from_pickled data (set_environment name c0) with
                | (Returned _, c1) =>
                    (Returned tt,
                     set_is_loaded true (set_loaded_at (Some now) c1))
                | (Raised e, c1) => (Raised e, c1)
                end) as Hload.
    { intros c0. unfold load. rewrite bind_modify, bind_run.
      by destruct (_build_from_pickled data _) as [[[]|e] c1]. }
    destruct data as [|n|s|xs|items];
      try (split; [done|]; rewrite Hload; done).
    destruct (_build_from_pickled_fields items
                (set_environment name empty_cache)) as [Henv Hexp].
    remember (_build_from_pickled (PyDict items)
                (set_environment name empty_cache)) as fresh eqn:Hrun.
    assert (∀ c0, _build_from_pickled (PyDict items) (set_environment name c0)
              = (fresh.1, with_status (loaded_at c0) (is_loaded c0) fresh.2))
      as Hfresh by (intros c0; subst fresh; apply _build_from_pickled_fresh).
    clear Hrun. destruct fresh as [[[]|e] c1]; cbn [fst snd] in *.
    + split; [intros c'; by rewrite !Hload, !Hfresh|].
      rewrite Hload, Hfresh. cbn [fst snd]. split_and!; [done..|].
      intros c'. by rewrite Hload, Hfresh.
    + split; [intros c'; by rewrite !Hload, !Hfresh|].
      rewrite !Hload, !Hfresh. cbn [fst snd]. by split_and!.
  - intros data name now c. unfold load.
    rewrite bind_modify, bind_run, _build_from_pickled_typed. done.
Qed.

(** C4 (counterexample).  An index loaded from the scenario is loaded
    again from a snapshot whose schema data is [None]: [load] raises
    [AttributeError] during the build, the table that was found before
    is no longer found, and the index still reports itself loaded. *)
Lemma load_failure_mutates_index :
  let before :=
    (load (Pickled (raw_to_py (mkRaw scenario None))) "dev" 0 empty_cache).2 in
  let after := load (Pickled malformed_snapshot) "dev" 1 before in
  after.1 = Raised AttributeError
  ∧ table_exists before "student" None = true
  ∧ table_exists after.2 "student" None = false
  ∧ schema_exists after.2 "hr" = true
  ∧ is_loaded after.2 = true.
Proof. split_and!; vm_compute; reflexivity. Qed.

(** ** Typeahead *)




(** * Further properties of the code *)

(** ** Existence checks *)

(** X1.  Without context, the existence check of a level succeeds
    exactly for the names whose lowercase form is the lowercase form of
    a name of that level in the snapshot. *)
Theorem exists_iff_named data c0 scope name :
  exists_in_scope (_build_from_raw_data data c0) scope name None = true
  ↔ ∃ N, N ∈ names_at scope (raw_schemas data) ∧ lower N = lower name.
Proof.
  destruct (build_sets data c0) as (Hs & Ht & Hc).
  destruct scope; simpl;
    unfold schema_exists, table_exists, column_exists; simpl;
    rewrite set_mem_true, ?Hs, ?Ht, ?Hc, elem_of_list_to_set, list_elem_of_fmap;
    naive_solver.
Qed.

(** X2.  A name found under a schema or table context is also found
    without context. *)
Theorem scoped_hit_is_global data c0 scope name context :
  exists_in_scope (_build_from_raw_data data c0) scope name context = true →
  exists_in_scope (_build_from_raw_data data c0) scope name None = true.
Proof.
  intros H.
  pose proof (consistent_build data c0) as Hc.
  apply (exists_in_scope_original _ _ _ _ Hc) in H.
  destruct scope; simpl in *;
    unfold schema_exists, table_exists, column_exists; simpl;
    apply set_mem_true;
    [by apply (schemas_map_set _ Hc)|by apply (tables_map_set _ Hc)
    |by apply (columns_map_set _ Hc)].
Qed.

Lemma scoped_hit_is_global_witness :
  exists_in_scope (_build_from_raw_data (mkRaw scenario None) empty_cache)
    ScopeColumn "EMAIL" None = true.
Proof.
  apply (scoped_hit_is_global (mkRaw scenario None) empty_cache ScopeColumn
           "EMAIL" (Some (mkContext (Some "Public") (Some "Student")))).
  vm_compute. reflexivity.
Defined.

Lemma candidates_lockstep c scope name schema table :
  consistent c →
  lower name ∈ get_candidates_for_scope c scope schema table
  ↔ match scope with
    | ScopeSchema => schema_exists c name
    | ScopeTable => table_exists c name schema
    | ScopeColumn => column_exists c name schema table
    end = true.
Proof.
  intros Hc. destruct scope; simpl.
  - unfold schema_exists. rewrite set_mem_true. apply (schemas_list_set _ Hc).
  - unfold table_exists.
    destruct schema as [s|]; cbn [truthy_opt];
      [destruct (truthy s)|]; rewrite set_mem_true;
      [|apply (tables_list_set _ Hc)..].
    pose proof (tables_by_schema_lockstep _ Hc (lower s)) as H. cbv beta in H.
    cbn [default from_option id].
    destruct (dict_get (lower s) (tables_by_schema c)) as [names|],
      (tables_list_by_schema c !! lower s) as [listed|]; simpl; try done.
    + by destruct H.
    + split; [by intros ?%elem_of_nil|set_solver].
  - unfold column_exists.
    destruct (truthy_opt _ && truthy_opt _); rewrite set_mem_true;
      [|apply (columns_list_set _ Hc)].
    match goal with |- context [dict_get ?k _] =>
      pose proof (columns_by_table_lockstep _ Hc k) as H; cbv beta in H;
      destruct (dict_get k (columns_by_table c)) as [names|],
        (columns_list_by_table c !! k) as [listed|]; simpl; try done end.
    + by destruct H.
    + split; [by intros ?%elem_of_nil|set_solver].
Qed.

(** X3.  The exact stage and the fuzzy stage see the same names: under
    any context, the lowercase form of a name is among the candidates
    of a scope exactly when the existence check of the scope finds the
    name. *)
Theorem candidate_iff_exists data c0 scope name context :
  lower name ∈ candidates_in_scope (_build_from_raw_data data c0) scope context
  ↔ exists_in_scope (_build_from_raw_data data c0) scope name context = true.
Proof.
  unfold candidates_in_scope, exists_in_scope.
  rewrite candidates_lockstep by apply consistent_build. by destruct scope.
Qed.

(** ** Validator *)

(** X4.  The answer depends on the search term through its normalized
    form only: two terms that are equal after lowercasing and trimming
    get the same response, through the same stages. *)
Theorem validate_normalizes_term WRatio self scope term1 term2 context :
  strip (lower term1) = strip (lower term2) →
  validate_staged WRatio self scope term1 context
  = validate_staged WRatio self scope term2 context.
Proof.
  intros H. unfold validate_staged, _find_fuzzy_suggestions, find_matches.
  by rewrite H.
Qed.

Lemma validate_normalizes_term_witness :
  validate_staged plain_ratio
    (mkValidator (index_of scenario) default_matcher) ScopeTable
    "  STUDNT " None
  = validate_staged plain_ratio
      (mkValidator (index_of scenario) default_matcher) ScopeTable
      "studnt" None.
Proof.
  apply (validate_normalizes_term plain_ratio
           (mkValidator (index_of scenario) default_matcher) ScopeTable
           "  STUDNT " "studnt" None).
  vm_compute. reflexivity.
Defined.

Lemma to_suggestion_Some self scope m s :
  to_suggestion self scope m = Some s →
  truthy (sug_name s) = true
  ∧ sug_score s = match_score m
  ∧ get_original_for_scope (cache self) scope (match_name m)
    = Some (sug_name s).
Proof.
  unfold to_suggestion.
  destruct (get_original_for_scope _ _ _) as [original|]; [|done].
  destruct (truthy original) eqn:Ht; [|done]. by intros [= <-].
Qed.

Lemma omap_to_suggestion self scope (matches : list FuzzyMatch)
    (P : FuzzyMatch → Prop) (R : relation Z) :
  Forall P matches →
  StronglySorted (λ m1 m2, R (match_score m1) (match_score m2)) matches →
  length (omap (to_suggestion self scope) matches) ≤ length matches
  ∧ StronglySorted (λ s1 s2, R (sug_score s1) (sug_score s2))
      (omap (to_suggestion self scope) matches)
  ∧ Forall (λ s, truthy (sug_name s) = true
                 ∧ ∃ m, P m ∧ sug_score s = match_score m
                        ∧ get_original_for_scope (cache self) scope
                            (match_name m) = Some (sug_name s))
           (omap (to_suggestion self scope) matches).
Proof.
  intros HP Hsorted.
  induction Hsorted as [|m matches Hsorted IH Hm]; cbn [omap list_omap].
  { split_and!; [done|constructor..]. }
  apply Forall_cons in HP as [HPm HP].
  destruct (IH HP) as (Hlen & Hs & Hall).
  destruct (to_suggestion self scope m) as [s|] eqn:Hto;
    [|split_and!; [cbn [length]; lia|done..]].
  apply to_suggestion_Some in Hto as (Htruthy & Hscore & Ho).
  split_and!; [cbn [length]; lia| |].
  - constructor; [done|]. apply Forall_forall. intros s' Hs'.
    apply list_elem_of_omap in Hs' as (m' & Hin & Hto').
    apply to_suggestion_Some in Hto' as (_ & -> & _). rewrite Hscore.
    rewrite Forall_forall in Hm. by apply Hm.
  - constructor; [|done]. split; [done|]. by exists m.
Qed.

Lemma find_matches_facts WRatio self query candidates threshold limit :
  StronglySorted (λ m1 m2, (match_score m2 ≤ match_score m1)%Z)
    (find_matches WRatio self query candidates threshold limit)
  ∧ Forall (λ m, (default (fm_threshold self) threshold ≤ match_score m)%Z
                 ∧ match_name m ∈ candidates)
      (find_matches WRatio self query candidates threshold limit)
  ∧ length (find_matches WRatio self query candidates threshold limit)
    ≤ default (fm_max_results self) limit.
Proof.
  unfold find_matches. destruct candidates as [|cand cands].
  { split_and!; [constructor..|simpl; lia]. }
  set (candidates := cand :: cands). split_and!.
  - eapply StronglySorted_fmap_mono; [|apply extract_sorted].
    intros r1 r2 Hr. simpl. by apply py_int_mono, ranks_before_score.
  - apply Forall_fmap, Forall_forall.
    intros r (Hin & _ & Hr)%extract_elem. simpl. split.
    + rewrite <-(py_int_inject_Z (default _ _)). by apply py_int_mono.
    + by apply list_elem_of_lookup_2 in Hin.
  - rewrite length_fmap. apply extract_length.
Qed.

Lemma fuzzy_suggestions_shape WRatio self scope search_term schema table found :
  _find_fuzzy_suggestions WRatio self scope search_term schema table
  = Some found →
  0 < length found ≤ fm_max_results (fuzzy_matcher self)
  ∧ StronglySorted (λ s1 s2, (sug_score s2 ≤ sug_score s1)%Z) found
  ∧ Forall (λ s,
        truthy (sug_name s) = true
        ∧ (fm_threshold (fuzzy_matcher self) ≤ sug_score s)%Z
        ∧ ∃ candidate,
            candidate ∈ get_candidates_for_scope (cache self) scope schema table
            ∧ get_original_for_scope (cache self) scope candidate
              = Some (sug_name s))
      found.
Proof.
  unfold _find_fuzzy_suggestions.
  set (candidates := get_candidates_for_scope (cache self) scope schema table).
  destruct candidates as [|cand cands] eqn:Hcands; [done|]. rewrite <-Hcands.
  clear Hcands cand cands.
  set (matches := find_matches WRatio (fuzzy_matcher self) search_term
                    candidates None None).
  destruct (find_matches_facts WRatio (fuzzy_matcher self) search_term
              candidates None None) as (Hsorted & Hall & Hlen).
  fold matches in Hsorted, Hall, Hlen. cbn [default from_option id] in Hall, Hlen.
  destruct matches as [|m matches'] eqn:Hm; [done|]. rewrite <-Hm in *.
  clear Hm m matches'.
  destruct (omap_to_suggestion self scope matches _ (λ a b, (b ≤ a)%Z)
              Hall Hsorted) as (Hlen' & Hsorted' & Hall').
  destruct (omap (to_suggestion self scope) matches) as [|s ss] eqn:Hs; [done|].
  intros [= <-]. split_and!; [simpl; lia|simpl in *; lia|done|].
  eapply Forall_impl; [exact Hall'|]. simpl.
  intros s' (? & m & [? ?] & -> & ?). split_and!; [done..|]. by exists (match_name m).
Qed.

(** X5.  The three answers of [validate].  [valid] carries a non-empty
    match, found by the existence check, and no suggestion list;
    [suggestions] carries no match and a non-empty list of at most
    [max_results] suggestions, in descending score order, each with a
    score at the threshold or above and the non-empty original casing of
    a candidate of the scope; [not_found] carries no match and an empty
    list. *)
Theorem validate_response_shape WRatio self scope search_term context :
  let response := validate WRatio self scope search_term context in
  match status response with
  | VALID =>
      ∃ original,
        match_ response = Some original
        ∧ suggestions response = None
        ∧ truthy original = true
        ∧ exists_in_scope (cache self) scope (strip (lower search_term))
            context = true
        ∧ get_original_for_scope (cache self) scope
            (lower (strip (lower search_term))) = Some original
  | SUGGESTIONS =>
      match_ response = None
      ∧ ∃ found,
          suggestions response = Some found
          ∧ 0 < length found ≤ fm_max_results (fuzzy_matcher self)
          ∧ StronglySorted (λ s1 s2, (sug_score s2 ≤ sug_score s1)%Z) found
          ∧ Forall (λ s,
                truthy (sug_name s) = true
                ∧ (fm_threshold (fuzzy_matcher self) ≤ sug_score s)%Z
                ∧ ∃ candidate,
                    candidate ∈ candidates_in_scope (cache self) scope context
                    ∧ get_original_for_scope (cache self) scope candidate
                      = Some (sug_name s))
              found
  | NOT_FOUND =>
      match_ response = None ∧ suggestions response = Some []
  end.
Proof.
  unfold validate, validate_staged.
  set (term := strip (lower search_term)).
  set (schema_name := context ≫= ctx_schema_name).
  set (table_name := context ≫= ctx_table_name).
  destruct (_check_exact_match self scope term schema_name table_name)
    as [original|] eqn:Hexact; cbn [truthy_opt];
    [destruct (truthy original) eqn:Htruthy|].
  - (* exact hit *)
    simpl. exists original. split_and!; [done..| |].
    + unfold _check_exact_match in Hexact. unfold exists_in_scope.
      fold schema_name table_name. by destruct scope, (_ (cache self) term).
    + unfold _check_exact_match in Hexact.
      assert (lower term = term) as -> by apply lower_normalized.
      destruct scope; simpl;
        match type of Hexact with (if ?b then _ else _) = _ =>
          by destruct b end.
  - (* exact hit with an empty original: the fuzzy stage decides *)
    cbn [snd].
    destruct (_find_fuzzy_suggestions WRatio self scope search_term
                schema_name table_name) as [[|s ss]|] eqn:Hfuzzy; simpl;
      [done| |done].
    split; [done|]. exists (s :: ss). split; [done|].
    by apply (fuzzy_suggestions_shape WRatio self scope search_term
                schema_name table_name).
  - (* exact miss *)
    cbn [snd].
    destruct (_find_fuzzy_suggestions WRatio self scope search_term
                schema_name table_name) as [[|s ss]|] eqn:Hfuzzy; simpl;
      [done| |done].
    split; [done|]. exists (s :: ss). split; [done|].
    by apply (fuzzy_suggestions_shape WRatio self scope search_term
                schema_name table_name).
Qed.

(** ** Fuzzy matcher *)

Lemma score_all_filter_length WRatio query choices score_cutoff :
  length (filter (λ r, above_cutoff score_cutoff r = true)
            (score_all WRatio query choices))
  = length (filter (λ choice,
              Qle_bool (inject_Z score_cutoff) (WRatio query choice) = true)
              choices).
Proof.
  unfold score_all.
  generalize (λ i : nat, i) as g.
  change (imap (λ i choice, (choice, WRatio query choice, i)) choices)
    with (imap (λ i choice, (choice, WRatio query choice, (λ i : nat, i) i))
               choices).
  generalize (λ i : nat, i) as h. intros h _. revert h.
  induction choices as [|choice choices IH]; intros h; [done|].
  rewrite imap_cons, !filter_cons.
  specialize (IH (h ∘ S)). unfold compose in *.
  unfold above_cutoff at 1, result_score at 1. cbn [fst snd].
  repeat case_decide; simpl; try congruence; by rewrite ?IH.
Qed.

(** X6.  [find_matches] returns as many entries as it may: the number
    of candidates that reach the threshold, capped by the limit. *)
Theorem find_matches_length WRatio self query candidates threshold limit :
  length (find_matches WRatio self query candidates threshold limit)
  = default (fm_max_results self) limit
    `min` length
            (filter (λ candidate,
               Qle_bool (inject_Z (default (fm_threshold self) threshold))
                        (WRatio (strip (lower query)) candidate) = true)
               candidates).
Proof.
  unfold find_matches. destruct candidates as [|cand cands].
  { simpl. lia. }
  rewrite length_fmap. unfold extract.
  by rewrite length_take, sort_desc_Permutation, score_all_filter_length.
Qed.

(** X7.  Nothing better is left out: a candidate that reaches the
    threshold and is not among the returned names scores, as an integer,
    at most what every returned entry scores. *)
Theorem find_matches_keeps_best WRatio self query candidates threshold limit
    m candidate :
  m ∈ find_matches WRatio self query candidates threshold limit →
  candidate ∈ candidates →
  Qle_bool (inject_Z (default (fm_threshold self) threshold))
           (WRatio (strip (lower query)) candidate) = true →
  candidate ∉ match_name <$>
                find_matches WRatio self query candidates threshold limit →
  (py_int (WRatio (strip (lower query)) candidate) ≤ match_score m)%Z.
Proof.
  unfold find_matches. destruct candidates as [|cand cands];
    [by intros ?%elem_of_nil|].
  set (candidates := cand :: cands). set (query_normalized := strip (lower query)).
  set (thr := default (fm_threshold self) threshold).
  set (lim := default (fm_max_results self) limit).
  unfold extract.
  set (sorted := sort_desc (filter (λ r, above_cutoff thr r = true)
                              (score_all WRatio query_normalized candidates))).
  intros (r & -> & Hr)%list_elem_of_fmap [i Hi]%list_elem_of_lookup Hcut Hout.
  assert ((candidate, WRatio query_normalized candidate, i) ∈ sorted) as Hin.
  { unfold sorted. rewrite sort_desc_Permutation. apply list_elem_of_filter.
    split; [done|]. unfold score_all.
    by apply (elem_of_lookup_imap_2
                (λ i choice, (choice, WRatio query_normalized choice, i))). }
  rewrite <-(take_drop lim sorted) in Hin.
  apply elem_of_app in Hin as [Hin|Hin].
  { destruct Hout. apply list_elem_of_fmap.
    eexists (mkFuzzyMatch _ _). split; [|apply list_elem_of_fmap; eauto]. done. }
  assert (StronglySorted ranks_before (take lim sorted ++ drop lim sorted))
    as Hsorted.
  { rewrite take_drop. apply sort_desc_sorted, StronglySorted_filter,
      score_all_indices. }
  pose proof (StronglySorted_app_1_elem_of _ _ _ _ _ Hsorted Hr Hin) as Hrank.
  apply ranks_before_score in Hrank. simpl. by apply py_int_mono.
Qed.

Lemma find_matches_keeps_best_witness :
  (py_int (plain_ratio (strip (lower "id")) "ids")
   ≤ match_score (mkFuzzyMatch "id" 100))%Z.
Proof.
  apply (find_matches_keeps_best plain_ratio default_matcher "id"
           ["ids"; "id"; "name"] None (Some 1) (mkFuzzyMatch "id" 100) "ids").
  - assert (find_matches plain_ratio default_matcher "id"
              ["ids"; "id"; "name"] None (Some 1) = [mkFuzzyMatch "id" 100])
      as -> by (vm_compute; reflexivity).
    left.
  - left.
  - vm_compute. reflexivity.
  - assert (match_name <$> find_matches plain_ratio default_matcher "id"
              ["ids"; "id"; "name"] None (Some 1) = ["id"])
      as -> by (vm_compute; reflexivity).
    intros [=]%list_elem_of_singleton.
Defined.

(** The head of an insertion. *)
Lemma head_insert_desc r l :
  head (insert_desc r l)
  = Some match head l with
         | None => r
         | Some h => if Qle_bool (result_score h) (result_score r) then r else h
         end.
Proof. destruct l as [|h l]; simpl; [done|]. by destruct (Qle_bool _ _). Qed.

(** Scanning from the left with "strictly higher replaces" finds the
    head of the stable descending sort. *)
Lemma foldl_keep_best_sorted score_cutoff l b :
  Forall (λ r, above_cutoff score_cutoff r = true) l →
  above_cutoff score_cutoff b = true →
  foldl (keep_best score_cutoff) (Some b) l
  = Some match head (sort_desc l) with
         | None => b
         | Some h => if Qle_bool (result_score h) (result_score b) then b else h
         end.
Proof.
  intros Hl. revert b. induction Hl as [|r l Hr Hl IH]; intros b Hb; [done|].
  simpl. unfold keep_best at 2. rewrite Hr.
  rewrite head_insert_desc.
  destruct (Qle_bool (result_score r) (result_score b)) eqn:Hrb.
  - rewrite (IH b Hb). f_equal.
    destruct (head (sort_desc l)) as [h|]; cbn [head]; [|by rewrite Hrb].
    destruct (Qle_bool (result_score h) (result_score r)) eqn:Hhr;
      destruct (Qle_bool (result_score h) (result_score b)) eqn:Hhb;
      rewrite ?Hrb, ?Hhb; try done.
    apply Qle_bool_iff in Hrb, Hhr.
    assert (Qle_bool (result_score h) (result_score b) = true) as Hhb'
      by (apply Qle_bool_iff; lra).
    congruence.
  - rewrite (IH r Hr). f_equal.
    destruct (head (sort_desc l)) as [h|]; cbn [head]; [|by rewrite Hrb].
    destruct (Qle_bool (result_score h) (result_score r)) eqn:Hhr;
      rewrite ?Hrb; [done|].
    destruct (Qle_bool (result_score h) (result_score b)) eqn:Hhb; [|done].
    apply Qle_bool_iff in Hhb.
    assert (¬ Qle (result_score r) (result_score b)) as Hnrb
      by (intros H%Qle_bool_iff; congruence).
    assert (Qle_bool (result_score h) (result_score r) = true) as Hhr'
      by (apply Qle_bool_iff; lra).
    congruence.
Qed.

Lemma foldl_keep_best_filter score_cutoff l best :
  foldl (keep_best score_cutoff) best l
  = foldl (keep_best score_cutoff) best
          (filter (λ r, above_cutoff score_cutoff r = true) l).
Proof.
  revert best. induction l as [|r l IH]; intros best; [done|].
  rewrite filter_cons. case_decide as Hr; simpl.
  - apply IH.
  - unfold keep_best at 2. destruct (above_cutoff score_cutoff r); [done|].
    apply IH.
Qed.

Lemma extractOne_head WRatio query choices score_cutoff :
  extractOne WRatio query choices score_cutoff
  = head (extract WRatio query choices 1 score_cutoff).
Proof.
  unfold extractOne, extract. rewrite foldl_keep_best_filter.
  assert (Forall (λ r, above_cutoff score_cutoff r = true)
            (filter (λ r, above_cutoff score_cutoff r = true)
                    (score_all WRatio query choices))) as Hall.
  { apply Forall_forall. by intros r [? _]%list_elem_of_filter. }
  destruct (filter _ _) as [|r l]; [done|].
  apply Forall_cons in Hall as [Hr Hl].
  cbn [foldl]. unfold keep_best at 2. rewrite Hr.
  rewrite (foldl_keep_best_sorted _ _ _ Hl Hr).
  cbn [sort_desc foldr]. fold (sort_desc l).
  assert (∀ s : list (string * Q * nat), head (take 1 s) = head s) as ->
    by (by intros [|? [|? ?]]).
  by rewrite head_insert_desc.
Qed.

(** X8.  [find_best_match] returns the first entry of [find_matches]
    asked for one result, and nothing when that list is empty. *)
Theorem find_best_match_is_top WRatio self query candidates threshold :
  find_best_match WRatio self query candidates threshold
  = head (find_matches WRatio self query candidates threshold (Some 1)).
Proof.
  unfold find_best_match, find_matches. destruct candidates; [done|].
  rewrite extractOne_head. cbn [default from_option id].
  by destruct (extract _ _ _ _ _).
Qed.

(** ** Typeahead *)

Lemma collect_scored_names cache scope key_to_qualified matches scored seen :
  (∀ x, x ∈ seen ↔ x ∈ scored_name <$> scored) →
  match collect_scored cache scope key_to_qualified matches scored seen,
        collect_results cache scope key_to_qualified matches
          (scored_name <$> scored) with
  | Returned scored', Returned names => names = scored_name <$> scored'
  | Raised e1, Raised e2 => e1 = e2
  | _, _ => False
  end.
Proof.
  revert scored seen.
  induction matches as [|[[match_key score] index] matches IH];
    intros scored seen Hseen; simpl; [done|].
  destruct (key_to_qualified !! match_key) as [qualified|]; [|done].
  destruct (get_original_qualified cache scope qualified) as [original|];
    cbn [truthy_opt default from_option id andb]; [|by apply IH].
  destruct (truthy original); cbn [andb]; [|by apply IH].
  assert (set_mem original seen
          = bool_decide (original ∈ scored_name <$> scored)) as ->.
  { unfold set_mem. apply bool_decide_ext, Hseen. }
  case_bool_decide as Hin; cbn [negb]; [by apply IH|].
  specialize (IH (scored ++ [mkScored original (py_int score)])
                 ({[original]} ∪ seen)).
  rewrite fmap_app in IH. apply IH.
  intros x. rewrite elem_of_union, elem_of_singleton, elem_of_app, Hseen.
  cbn [fmap list_fmap scored_name]. rewrite list_elem_of_singleton.
  naive_solver.
Qed.

(** X9.  [suggest_with_scores] answers with the display strings of
    [suggest], in the same order, and fails when [suggest] fails. *)
Theorem suggest_with_scores_names WRatio cache scope q schema_name table_name
    threshold limit :
  match suggest_with_scores WRatio cache scope q schema_name table_name
          threshold limit,
        suggest WRatio cache scope q schema_name table_name threshold limit with
  | Returned scored, Returned names => names = scored_name <$> scored
  | Raised e1, Raised e2 => e1 = e2
  | _, _ => False
  end.
Proof.
  unfold suggest_with_scores, suggest. destruct cache as [cache|]; [|done].
  destruct (is_loaded cache); [|done]. cbn [negb].
  destruct (get_searchable_candidates_for_scope _ _ _ _) as [|cand cands];
    [done|].
  apply (collect_scored_names _ _ _ _ [] ∅). intros x. set_solver.
Qed.

(** ** Tables under a schema *)

Lemma register_schema_tables_list_by_schema sn c :
  tables_list_by_schema (register_schema sn c)
  = <[lower sn := []]> (tables_list_by_schema c).
Proof. step_eq. Qed.

Lemma register_table_tables_list_by_schema sn tn c :
  tables_list_by_schema (register_table sn tn c)
  = alter (λ l, l ++ [lower tn]) (lower sn) (tables_list_by_schema c).
Proof. step_eq. Qed.

Lemma register_column_tables_list_by_schema sn tn cn c :
  tables_list_by_schema (register_column sn tn cn c) = tables_list_by_schema c.
Proof. step_eq. Qed.

Lemma build_columns_tables_list_by_schema sn tn columns c :
  tables_list_by_schema (build_columns sn tn columns c)
  = tables_list_by_schema c.
Proof.
  revert c. induction columns as [|cn columns IH]; intros c; [done|].
  by rewrite build_columns_cons, IH, register_column_tables_list_by_schema.
Qed.

Lemma build_tables_tables_list_by_schema sn (tables : RawTables) c k :
  tables_list_by_schema (build_tables sn tables c) !! k
  = if decide (lower sn = k)
    then (λ l, l ++ (lower <$> tables.*1)) <$> tables_list_by_schema c !! k
    else tables_list_by_schema c !! k.
Proof.
  revert c. induction tables as [|[tn cols] tables IH]; intros c.
  - simpl. case_decide; [|done].
    destruct (_ !! k); simpl; [|done]. by rewrite app_nil_r.
  - rewrite build_tables_cons, IH, build_columns_tables_list_by_schema,
      register_table_tables_list_by_schema, lookup_alter.
    case_decide; [subst k|done].
    destruct (tables_list_by_schema c !! _); simpl; [|done].
    by rewrite <-app_assoc.
Qed.

Lemma build_schemas_tables_list_by_schema (raw : RawSchemas) c k :
  tables_list_by_schema (build_schemas raw c) !! k
  = foldl (λ found st, if decide (lower st.1 = k)
                       then Some (lower <$> st.2.*1) else found)
          (tables_list_by_schema c !! k) raw.
Proof.
  revert c. induction raw as [|[sn tables] raw IH]; intros c; [done|].
  rewrite build_schemas_cons, IH, build_tables_tables_list_by_schema,
    register_schema_tables_list_by_schema.
  simpl. f_equal. case_decide; [subst k|].
  - by rewrite lookup_insert_eq.
  - by rewrite lookup_insert_ne.
Qed.

Lemma build_tables_by_schema data c key :
  tables_list_by_schema (_build_from_raw_data data c) !! key
  = (λ tables : RawTables, lower <$> tables.*1)
      <$> last_tables key (raw_schemas data).
Proof.
  unfold _build_from_raw_data. rewrite build_schemas_tables_list_by_schema.
  unfold _reset_structures. cache_simpl. rewrite lookup_empty.
  unfold last_tables.
  change (@None (list string))
    with ((λ tables : RawTables, lower <$> tables.*1) <$> @None RawTables) at 1.
  generalize (@None RawTables).
  induction (raw_schemas data) as [|st raw IH]; intros found; simpl; [done|].
  rewrite <-IH. by case_decide.
Qed.

Lemma last_tables_app (before : RawSchemas) sn tables after :
  Forall (λ st : string * RawTables, lower st.1 ≠ lower sn) after →
  last_tables (lower sn) (before ++ (sn, tables) :: after) = Some tables.
Proof.
  intros Hafter. unfold last_tables. rewrite foldl_app. simpl.
  rewrite decide_True by done. generalize (Some tables) at 1 2 as found.
  induction Hafter as [|st after Hst _ IH]; intros found; simpl; [done|].
  by rewrite decide_False.
Qed.

(** X10.  Scoped table lookups are strict.  For a schema entry of the
    snapshot that no later entry shadows and whose name is not empty,
    the table candidates under that schema are the lowercase names of
    its tables, in raw order, and a table is found under that schema
    exactly when it equals one of them up to case: a table held only by
    another schema is not found. *)
Theorem tables_under_schema data c0 before schema_name tables after :
  raw_schemas data = before ++ (schema_name, tables) :: after →
  Forall (λ st : string * RawTables, lower st.1 ≠ lower schema_name) after →
  truthy schema_name = true →
  get_candidates_for_scope (_build_from_raw_data data c0) ScopeTable
    (Some schema_name) None = lower <$> tables.*1
  ∧ ∀ name,
      table_exists (_build_from_raw_data data c0) name (Some schema_name) = true
      ↔ ∃ table_name, table_name ∈ tables.*1 ∧ lower table_name = lower name.
Proof.
  intros Hraw Hafter Htruthy.
  assert (get_candidates_for_scope (_build_from_raw_data data c0) ScopeTable
            (Some schema_name) None = lower <$> tables.*1) as Hcands.
  { unfold get_candidates_for_scope. cbn [truthy_opt]. rewrite Htruthy.
    cbn [default from_option id].
    by rewrite build_tables_by_schema, Hraw, last_tables_app. }
  split; [done|]. intros name.
  rewrite <-(candidates_lockstep _ ScopeTable name (Some schema_name) None)
    by apply consistent_build.
  rewrite Hcands, list_elem_of_fmap. naive_solver.
Qed.

Lemma tables_under_schema_witness :
  get_candidates_for_scope
    (_build_from_raw_data (mkRaw two_students None) empty_cache) ScopeTable
    (Some "hr") None = lower <$> [("student", ["id"])].*1
  ∧ ∀ name,
      table_exists (_build_from_raw_data (mkRaw two_students None) empty_cache)
        name (Some "hr") = true
      ↔ ∃ table_name,
          table_name ∈ [("student", ["id"])].*1 ∧ lower table_name = lower name.
Proof.
  apply (tables_under_schema (mkRaw two_students None) empty_cache
           [("public", [("student", ["id"])])] "hr" [("student", ["id"])] []).
  - reflexivity.
  - constructor.
  - reflexivity.
Defined.

(** ** Qualified names *)

Lemma resolves_insert m key original k :
  lower original = key → resolves m k → resolves (<[key := original]> m) k.
Proof.
  intros Hlow (o & Ho & Hk). unfold resolves. rewrite lookup_insert.
  case_decide; [subst; eauto|eauto].
Qed.

Lemma resolves_insert_eq m key original :
  lower original = key → resolves (<[key := original]> m) key.
Proof. intros. exists original. by rewrite lookup_insert_eq. Qed.

Lemma elem_of_dict_set {K V} `{EqDecision K} (k : K) (v : V) d x :
  x ∈ dict_set k v d → x = (k, v) ∨ x ∈ d.
Proof.
  induction d as [|[k' v'] d IH]; simpl.
  - intros ->%list_elem_of_singleton. by left.
  - case_decide; [subst|].
    + intros [->|?]%elem_of_cons; [by left|right; by right].
    + intros [->|?%IH]%elem_of_cons; [right; left|]. naive_solver (by right).
Qed.

Lemma elem_of_dict_alter {K V} `{EqDecision K} (f : V → V) (k : K) d x :
  x ∈ dict_alter f k d → x ∈ d ∨ ∃ v, (k, v) ∈ d ∧ x = (k, f v).
Proof.
  induction d as [|[k' v'] d IH]; simpl; [by left|].
  case_decide; [subst|].
  - intros [->|?]%elem_of_cons; [right; exists v'; split; [left|done]|].
    left. by right.
  - intros [->|[?|(v & ? & ->)]%IH]%elem_of_cons.
    + left. left.
    + left. by right.
    + right. exists v. split; [by right|done].
Qed.

Lemma lower_dotted s t : lower (s +:+ "." +:+ t) = lower s +:+ "." +:+ lower t.
Proof. by rewrite !lower_app. Qed.

Lemma qualified_reset c : qualified_consistent (_reset_structures c).
Proof.
  split; unfold _reset_structures; cache_simpl; intros *; by intros ?%elem_of_nil.
Qed.

Lemma qualified_set_schemas v c :
  qualified_consistent c → qualified_consistent (set_schemas v c).
Proof. intros []. split; cache_simpl; assumption. Qed.

Lemma qualified_register_schema sn c :
  qualified_consistent c → qualified_consistent (register_schema sn c).
Proof.
  intros [Ht Hc Hqt Hqc]. split; unfold register_schema; cache_simpl;
    [|assumption..].
  intros s names t [[= -> ->]|Hin]%elem_of_dict_set Ht'; [set_solver|eauto].
Qed.

Lemma qualified_register_table sn tn c :
  qualified_consistent c → qualified_consistent (register_table sn tn c).
Proof.
  intros [Ht Hc Hqt Hqc].
  assert (lower (sn +:+ "." +:+ tn) = lower (sn +:+ "." +:+ tn)) as Hkey by done.
  split; unfold register_table; case_decide; cache_simpl.
  1,2: intros s names t [Hin|(names0 & Hin & [= -> ->])]%elem_of_dict_alter Ht';
    [apply resolves_insert; eauto
    |apply elem_of_union in Ht' as [->%elem_of_singleton|Ht'];
       [rewrite <-lower_dotted; by apply resolves_insert_eq
       |apply resolves_insert; eauto]..].
  1,2: intros s t names col [[= -> -> ->]|Hin]%elem_of_dict_set Hcol;
    [set_solver|eauto].
  1,2: intros q [Hq| ->%list_elem_of_singleton]%elem_of_app;
    [apply resolves_insert; eauto|by apply resolves_insert_eq].
  1,2: assumption.
Qed.

Lemma qualified_register_column sn tn cn c :
  qualified_consistent c → qualified_consistent (register_column sn tn cn c).
Proof.
  intros [Ht Hc Hqt Hqc].
  split; unfold register_column; case_decide; cache_simpl; try assumption.
  1,2: intros s t names col
         [Hin|(names0 & Hin & [= -> -> ->])]%elem_of_dict_alter Hcol;
    [apply resolves_insert; eauto
    |apply elem_of_union in Hcol as [->%elem_of_singleton|Hcol];
       [rewrite <-!lower_dotted; by apply resolves_insert_eq
       |apply resolves_insert; eauto]..].
  1,2: intros q [Hq| ->%list_elem_of_singleton]%elem_of_app;
    [apply resolves_insert; eauto|by apply resolves_insert_eq].
Qed.

Lemma qualified_build_schemas (raw : RawSchemas) c :
  qualified_consistent c → qualified_consistent (build_schemas raw c).
Proof.
  revert c. induction raw as [|[sn tables] raw IH]; intros c Hc; [done|].
  rewrite build_schemas_cons. apply IH. clear IH.
  apply (qualified_register_schema sn) in Hc. revert Hc.
  generalize (register_schema sn c). clear c.
  induction tables as [|[tn cols] tables IH]; intros c Hc; [done|].
  rewrite build_tables_cons. apply IH. clear IH.
  apply (qualified_register_table sn tn) in Hc. revert Hc.
  generalize (register_table sn tn c). clear c.
  induction cols as [|cn cols IH]; intros c Hc; [done|].
  rewrite build_columns_cons. by apply IH, (qualified_register_column sn tn cn).
Qed.

Lemma qualified_build data c : qualified_consistent (_build_from_raw_data data c).
Proof.
  unfold _build_from_raw_data.
  apply qualified_build_schemas, qualified_set_schemas, qualified_reset.
Qed.

Lemma elem_of_searchable c scope schema table search_key qualified :
  (search_key, qualified)
    ∈ get_searchable_candidates_for_scope c scope schema table →
  match scope with
  | ScopeSchema => search_key ∈ schemas_list c ∧ qualified = search_key
  | ScopeTable =>
      ∃ s names, (s, names) ∈ tables_by_schema c ∧ search_key ∈ names
                 ∧ qualified = s +:+ "." +:+ search_key
                 ∧ filtered_out schema s = false
  | ScopeColumn =>
      ∃ s t names, ((s, t), names) ∈ columns_by_table c ∧ search_key ∈ names
                   ∧ qualified = s +:+ "." +:+ t +:+ "." +:+ search_key
                   ∧ filtered_out schema s = false
                   ∧ filtered_out table t = false
  end.
Proof.
  destruct scope; simpl.
  - intros (name & [= -> ->] & Hin)%list_elem_of_fmap. done.
  - intros ([s names] & Hin & Hs)%list_elem_of_bind.
    destruct (filtered_out schema s) eqn:Hf; [by apply elem_of_nil in Hin|].
    apply list_elem_of_fmap in Hin as (t & [= -> ->] & Ht%elem_of_elements).
    by exists s, names.
  - intros ([[s t] names] & Hin & Hs)%list_elem_of_bind.
    destruct (filtered_out schema s) eqn:Hf; [by apply elem_of_nil in Hin|].
    destruct (filtered_out table t) eqn:Hg; [by apply elem_of_nil in Hin|].
    apply list_elem_of_fmap in Hin as (col & [= -> ->] & Hc%elem_of_elements).
    by exists s, t, names.
Qed.

Lemma searchable_resolves c scope schema table search_key qualified :
  consistent c → qualified_consistent c →
  casing (λ k v, lower v = k) (λ k v, lower v = k) (λ k v, lower v = k) c →
  (search_key, qualified)
    ∈ get_searchable_candidates_for_scope c scope schema table →
  ∃ original,
    get_original_qualified c scope qualified = Some original
    ∧ lower original = qualified.
Proof.
  intros Hc Hq (Hcase & _ & _) Hin%elem_of_searchable. destruct scope; simpl.
  - destruct Hin as [Hin ->].
    apply (schemas_list_set _ Hc), (schemas_map_set _ Hc) in Hin as [o Ho].
    exists o. split; [done|]. by apply Hcase.
  - destruct Hin as (s & names & Hin & Ht & -> & _).
    apply (tables_resolve _ Hq _ _ _ Hin Ht).
  - destruct Hin as (s & t & names & Hin & Hcol & -> & _).
    apply (columns_resolve _ Hq _ _ _ _ Hin Hcol).
Qed.

(** X11.  On the index of a snapshot whose names are ASCII, every pair
    of the typeahead enumeration resolves: its qualified name is a key
    of the qualified map of the scope, filed under an original whose
    lowercase form is that qualified name. *)
Theorem searchable_candidates_resolve data c0 scope schema table search_key
    qualified :
  ascii_names (raw_schemas data) = true →
  (search_key, qualified)
    ∈ get_searchable_candidates_for_scope (_build_from_raw_data data c0) scope
        schema table →
  ∃ original,
    get_original_qualified (_build_from_raw_data data c0) scope qualified
    = Some original
    ∧ lower original = qualified.
Proof.
  intros _. apply searchable_resolves;
    [apply consistent_build|apply qualified_build|apply casing_build_lower].
Qed.

Lemma searchable_candidates_resolve_witness :
  ∃ original,
    get_original_qualified
      (_build_from_raw_data (mkRaw [("Sales", [("Orders", ["Id"])])] None)
                            empty_cache)
      ScopeColumn "sales.orders.id" = Some original
    ∧ lower original = "sales.orders.id".
Proof.
  apply (searchable_candidates_resolve
           (mkRaw [("Sales", [("Orders", ["Id"])])] None) empty_cache
           ScopeColumn (Some "SALES") None "id" "sales.orders.id").
  { vm_compute. reflexivity. }
  assert (get_searchable_candidates_for_scope
            (_build_from_raw_data (mkRaw [("Sales", [("Orders", ["Id"])])] None)
                                  empty_cache)
            ScopeColumn (Some "SALES") None = [("id", "sales.orders.id")])
    as -> by (vm_compute; reflexivity).
  left.
Defined.

Lemma load_typed data environment now c :
  load (Pickled (raw_to_py data)) environment now c
  = (Returned tt,
     set_is_loaded true
       (set_loaded_at (Some now)
          (_build_from_raw_data data (set_environment environment c)))).
Proof.
  unfold load. by rewrite bind_modify, bind_run, _build_from_pickled_typed.
Qed.

Lemma loaded_index_eq data environment now :
  loaded_index data environment now
  = set_is_loaded true
      (set_loaded_at (Some now)
         (_build_from_raw_data data (set_environment environment empty_cache))).
Proof. unfold loaded_index. by rewrite load_typed. Qed.

Lemma consistent_loaded_index data environment now :
  consistent (loaded_index data environment now).
Proof.
  rewrite loaded_index_eq.
  destruct (consistent_build data (set_environment environment empty_cache)).
  split; cache_simpl; assumption.
Qed.

Lemma qualified_loaded_index data environment now :
  qualified_consistent (loaded_index data environment now).
Proof.
  rewrite loaded_index_eq.
  destruct (qualified_build data (set_environment environment empty_cache)).
  split; cache_simpl; assumption.
Qed.

Lemma casing_loaded_index (Ps Pt Pc : string → Prop) data environment now :
  Forall Ps (schema_names (raw_schemas data)) →
  Forall Pt (table_names (raw_schemas data)) →
  Forall Pc (column_names (raw_schemas data)) →
  casing (λ k v, lower v = k ∧ Ps v) (λ k v, lower v = k ∧ Pt v)
         (λ k v, lower v = k ∧ Pc v) (loaded_index data environment now).
Proof.
  intros Hs Ht Hc. rewrite loaded_index_eq.
  destruct (casing_build Ps Pt Pc data
              (set_environment environment empty_cache) Hs Ht Hc)
    as (? & ? & ?).
  split_and!; cache_simpl; assumption.
Qed.

Lemma collect_results_prefix cache scope key_to_qualified matches results final :
  collect_results cache scope key_to_qualified matches results = Returned final →
  results `prefix_of` final.
Proof.
  revert results.
  induction matches as [|[[match_key score] index] matches IH];
    intros results; simpl.
  { by intros [= ->]. }
  destruct (key_to_qualified !! match_key) as [qualified|]; [|done].
  destruct (_ && _); [|apply IH].
  intros H%IH. etrans; [|done]. by apply prefix_app_r.
Qed.

Lemma suggest_empty_iff_resolving WRatio cache scope q schema_name table_name
    threshold limit :
  is_loaded cache = true →
  0 < limit →
  (∀ search_key qualified,
     (search_key, qualified)
       ∈ get_searchable_candidates_for_scope cache scope schema_name table_name →
     ∃ original, get_original_qualified cache scope qualified = Some original
                 ∧ truthy original = true) →
  suggest WRatio (Some cache) scope q schema_name table_name threshold limit
  = Returned []
  ↔ ∀ search_key qualified,
      (search_key, qualified)
        ∈ get_searchable_candidates_for_scope cache scope schema_name table_name →
      Qlt (WRatio (strip (lower q)) search_key) (inject_Z threshold).
Proof.
  intros Hloaded Hlimit Hresolve. unfold suggest. rewrite Hloaded. cbn [negb].
  set (candidates :=
         get_searchable_candidates_for_scope cache scope schema_name table_name)
    in *.
  destruct candidates as [|cand cands] eqn:Hcands.
  { split; [|done]. by intros _ ? ? ?%elem_of_nil. }
  rewrite <-Hcands in *. clear Hcands cand cands.
  pose proof (extract_nil WRatio (strip (lower q)) candidates.*1 limit threshold
                Hlimit) as Hnil.
  split.
  - intros Hempty search_key qualified Hin.
    destruct (extract WRatio (strip (lower q)) candidates.*1 limit threshold)
      as [|[[match_key score] index] rest] eqn:Hext.
    { apply Hnil; [done|]. apply list_elem_of_fmap. by exists (search_key, qualified). }
    exfalso.
    assert (match_key ∈ candidates.*1) as Hkey.
    { assert ((match_key, score, index)
                ∈ extract WRatio (strip (lower q)) candidates.*1 limit threshold)
        as (Hk & _)%extract_elem by (rewrite Hext; left).
      by apply list_elem_of_lookup_2 in Hk. }
    apply key_to_qualified_is_Some in Hkey as [qualified' Hq].
    cbn [collect_results] in Hempty. rewrite Hq in Hempty.
    destruct (Hresolve match_key qualified') as (original & Ho & Htruthy);
      [by apply key_to_qualified_elem|].
    rewrite Ho in Hempty. cbn [truthy_opt default from_option id] in Hempty.
    rewrite Htruthy in Hempty.
    rewrite bool_decide_eq_false_2 in Hempty by apply not_elem_of_nil.
    cbn [andb negb] in Hempty.
    apply collect_results_prefix in Hempty. by apply prefix_nil_not in Hempty.
  - intros Hall.
    assert (extract WRatio (strip (lower q)) candidates.*1 limit threshold = [])
      as ->; [|done].
    apply Hnil. intros choice ([k qual] & -> & Hin)%list_elem_of_fmap.
    by apply (Hall k qual).
Qed.

(** X12.  On a loaded index whose snapshot has ASCII names, none of
    them empty, and with a limit of at least one, [suggest] answers
    with the empty list exactly when no search key of the enumeration
    reaches the threshold. *)
Theorem suggest_empty_iff WRatio data environment now scope q schema_name
    table_name threshold limit :
  ascii_names (raw_schemas data) = true →
  nonempty_names (raw_schemas data) = true →
  0 < limit →
  suggest WRatio (Some (loaded_index data environment now)) scope q schema_name
          table_name threshold limit = Returned []
  ↔ ∀ search_key qualified,
      (search_key, qualified)
        ∈ get_searchable_candidates_for_scope
            (loaded_index data environment now) scope schema_name table_name →
      Qlt (WRatio (strip (lower q)) search_key) (inject_Z threshold).
Proof.
  intros _ Hne%forallb_truthy Hlimit.
  apply Forall_app in Hne as [Hs Hne]. apply Forall_app in Hne as [Ht Hc].
  apply suggest_empty_iff_resolving; [by rewrite loaded_index_eq|done|].
  intros search_key qualified Hin.
  pose proof (casing_loaded_index _ _ _ data environment now Hs Ht Hc)
    as Hcasing.
  destruct (searchable_resolves _ _ _ _ _ _
              (consistent_loaded_index data environment now)
              (qualified_loaded_index data environment now)
              ltac:(destruct Hcasing as (H1 & H2 & H3);
                    split_and!; intros k v Hkv;
                    [apply H1 in Hkv|apply H2 in Hkv|apply H3 in Hkv];
                    by destruct Hkv) Hin)
    as (original & Ho & Hlow).
  exists original. split; [done|]. apply truthy_true. intros ->.
  apply elem_of_searchable in Hin. destruct scope.
  - destruct Hin as [_ ->]. destruct Hcasing as (H1 & _ & _).
    simpl in Ho. apply H1 in Ho as [_ Ho]. done.
  - destruct Hin as (s & names & _ & _ & -> & _). by destruct s.
  - destruct Hin as (s & t & names & _ & _ & -> & _). by destruct s.
Qed.

Lemma suggest_empty_iff_witness :
  suggest plain_ratio (Some (loaded_index (mkRaw scenario None) "dev" 0))
    ScopeTable "zzz" None None 50 5 = Returned []
  ↔ ∀ search_key qualified,
      (search_key, qualified)
        ∈ get_searchable_candidates_for_scope
            (loaded_index (mkRaw scenario None) "dev" 0) ScopeTable None None →
      Qlt (plain_ratio (strip (lower "zzz")) search_key) (inject_Z 50).
Proof.
  apply (suggest_empty_iff plain_ratio (mkRaw scenario None) "dev" 0 ScopeTable
           "zzz" None None 50 5).
  - vm_compute. reflexivity.
  - vm_compute. reflexivity.
  - lia.
Defined.

(** ** The registry *)

Lemma load_returned_is_loaded file environment now c c' :
  load file environment now c = (Returned tt, c') → is_loaded c' = true.
Proof.
  destruct file as [| |data]; [done..|]. unfold load.
  rewrite bind_modify, bind_run.
  destruct (_build_from_pickled data _) as [[[]|e] c1]; [|done].
  by intros [= <-].
Qed.

Lemma load_environment_cache files now results self env env' :
  get_cache (load_environment files now (results, self) env).2 env'
  = if decide (env = env') then
      if loads files now env
      then Some (load (files env) env (now env) empty_cache).2
      else get_cache self env
    else get_cache self env'.
Proof.
  unfold load_environment, loads, get_cache.
  destruct (files env) eqn:Hfile.
  - cbn [load raise fst snd]. by case_decide; [subst|].
  - cbn [load raise fst snd]. by case_decide; [subst|].
  - destruct (load (Pickled data) env (now env) empty_cache) as [[[]|e] cache];
      cbn [fst snd _caches]; rewrite ?dict_get_set; by case_decide; [subst|].
Qed.

Lemma load_all_cache files now environments state env :
  get_cache (foldl (load_environment files now) state environments).2 env
  = if bool_decide (env ∈ environments) && loads files now env
    then Some (load (files env) env (now env) empty_cache).2
    else get_cache state.2 env.
Proof.
  revert state. induction environments as [|e environments IH];
    intros [results self]; [done|].
  cbn [foldl]. rewrite IH, load_environment_cache. clear IH. cbn [snd].
  destruct (decide (e = env)) as [->|Hne].
  - rewrite (bool_decide_eq_true_2 (env ∈ env :: environments)) by left.
    destruct (bool_decide (env ∈ environments)), (loads files now env); done.
  - assert (bool_decide (env ∈ e :: environments)
            = bool_decide (env ∈ environments)) as ->; [|done].
    apply bool_decide_ext. set_solver.
Qed.

Lemma dict_nonempty_iff {K V} `{EqDecision K} (d : list (K * V)) :
  0 < length d ↔ ∃ k, is_Some (dict_get k d).
Proof.
  destruct d as [|[k v] d]; simpl.
  - split; [lia|]. by intros [k [v ?]].
  - split; [|lia]. intros _. exists k. by rewrite decide_True.
Qed.

Lemma load_environment_available files now results self env :
  _available_environments (load_environment files now (results, self) env).2
  = _available_environments self ++ (if loads files now env then [env] else []).
Proof.
  unfold load_environment, loads.
  destruct (files env) eqn:Hfile.
  - cbn [load raise fst snd]. by rewrite app_nil_r.
  - cbn [load raise fst snd]. by rewrite app_nil_r.
  - destruct (load (Pickled data) env (now env) empty_cache) as [[[]|e] cache];
      cbn [fst snd _available_environments]; by rewrite ?app_nil_r.
Qed.

Lemma load_all_available files now environments state :
  _available_environments
    (foldl (load_environment files now) state environments).2
  = _available_environments state.2
    ++ filter (λ env, loads files now env) environments.
Proof.
  revert state. induction environments as [|e environments IH];
    intros [results self]; cbn [foldl].
  - by rewrite filter_nil, app_nil_r.
  - rewrite IH, load_environment_available, filter_cons. cbn [snd].
    rewrite <-app_assoc. by destruct (loads files now e).
Qed.

Lemma load_environment_status files now results self env env' :
  dict_get env' (load_environment files now (results, self) env).1
  = if decide (env = env')
    then dict_get env (load_environment files now ([], new_manager) env).1
    else dict_get env' results.
Proof.
  unfold load_environment.
  destruct (files env) eqn:Hfile.
  - cbn [fst]. rewrite !dict_get_set. by case_decide; [subst; rewrite decide_True|].
  - destruct (load Corrupt env (now env) empty_cache) as [[[]|e] cache];
      cbn [fst]; rewrite !dict_get_set;
      by case_decide; [subst; rewrite decide_True|].
  - destruct (load (Pickled data) env (now env) empty_cache) as [[[]|e] cache];
      cbn [fst]; rewrite !dict_get_set;
      by case_decide; [subst; rewrite decide_True|].
Qed.

Lemma load_all_status files now environments state env :
  dict_get env (foldl (load_environment files now) state environments).1
  = if bool_decide (env ∈ environments)
    then dict_get env (load_environment files now ([], new_manager) env).1
    else dict_get env state.1.
Proof.
  revert state. induction environments as [|e environments IH];
    intros [results self]; [done|].
  cbn [foldl]. rewrite IH.
  rewrite (load_environment_status files now results self e env).
  clear IH. cbn [fst].
  destruct (decide (e = env)) as [->|Hne].
  - rewrite (bool_decide_eq_true_2 (env ∈ env :: environments)) by left.
    by destruct (bool_decide (env ∈ environments)).
  - assert (bool_decide (env ∈ e :: environments)
            = bool_decide (env ∈ environments)) as ->; [|done].
    apply bool_decide_ext. set_solver.
Qed.

Lemma loads_is_loaded files now env :
  loads files now env = true →
  is_loaded (load (files env) env (now env) empty_cache).2 = true.
Proof.
  unfold loads.
  destruct (load (files env) env (now env) empty_cache) as [[[]|e] cache]
    eqn:Hload; [|done].
  intros _. by apply load_returned_is_loaded in Hload.
Qed.

Lemma is_environment_loaded_startup files now environments env :
  is_environment_loaded
    (load_all_environments files now environments new_manager).2 env
  = bool_decide (env ∈ environments) && loads files now env.
Proof.
  unfold is_environment_loaded, load_all_environments.
  rewrite load_all_cache. cbn [snd].
  destruct (bool_decide (env ∈ environments)); [|done].
  destruct (loads files now env) eqn:Hloads; [|done].
  cbn [andb]. by apply loads_is_loaded.
Qed.

Lemma is_any_loaded_startup files now environments :
  is_any_loaded (load_all_environments files now environments new_manager).2
  = existsb (loads files now) environments.
Proof.
  apply eq_true_iff_eq. unfold is_any_loaded.
  rewrite bool_decide_eq_true, dict_nonempty_iff, existsb_exists.
  unfold load_all_environments.
  split.
  - intros [env Hsome]. fold (get_cache
      (foldl (load_environment files now) ([], new_manager) environments).2 env)
      in Hsome.
    rewrite load_all_cache in Hsome. exists env.
    destruct (bool_decide_reflect (env ∈ environments)) as [Hin|];
      [|by destruct Hsome].
    destruct (loads files now env); [|by destruct Hsome].
    split; [by apply list_elem_of_In|done].
  - intros (env & Hin & Hloads). exists env.
    fold (get_cache
      (foldl (load_environment files now) ([], new_manager) environments).2 env).
    rewrite load_all_cache, Hloads, bool_decide_eq_true_2; [done|].
    by apply list_elem_of_In.
Qed.

(** X13.  After [load_all_environments], the registry holds for an
    environment of the configured list whose load returned the index
    that load built from an empty cache, whatever was registered for
    it before; for every other environment, also one whose load
    failed, it holds what it held before. *)
Theorem registry_after_load_all files now environments self env :
  get_cache (load_all_environments files now environments self).2 env
  = if bool_decide (env ∈ environments) && loads files now env
    then Some (load (files env) env (now env) empty_cache).2
    else get_cache self env.
Proof. unfold load_all_environments. by rewrite load_all_cache. Qed.

(** X14.  [load_all_environments] appends to the list of available
    environments the configured environments whose load returned, in
    the configured order and once per occurrence. *)
Theorem available_after_load_all files now environments self :
  available_environments (load_all_environments files now environments self).2
  = available_environments self
    ++ filter (λ env, loads files now env) environments.
Proof.
  unfold available_environments, load_all_environments.
  by rewrite load_all_available.
Qed.

(** X15.  After start-up from an empty registry, the three views of
    the registry agree: an environment is reported loaded exactly when
    it is in the list of available environments, exactly when a cache
    is registered for it. *)
Theorem loaded_views_agree files now environments env :
  let manager := (load_all_environments files now environments new_manager).2 in
  is_environment_loaded manager env
  = bool_decide (env ∈ available_environments manager)
  ∧ (is_Some (get_cache manager env)
     ↔ env ∈ available_environments manager).
Proof.
  cbn zeta. rewrite is_environment_loaded_startup.
  unfold available_environments, load_all_environments.
  rewrite load_all_available, load_all_cache. cbn [snd new_manager
    _available_environments app].
  assert (env ∈ filter (λ env, loads files now env) environments
          ↔ env ∈ environments ∧ loads files now env = true) as Hfilter.
  { rewrite list_elem_of_filter, Is_true_true. tauto. }
  split.
  - apply eq_true_iff_eq.
    rewrite andb_true_iff, !bool_decide_eq_true. tauto.
  - rewrite Hfilter.
    destruct (bool_decide_reflect (env ∈ environments)) as [Hin|Hout],
      (loads files now env); cbn [andb get_cache new_manager _caches dict_get];
      split; try (by intros []); try (by intros [? ?]); eauto.
Qed.

(** X16.  After start-up from an empty registry, some cache is loaded
    exactly when the load of some configured environment returned. *)
Theorem is_any_loaded_after_startup files now environments :
  is_any_loaded (load_all_environments files now environments new_manager).2
  = true
  ↔ ∃ env, env ∈ environments ∧ loads files now env = true.
Proof.
  rewrite is_any_loaded_startup, existsb_exists.
  by setoid_rewrite list_elem_of_In.
Qed.

(** X17.  The report of [load_all_environments] agrees with the
    registry it leaves: it has a status for exactly the configured
    environments, the status is the loaded one exactly when a cache is
    registered, with the sizes of that cache, and it is the
    file-not-found one exactly when there is no file. *)
Theorem load_report_matches_registry files now environments env :
  let state := load_all_environments files now environments new_manager in
  (is_Some (dict_get env state.1) ↔ env ∈ environments)
  ∧ (∀ n k,
       dict_get env state.1 = Some (StatusLoaded n k)
       ↔ ∃ cache, get_cache state.2 env = Some cache
                  ∧ n = size (schemas_set cache)
                  ∧ k = size (tables_set cache))
  ∧ (dict_get env state.1 = Some StatusFileNotFound
     ↔ env ∈ environments ∧ files env = Absent).
Proof.
  cbn zeta. unfold load_all_environments.
  rewrite load_all_status, load_all_cache. cbn [fst snd].
  unfold loads, load_environment, get_cache.
  destruct (bool_decide_reflect (env ∈ environments)) as [Hin|Hout];
    cbn [andb new_manager _caches dict_get]; [|naive_solver].
  destruct (files env) eqn:Hfile.
  - cbn [load raise fst snd dict_set dict_get]. rewrite decide_True by done.
    naive_solver.
  - cbn [load raise fst snd dict_set dict_get]. rewrite decide_True by done.
    naive_solver.
  - destruct (load (Pickled data) env (now env) empty_cache)
      as [[[]|e] cache]; cbn [fst snd dict_set dict_get];
      rewrite decide_True by done; naive_solver.
Qed.

(** X18.  After start-up from an empty registry, the validation
    endpoint answers with the validator's response over the index
    loaded for the requested environment when that load returned;
    otherwise it raises 400 when some other configured environment
    loaded and 503 when none did. *)
Theorem validate_endpoint_after_startup WRatio matcher files now environments
    env scope search_term context :
  validate_endpoint WRatio matcher
    (load_all_environments files now environments new_manager).2
    env scope search_term context
  = if bool_decide (env ∈ environments) && loads files now env
    then Returned
           (validate WRatio
              (mkValidator (load (files env) env (now env) empty_cache).2
                           matcher)
              scope search_term context)
    else Raised (HTTPException
                   (if existsb (loads files now) environments
                    then 400 else 503)).
Proof.
  unfold validate_endpoint.
  rewrite is_any_loaded_startup.
  unfold load_all_environments. rewrite load_all_cache.
  cbn [snd new_manager get_cache _caches dict_get].
  destruct (bool_decide_reflect (env ∈ environments)) as [Hin|Hout].
  - destruct (loads files now env) eqn:Hloads; cbn [andb].
    + assert (existsb (loads files now) environments = true) as ->.
      { apply existsb_exists. exists env. by rewrite <-list_elem_of_In. }
      cbn [negb]. by rewrite loads_is_loaded.
    + by destruct (existsb (loads files now) environments).
  - cbn [andb]. by destruct (existsb (loads files now) environments).
Qed.

(** X19.  After start-up from an empty registry, a request for a
    configured environment whose file holds a well-typed snapshot is
    never refused: the registry holds the index of that snapshot and
    the endpoint returns the validator's response over it. *)
Theorem validate_endpoint_on_snapshot WRatio matcher files now environments
    env data scope search_term context :
  env ∈ environments →
  files env = Pickled (raw_to_py data) →
  let manager := (load_all_environments files now environments new_manager).2 in
  get_cache manager env = Some (loaded_index data env (now env))
  ∧ validate_endpoint WRatio matcher manager env scope search_term context
    = Returned
        (validate WRatio
           (mkValidator (loaded_index data env (now env)) matcher)
           scope search_term context).
Proof.
  intros Hin Hfile. cbn zeta.
  assert (loads files now env = true) as Hloads.
  { unfold loads. by rewrite Hfile, load_typed. }
  assert (get_cache (load_all_environments files now environments new_manager).2
            env = Some (loaded_index data env (now env))) as Hcache.
  { unfold load_all_environments, loaded_index.
    by rewrite load_all_cache, Hloads, bool_decide_eq_true_2, Hfile. }
  split; [done|].
  unfold validate_endpoint. rewrite Hcache.
  assert (is_any_loaded
            (load_all_environments files now environments new_manager).2
          = true) as ->.
  { rewrite is_any_loaded_startup. apply existsb_exists. exists env.
    by rewrite <-list_elem_of_In. }
  cbn [negb]. by rewrite loaded_index_eq.
Qed.

Lemma validate_endpoint_on_snapshot_witness :
  let manager :=
    (load_all_environments one_snapshot (λ _, 0%Z) ["prod"; "dev"]
       new_manager).2 in
  get_cache manager "prod" = Some (loaded_index (mkRaw scenario None) "prod" 0)
  ∧ validate_endpoint plain_ratio default_matcher manager "prod" ScopeTable
      "student" None
    = Returned
        (validate plain_ratio
           (mkValidator (loaded_index (mkRaw scenario None) "prod" 0)
                        default_matcher)
           ScopeTable "student" None).
Proof.
  apply (validate_endpoint_on_snapshot plain_ratio default_matcher one_snapshot
           (λ _, 0%Z) ["prod"; "dev"] "prod" (mkRaw scenario None)).
  - left.
  - reflexivity.
Defined.

(** ** Qualified candidates *)

Lemma startswith_app a p s : startswith (a +:+ p) (a +:+ s) = startswith p s.
Proof.
  induction a as [|x a IH]; simpl; [done|].
  by rewrite bool_decide_eq_true_2.
Qed.

Lemma startswith_dotted a s : startswith (a +:+ ".") (a +:+ "." +:+ s) = true.
Proof. by rewrite startswith_app. Qed.

Lemma listed_reset c : qualified_listed (_reset_structures c).
Proof.
  split; unfold _reset_structures; cache_simpl; intros *; by intros ?%elem_of_nil.
Qed.

Lemma listed_set_schemas v c :
  qualified_listed c → qualified_listed (set_schemas v c).
Proof. intros []. split; cache_simpl; assumption. Qed.

Lemma listed_register_schema sn c :
  qualified_listed c → qualified_listed (register_schema sn c).
Proof.
  intros [Ht Hc]. split; unfold register_schema; cache_simpl; [|assumption].
  intros s names t [[= -> ->]|Hin]%elem_of_dict_set Ht'; [set_solver|eauto].
Qed.

Lemma listed_register_table sn tn c :
  qualified_listed c → qualified_listed (register_table sn tn c).
Proof.
  intros [Ht Hc].
  split; unfold register_table; case_decide; cache_simpl.
  1,2: intros s names t [Hin|(names0 & Hin & [= -> ->])]%elem_of_dict_alter Ht';
    apply elem_of_app;
    [left; eauto
    |apply elem_of_union in Ht' as [->%elem_of_singleton|Ht'];
       [right; rewrite <-lower_dotted; left|left; eauto]].
  1,2: intros s t names col [[= -> -> ->]|Hin]%elem_of_dict_set Hcol;
    [set_solver|eauto].
Qed.

Lemma listed_register_column sn tn cn c :
  qualified_listed c → qualified_listed (register_column sn tn cn c).
Proof.
  intros [Ht Hc].
  split; unfold register_column; case_decide; cache_simpl; try assumption.
  1,2: intros s t names col
         [Hin|(names0 & Hin & [= -> -> ->])]%elem_of_dict_alter Hcol;
    apply elem_of_app;
    [left; eauto
    |apply elem_of_union in Hcol as [->%elem_of_singleton|Hcol];
       [right; rewrite <-!lower_dotted; left|left; eauto]].
Qed.

Lemma listed_build_schemas (raw : RawSchemas) c :
  qualified_listed c → qualified_listed (build_schemas raw c).
Proof.
  revert c. induction raw as [|[sn tables] raw IH]; intros c Hc; [done|].
  rewrite build_schemas_cons. apply IH. clear IH.
  apply (listed_register_schema sn) in Hc. revert Hc.
  generalize (register_schema sn c). clear c.
  induction tables as [|[tn cols] tables IH]; intros c Hc; [done|].
  rewrite build_tables_cons. apply IH. clear IH.
  apply (listed_register_table sn tn) in Hc. revert Hc.
  generalize (register_table sn tn c). clear c.
  induction cols as [|cn cols IH]; intros c Hc; [done|].
  rewrite build_columns_cons. by apply IH, (listed_register_column sn tn cn).
Qed.

Lemma listed_build data c : qualified_listed (_build_from_raw_data data c).
Proof.
  unfold _build_from_raw_data.
  apply listed_build_schemas, listed_set_schemas, listed_reset.
Qed.

Lemma filtered_out_false ctx name :
  filtered_out ctx name = false →
  truthy_opt ctx = true → lower (default "" ctx) = name.
Proof.
  unfold filtered_out. intros H Ht. rewrite Ht in H. cbn [andb] in H.
  by apply negb_false_iff, bool_decide_eq_true in H.
Qed.

(** X20.  In the index of a snapshot whose names are ASCII the two
    candidate listings agree in one direction under every filter: the
    qualified name of each searchable candidate is among the qualified
    candidates for the same scope, schema and table. *)
Theorem searchable_within_qualified data c0 scope schema table search_key
    qualified :
  ascii_names (raw_schemas data) = true →
  (search_key, qualified)
    ∈ get_searchable_candidates_for_scope (_build_from_raw_data data c0) scope
        schema table →
  qualified
    ∈ get_qualified_candidates_for_scope (_build_from_raw_data data c0) scope
        schema table.
Proof.
  intros _ Hin%elem_of_searchable.
  destruct (listed_build data c0) as [Ht Hc].
  destruct scope; unfold get_qualified_candidates_for_scope.
  - by destruct Hin as [? ->].
  - destruct Hin as (s & names & Hs & Hk & -> & Hf).
    specialize (Ht _ _ _ Hs Hk).
    destruct (truthy_opt schema) eqn:Hschema; [|done].
    apply list_elem_of_filter. split; [|done].
    rewrite (filtered_out_false _ _ Hf Hschema). apply startswith_dotted.
  - destruct Hin as (s & t & names & Hs & Hk & -> & Hf & Hg).
    specialize (Hc _ _ _ _ Hs Hk).
    destruct (truthy_opt schema) eqn:Hschema; [|done].
    rewrite (filtered_out_false _ _ Hf Hschema).
    destruct (truthy_opt table) eqn:Htable; cbn [andb].
    + apply list_elem_of_filter. split; [|done].
      rewrite (filtered_out_false _ _ Hg Htable).
      rewrite startswith_app, (startswith_app "."). apply startswith_dotted.
    + apply list_elem_of_filter. split; [|done]. apply startswith_dotted.
Qed.

Lemma searchable_within_qualified_witness :
  let c := _build_from_raw_data (mkRaw scenario None) empty_cache in
  ascii_names scenario = true
  ∧ ("student", "public.student")
      ∈ get_searchable_candidates_for_scope c ScopeTable (Some "PUBLIC") None
  ∧ "public.student"
      ∈ get_qualified_candidates_for_scope c ScopeTable (Some "PUBLIC") None.
Proof.
  assert (ascii_names (raw_schemas (mkRaw scenario None)) = true) as Hascii
    by (vm_compute; reflexivity).
  assert (("student", "public.student")
            ∈ get_searchable_candidates_for_scope
                (_build_from_raw_data (mkRaw scenario None) empty_cache)
                ScopeTable (Some "PUBLIC") None) as Hin.
  { vm_compute. left. }
  split; [exact Hascii|]. split; [exact Hin|].
  exact (searchable_within_qualified (mkRaw scenario None) empty_cache
           ScopeTable (Some "PUBLIC") None "student" "public.student"
           Hascii Hin).
Defined.

(** ** The ingestion script *)

Lemma Forall_dict_set {K V} `{EqDecision K} (Q : K * V → Prop) k v d :
  Forall Q d → Q (k, v) → Forall Q (dict_set k v d).
Proof.
  intros Hd Hkv. induction Hd as [|[k0 v0] d H0 Hd IH]; simpl.
  - by constructor.
  - destruct (decide (k0 = k)) as [->|]; constructor; auto.
Qed.

Lemma dict_get_Forall {K V} `{EqDecision K} (Q : K * V → Prop) k v d :
  Forall Q d → dict_get k d = Some v → Q (k, v).
Proof.
  intros Hd Hk%dict_get_Some_elem. rewrite Forall_forall in Hd. auto.
Qed.

Lemma dict_set_keys_elem {K V} `{EqDecision K} (k : K) (v : V) d x :
  x ∈ (dict_set k v d).*1 → x = k ∨ x ∈ d.*1.
Proof.
  intros ([k' v'] & -> & [[= -> ->]|Hin]%elem_of_dict_set)%list_elem_of_fmap;
    [by left|right].
  apply list_elem_of_fmap. by exists (k', v').
Qed.

Lemma NoDup_dict_set {K V} `{EqDecision K} (k : K) (v : V) d :
  NoDup d.*1 → NoDup (dict_set k v d).*1.
Proof.
  induction d as [|[k0 v0] d IH]; simpl; intros Hd.
  - apply NoDup_singleton.
  - apply NoDup_cons in Hd as [Hk0 Hd].
    destruct (decide (k0 = k)) as [->|Hne]; simpl; apply NoDup_cons.
    + done.
    + split; [|auto]. by intros [->|?]%dict_set_keys_elem.
Qed.

Lemma dict_set_not_nil {K V} `{EqDecision K} (k : K) (v : V) d :
  dict_set k v d ≠ [].
Proof. destruct d as [|[k0 v0] d]; simpl; [done|]. by case_decide. Qed.

Lemma sum_dict_set {K V} `{EqDecision K} (w : K * V → nat) k v d :
  sum_list (w <$> dict_set k v d)
  + from_option (λ v0, w (k, v0)) 0 (dict_get k d)
  = sum_list (w <$> d) + w (k, v).
Proof.
  induction d as [|[k0 v0] d IH]; simpl; [lia|].
  destruct (decide (k0 = k)) as [->|]; unfold fmap in *; simpl in *; lia.
Qed.

Lemma sum_list_bind {A} (f : A → list nat) l :
  sum_list (l ≫= f) = sum_list ((λ x, sum_list (f x)) <$> l).
Proof.
  induction l as [|x l IH]; [done|].
  rewrite bind_cons, sum_list_with_app, fmap_cons. simpl. by rewrite IH.
Qed.

Lemma length_le_sum {A} (f : A → nat) l :
  Forall (λ x, 1 ≤ f x) l → length l ≤ sum_list (f <$> l).
Proof. induction 1; unfold fmap in *; simpl in *; lia. Qed.

Lemma sum_list_le {A} (f g : A → nat) l :
  Forall (λ x, f x ≤ g x) l → sum_list (f <$> l) ≤ sum_list (g <$> l).
Proof. induction 1; unfold fmap in *; simpl in *; lia. Qed.

Lemma add_column_names (P : string → Prop) s t c raw :
  P s → P t → P c → names_satisfy P raw → names_satisfy P (add_column s t c raw).
Proof.
  intros Hs Ht Hc Hraw. unfold add_column, names_satisfy.
  set (tables := default [] (dict_get s raw)).
  assert (Forall (λ tc : string * list string, P tc.1 ∧ Forall P tc.2) tables)
    as Htables.
  { subst tables. destruct (dict_get s raw) as [tables|] eqn:Hget; simpl;
      [|constructor].
    by apply (dict_get_Forall _ _ _ _ Hraw) in Hget as [_ ?]. }
  set (cols := default [] (dict_get t tables)).
  assert (Forall P cols) as Hcols.
  { subst cols. destruct (dict_get t tables) as [cols|] eqn:Hget; simpl;
      [|constructor].
    by apply (dict_get_Forall _ _ _ _ Htables) in Hget as [_ ?]. }
  apply Forall_dict_set; [done|]. split; [done|]. cbn [snd].
  apply Forall_dict_set; [done|]. split; [done|]. cbn [snd].
  case_bool_decide; [done|]. apply Forall_app. split; [done|]. by constructor.
Qed.

Lemma add_column_well_formed s t c raw :
  csv_well_formed raw → csv_well_formed (add_column s t c raw).
Proof.
  intros [Hkeys Hraw]. unfold add_column.
  set (tables := default [] (dict_get s raw)).
  assert (NoDup tables.*1
          ∧ Forall (λ tc : string * list string, tc.2 ≠ [] ∧ NoDup tc.2) tables)
    as [Htk Htables].
  { subst tables. destruct (dict_get s raw) as [tables|] eqn:Hget; simpl;
      [|split; constructor].
    by apply (dict_get_Forall _ _ _ _ Hraw) in Hget as (_ & ? & ?). }
  set (cols := default [] (dict_get t tables)).
  assert (NoDup cols) as Hcols.
  { subst cols. destruct (dict_get t tables) as [cols|] eqn:Hget; simpl;
      [|constructor].
    by apply (dict_get_Forall _ _ _ _ Htables) in Hget as [_ ?]. }
  split; [by apply NoDup_dict_set|].
  apply Forall_dict_set; [done|]. cbn [snd]. split_and!.
  - apply dict_set_not_nil.
  - by apply NoDup_dict_set.
  - apply Forall_dict_set; [done|]. cbn [snd]. split.
    + case_bool_decide as Hin; [intros Hnil; rewrite Hnil in Hin;
        by apply elem_of_nil in Hin|by destruct cols].
    + case_bool_decide; [done|]. apply NoDup_app. split_and!; [done| |
        apply NoDup_singleton].
      by intros x Hx ->%list_elem_of_singleton.
Qed.

Lemma add_column_total s t c raw :
  sum_list (add_column s t c raw ≫= λ st : string * RawTables,
              (λ tc : string * list string, length tc.2) <$> st.2)
  ≤ S (sum_list (raw ≫= λ st : string * RawTables,
                   (λ tc : string * list string, length tc.2) <$> st.2)).
Proof.
  rewrite !sum_list_bind. unfold add_column.
  set (w2 := λ tc : string * list string, length tc.2).
  set (w1 := λ st : string * RawTables, sum_list (w2 <$> st.2)).
  set (tables := default [] (dict_get s raw)).
  set (cols := default [] (dict_get t tables)).
  set (cols' := if bool_decide (c ∈ cols) then cols else cols ++ [c]).
  pose proof (sum_dict_set w1 s (dict_set t cols' tables) raw) as H1.
  pose proof (sum_dict_set w2 t cols' tables) as H2.
  assert (from_option (λ v0, w1 (s, v0)) 0 (dict_get s raw)
          = sum_list (w2 <$> tables)) as H3.
  { subst tables. by destruct (dict_get s raw). }
  assert (from_option (λ v0, w2 (t, v0)) 0 (dict_get t tables) = length cols)
    as H4.
  { subst cols. by destruct (dict_get t tables). }
  assert (length cols' ≤ S (length cols)) as H5.
  { subst cols'. case_bool_decide; [lia|]. rewrite length_app. simpl. lia. }
  rewrite H3 in H1. rewrite H4 in H2.
  change (w1 (s, dict_set t cols' tables))
    with (sum_list (w2 <$> dict_set t cols' tables)) in H1.
  change (w2 (t, cols')) with (length cols') in H2. lia.
Qed.

Lemma csv_columns_add s t c raw s' t' c' :
  c' ∈ csv_columns (add_column s t c raw) s' t'
  ↔ c' ∈ csv_columns raw s' t' ∨ (s' = s ∧ t' = t ∧ c' = c).
Proof.
  unfold csv_columns, add_column. rewrite dict_get_set.
  destruct (decide (s = s')) as [->|]; cbn [default from_option id];
    [|naive_solver].
  rewrite dict_get_set.
  destruct (decide (t = t')) as [->|]; cbn [default from_option id];
    [|naive_solver].
  case_bool_decide; [naive_solver|].
  rewrite elem_of_app, list_elem_of_singleton. naive_solver.
Qed.

Lemma skip_row s t c :
  negb (truthy s) || negb (truthy t) || negb (truthy c)
  = negb (truthy s && truthy t && truthy c).
Proof. by destruct (truthy s), (truthy t), (truthy c). Qed.

Lemma load_csv_row_Some sc tc cc state row state' :
  load_csv_row sc tc cc state row = Some state'
  ↔ ∃ s t c,
      csv_cell row sc = Some s ∧ csv_cell row tc = Some t
      ∧ csv_cell row cc = Some c
      ∧ state' = if truthy s && truthy t && truthy c
                 then (add_column s t c state.1, S state.2) else state.
Proof.
  unfold load_csv_row.
  destruct (csv_cell row sc) as [s|], (csv_cell row tc) as [t|],
    (csv_cell row cc) as [c|]; simpl; try naive_solver.
  rewrite skip_row. split.
  - intros H. exists s, t, c. split_and!; [done..|].
    destruct (truthy s && truthy t && truthy c); simpl in H; by injection H as <-.
  - intros (? & ? & ? & [= <-] & [= <-] & [= <-] & ->).
    by destruct (truthy s && truthy t && truthy c).
Qed.

Lemma load_csv_rows_invariant (I : RawSchemas → nat → Prop) sc tc cc :
  (∀ raw n s t c, I raw n → truthy s = true → truthy t = true →
                  truthy c = true → I (add_column s t c raw) (S n)) →
  ∀ rows state state',
    I state.1 state.2 →
    load_csv_rows sc tc cc state rows = Some state' → I state'.1 state'.2.
Proof.
  intros Hstep rows. induction rows as [|row rows IH]; intros state state' HI;
    simpl.
  - by intros [= <-].
  - destruct (load_csv_row sc tc cc state row) as [state1|] eqn:Hrow; simpl;
      [|done].
    apply IH. apply load_csv_row_Some in Hrow as (s & t & c & _ & _ & _ & ->).
    destruct (truthy s) eqn:?, (truthy t) eqn:?, (truthy c) eqn:?; simpl; auto.
Qed.

Lemma load_csv_rows_columns sc tc cc rows state state' s t c :
  load_csv_rows sc tc cc state rows = Some state' →
  c ∈ csv_columns state'.1 s t
  ↔ c ∈ csv_columns state.1 s t
    ∨ ∃ row, row ∈ rows ∧ csv_cell row sc = Some s ∧ csv_cell row tc = Some t
             ∧ csv_cell row cc = Some c
             ∧ truthy s && truthy t && truthy c = true.
Proof.
  revert state. induction rows as [|row rows IH]; intros state; simpl.
  - intros [= <-]. split; [by left|]. intros [?|(? & []%elem_of_nil & _)]. done.
  - destruct (load_csv_row sc tc cc state row) as [state1|] eqn:Hrow; simpl;
      [|done].
    intros Hrows. rewrite (IH _ Hrows). clear IH Hrows.
    apply load_csv_row_Some in Hrow as (s0 & t0 & c0 & Hs & Ht & Hc & ->).
    setoid_rewrite elem_of_cons.
    destruct (truthy s0 && truthy t0 && truthy c0) eqn:Hkept; cbn [fst].
    + rewrite csv_columns_add. split.
      * intros [[?|(-> & -> & ->)]|(r & ? & ?)]; [by left|right..].
        -- exists row. by split_and!; [left|..].
        -- exists r. by split; [right|].
      * intros [?|(r & [->|?] & Hr)]; [by left; left| |right; by exists r].
        destruct Hr as (Hs' & Ht' & Hc' & _).
        rewrite Hs in Hs'. rewrite Ht in Ht'. rewrite Hc in Hc'.
        injection Hs' as ->. injection Ht' as ->. injection Hc' as ->.
        left. by right.
    + split.
      * intros [?|(r & ? & ?)]; [by left|right]. exists r. by split; [right|].
      * intros [?|(r & [->|?] & Hr)]; [by left| |right; by exists r].
        destruct Hr as (Hs' & Ht' & Hc' & Hk).
        rewrite Hs in Hs'. rewrite Ht in Ht'. rewrite Hc in Hc'.
        injection Hs' as ->. injection Ht' as ->. injection Hc' as ->.
        by rewrite Hk in Hkept.
Qed.

Lemma load_csv_rows_count sc tc cc rows state state' :
  load_csv_rows sc tc cc state rows = Some state' →
  state'.2 ≤ state.2 + length rows.
Proof.
  revert state. induction rows as [|row rows IH]; intros state; simpl.
  - intros [= <-]. lia.
  - destruct (load_csv_row sc tc cc state row) as [state1|] eqn:Hrow; simpl;
      [|done].
    intros Hrows%IH.
    apply load_csv_row_Some in Hrow as (s & t & c & _ & _ & _ & ->).
    destruct (truthy s && truthy t && truthy c); simpl in *; lia.
Qed.

Lemma load_csv_rows_is_Some sc tc cc rows state :
  is_Some (load_csv_rows sc tc cc state rows)
  ↔ Forall (λ row : gmap string string,
              is_Some (row !! sc) ∧ is_Some (row !! tc) ∧ is_Some (row !! cc))
           rows.
Proof.
  revert state. induction rows as [|row rows IH]; intros state; simpl.
  - split; [constructor|done].
  - rewrite Forall_cons, <-(IH state).
    unfold load_csv_row, csv_cell.
    destruct (row !! sc) as [s|], (row !! tc) as [t|], (row !! cc) as [c|];
      simpl; try (split; [by intros []|by intros [(?&?&?) _]; by destruct_and?;
        match goal with H : is_Some None |- _ => destruct H as [? [=]] end]).
    rewrite skip_row.
    destruct (truthy (strip s) && truthy (strip t) && truthy (strip c)); simpl.
    + rewrite (IH (_, _)), <-(IH state). naive_solver.
    + naive_solver.
Qed.

Lemma load_csv_inr fieldnames rows sc tc cc now data n :
  load_csv fieldnames rows sc tc cc now = inr (data, n) →
  load_csv_rows sc tc cc ([], 0) rows = Some (raw_schemas data, n).
Proof.
  unfold load_csv. case_bool_decide; [done|].
  destruct (negb _); [done|].
  destruct (load_csv_rows sc tc cc ([], 0) rows) as [[schemas k]|]; [|done].
  by intros [= <- <-].
Qed.

Lemma names_flat (P : string → Prop) raw :
  names_satisfy P raw →
  Forall P (schema_names raw ++ table_names raw ++ column_names raw).
Proof.
  unfold names_satisfy. rewrite !Forall_app, !Forall_forall. intros H.
  unfold schema_names, table_names, column_names, table_entries. split_and!.
  - intros x ([s ts] & -> & Hin)%list_elem_of_fmap. by apply H in Hin as [? _].
  - intros x (e & -> & (st & (tc & -> & Htc)%list_elem_of_fmap & Hst)
                %list_elem_of_bind)%list_elem_of_fmap.
    apply H in Hst as [_ Hts]. rewrite Forall_forall in Hts.
    by apply Hts in Htc as [? _].
  - intros x (e & Hx & (st & (tc & -> & Htc)%list_elem_of_fmap & Hst)
                %list_elem_of_bind)%list_elem_of_bind.
    apply H in Hst as [_ Hts]. rewrite Forall_forall in Hts.
    apply Hts in Htc as [_ Hcols]. rewrite Forall_forall in Hcols. auto.
Qed.

Lemma csv_columns_names raw s t c :
  c ∈ csv_columns raw s t →
  s ∈ schema_names raw ∧ t ∈ table_names raw ∧ c ∈ column_names raw.
Proof.
  unfold csv_columns.
  destruct (dict_get s raw) as [tables|] eqn:Hs; simpl;
    [|by intros ?%elem_of_nil].
  destruct (dict_get t tables) as [cols|] eqn:Ht; simpl;
    [|by intros ?%elem_of_nil].
  apply dict_get_Some_elem in Hs, Ht. intros Hc.
  assert ((s, t, cols) ∈ table_entries raw) as He.
  { apply list_elem_of_bind. exists (s, tables). split; [|done].
    apply list_elem_of_fmap. by exists (t, cols). }
  split_and!.
  - apply list_elem_of_fmap. by exists (s, tables).
  - apply list_elem_of_fmap. by exists (s, t, cols).
  - apply list_elem_of_bind. by exists (s, t, cols).
Qed.

Lemma load_csv_rows_well_formed sc tc cc rows state' :
  load_csv_rows sc tc cc ([], 0) rows = Some state' → csv_well_formed state'.1.
Proof.
  intros Hrows.
  apply (load_csv_rows_invariant (λ raw _, csv_well_formed raw)) in Hrows;
    [done| |by split; constructor].
  intros raw n s t c Hraw _ _ _. by apply add_column_well_formed.
Qed.

(** X21.  A snapshot [load_csv] returns names no schema, table or
    column by the empty string. *)
Theorem load_csv_names_nonempty fieldnames rows schema_col table_col column_col
    now data row_count :
  load_csv fieldnames rows schema_col table_col column_col now
  = inr (data, row_count) →
  nonempty_names (raw_schemas data) = true.
Proof.
  intros Hrows%load_csv_inr.
  apply (load_csv_rows_invariant
           (λ raw _, names_satisfy (λ n, truthy n = true) raw)) in Hrows.
  - apply names_flat in Hrows. unfold nonempty_names.
    apply forallb_forall. intros x Hx%list_elem_of_In.
    rewrite Forall_forall in Hrows. auto.
  - intros raw n s t c Hraw Hs Ht Hc. by apply add_column_names.
  - constructor.
Qed.

Lemma load_csv_names_nonempty_witness :
  nonempty_names
    [("public", [("Student", ["Id"])])] = true.
Proof.
  apply (load_csv_names_nonempty ["schema"; "table"; "column"] sample_rows
           "schema" "table" "column" "2024-01-01"
           (mkRaw [("public", [("Student", ["Id"])])] (Some "2024-01-01")) 2).
  vm_compute. reflexivity.
Defined.

(** X22.  In a snapshot [load_csv] returns, schema names are pairwise
    different and so are the table names of a schema, every schema has
    a table, every table has a column, and no table lists a column
    twice. *)
Theorem load_csv_well_formed fieldnames rows schema_col table_col column_col
    now data row_count :
  load_csv fieldnames rows schema_col table_col column_col now
  = inr (data, row_count) →
  csv_well_formed (raw_schemas data).
Proof.
  intros Hrows%load_csv_inr. by apply load_csv_rows_well_formed in Hrows.
Qed.

Lemma load_csv_well_formed_witness :
  csv_well_formed [("public", [("Student", ["Id"])])].
Proof.
  apply (load_csv_well_formed ["schema"; "table"; "column"] sample_rows
           "schema" "table" "column" "2024-01-01"
           (mkRaw [("public", [("Student", ["Id"])])] (Some "2024-01-01")) 2).
  vm_compute. reflexivity.
Defined.

(** X23.  A snapshot [load_csv] returns lists a column under a table
    of a schema exactly when some row has these three names, stripped,
    in its three cells, none of them empty. *)
Theorem load_csv_columns fieldnames rows schema_col table_col column_col now
    data row_count s t c :
  load_csv fieldnames rows schema_col table_col column_col now
  = inr (data, row_count) →
  c ∈ csv_columns (raw_schemas data) s t
  ↔ ∃ row, row ∈ rows
           ∧ csv_cell row schema_col = Some s
           ∧ csv_cell row table_col = Some t
           ∧ csv_cell row column_col = Some c
           ∧ s ≠ "" ∧ t ≠ "" ∧ c ≠ "".
Proof.
  intros Hrows%load_csv_inr.
  rewrite (load_csv_rows_columns _ _ _ _ _ _ s t c Hrows). cbn [fst].
  unfold csv_columns at 1. cbn [dict_get default from_option id].
  setoid_rewrite andb_true_iff. setoid_rewrite andb_true_iff.
  setoid_rewrite truthy_true. split.
  - intros [[]%elem_of_nil|(row & ? & ? & ? & ? & [[? ?] ?])]. by exists row.
  - intros (row & ? & ? & ? & ? & ? & ? & ?). right. by exists row.
Qed.

Lemma load_csv_columns_witness :
  "Id" ∈ csv_columns [("public", [("Student", ["Id"])])] "public" "Student"
  ↔ ∃ row, row ∈ sample_rows
           ∧ csv_cell row "schema" = Some "public"
           ∧ csv_cell row "table" = Some "Student"
           ∧ csv_cell row "column" = Some "Id"
           ∧ "public" ≠ "" ∧ "Student" ≠ "" ∧ "Id" ≠ "".
Proof.
  apply (load_csv_columns ["schema"; "table"; "column"] sample_rows
           "schema" "table" "column" "2024-01-01"
           (mkRaw [("public", [("Student", ["Id"])])] (Some "2024-01-01")) 2).
  vm_compute. reflexivity.
Defined.

(** X24.  For what [load_csv] returns, [count_stats] counts no more
    schemas than tables and no more tables than columns, and the
    number of processed rows is at least the number of columns and at
    most the number of rows. *)
Theorem load_csv_counts fieldnames rows schema_col table_col column_col now
    data row_count :
  load_csv fieldnames rows schema_col table_col column_col now
  = inr (data, row_count) →
  (count_stats data).1.1 ≤ (count_stats data).1.2
  ∧ (count_stats data).1.2 ≤ (count_stats data).2
  ∧ (count_stats data).2 ≤ row_count
  ∧ row_count ≤ length rows.
Proof.
  intros Hrows%load_csv_inr. unfold count_stats. cbn [fst snd].
  destruct (load_csv_rows_well_formed _ _ _ _ _ Hrows) as [_ Hwf].
  cbn [fst] in Hwf.
  split_and!.
  - apply length_le_sum. eapply Forall_impl; [exact Hwf|].
    intros [s tables] [Hne _]. simpl in *. destruct tables; [done|simpl; lia].
  - rewrite sum_list_bind. apply sum_list_le.
    eapply Forall_impl; [exact Hwf|].
    intros [s tables] (_ & _ & Htables). cbn [snd] in *.
    apply length_le_sum. eapply Forall_impl; [exact Htables|].
    intros [t cols] [Hne _]. simpl in *. destruct cols; [done|simpl; lia].
  - apply (load_csv_rows_invariant
             (λ raw n, sum_list (raw ≫= λ st : string * RawTables,
                          (λ tc : string * list string, length tc.2) <$> st.2)
                       ≤ n)) in Hrows; [done| |done].
    intros raw n s t c Hraw _ _ _. pose proof (add_column_total s t c raw). lia.
  - apply load_csv_rows_count in Hrows. simpl in Hrows. lia.
Qed.

Lemma load_csv_counts_witness :
  let data := mkRaw [("public", [("Student", ["Id"])])] (Some "2024-01-01") in
  (count_stats data).1.1 ≤ (count_stats data).1.2
  ∧ (count_stats data).1.2 ≤ (count_stats data).2
  ∧ (count_stats data).2 ≤ 2
  ∧ 2 ≤ length sample_rows.
Proof.
  apply (load_csv_counts ["schema"; "table"; "column"] sample_rows
           "schema" "table" "column" "2024-01-01"
           (mkRaw [("public", [("Student", ["Id"])])] (Some "2024-01-01")) 2).
  vm_compute. reflexivity.
Defined.

(** X25.  [load_csv] returns a snapshot exactly when there are
    headers, the three configured columns are among them, and no row
    is too short for one of the three; without headers or with a
    configured column missing from them it raises [ValueError],
    whatever the rows are. *)
Theorem load_csv_returns_iff fieldnames rows schema_col table_col column_col
    now :
  ((∃ result, load_csv fieldnames rows schema_col table_col column_col now
              = inr result)
   ↔ fieldnames ≠ []
     ∧ schema_col ∈ fieldnames ∧ table_col ∈ fieldnames
     ∧ column_col ∈ fieldnames
     ∧ Forall (λ row : gmap string string,
                 is_Some (row !! schema_col) ∧ is_Some (row !! table_col)
                 ∧ is_Some (row !! column_col)) rows)
  ∧ (load_csv fieldnames rows schema_col table_col column_col now
     = inl ValueError
     ↔ fieldnames = []
       ∨ ¬ (schema_col ∈ fieldnames ∧ table_col ∈ fieldnames
            ∧ column_col ∈ fieldnames)).
Proof.
  rewrite <-(load_csv_rows_is_Some schema_col table_col column_col rows ([], 0)).
  unfold load_csv.
  case_bool_decide as Hnil.
  { split; [split; [by intros [? [=]]|by intros [? _]]|split; [by left|done]]. }
  destruct (bool_decide_reflect (schema_col ∈ fieldnames)) as [Hs|Hs];
    cbn [andb negb];
    [|split; [split; [by intros [? [=]]|by intros (_ & ? & _)]
             |split; [right; tauto|done]]].
  destruct (bool_decide_reflect (table_col ∈ fieldnames)) as [Ht|Ht];
    cbn [andb negb];
    [|split; [split; [by intros [? [=]]|by intros (_ & _ & ? & _)]
             |split; [right; tauto|done]]].
  destruct (bool_decide_reflect (column_col ∈ fieldnames)) as [Hc|Hc];
    cbn [andb negb];
    [|split; [split; [by intros [? [=]]|by intros (_ & _ & _ & ? & _)]
             |split; [right; tauto|done]]].
  destruct (load_csv_rows schema_col table_col column_col ([], 0) rows)
    as [[schemas k]|].
  - split; [split; [intros _; split_and!; eauto|eauto]
           |split; [done|intros [?|Hn]; [done|by destruct Hn]]].
  - split; [split; [by intros [? [=]]|by intros (_ & _ & _ & _ & [? [=]])]
           |split; [done|intros [?|Hn]; [done|by destruct Hn]]].
Qed.

Lemma exists_in_scope_named data c0 scope name :
  exists_in_scope (_build_from_raw_data data c0) scope name None = true
  ↔ ∃ N, N ∈ names_at scope (raw_schemas data) ∧ lower N = lower name.
Proof.
  destruct (build_sets data c0) as (Hs & Ht & Hc).
  destruct scope; simpl;
    unfold schema_exists, table_exists, column_exists; simpl;
    rewrite set_mem_true, ?Hs, ?Ht, ?Hc, elem_of_list_to_set, list_elem_of_fmap;
    naive_solver.
Qed.

Lemma validate_found WRatio data c0 matcher scope search_term context :
  truthy (strip (lower search_term)) = true →
  exists_in_scope (_build_from_raw_data data c0) scope
                  (strip (lower search_term)) context = true →
  ∃ original,
    validate WRatio (mkValidator (_build_from_raw_data data c0) matcher)
      scope search_term context
    = mkResponse VALID (Some original) None
    ∧ lower original = strip (lower search_term).
Proof.
  set (idx := _build_from_raw_data data c0).
  set (term := strip (lower search_term)).
  intros Hterm Hexists.
  assert (lower term = term) as Hlower by apply lower_normalized.
  destruct (exists_in_scope_original idx scope term context) as [original Ho];
    [apply consistent_build|done|].
  rewrite Hlower in Ho.
  assert (lower original = term) as Hcase.
  { eapply (casing_for_scope (λ k v, lower v = k)); [|done].
    apply casing_build_lower. }
  assert (truthy original = true) as Htruthy.
  { by rewrite <-truthy_lower, Hcase. }
  exists original. split; [|done].
  unfold validate, validate_staged. fold term.
  assert (_check_exact_match (mkValidator idx matcher) scope term
            (context ≫= ctx_schema_name) (context ≫= ctx_table_name)
          = Some original) as ->.
  { unfold _check_exact_match. cbn [cache].
    destruct scope; simpl in Hexists, Ho; by rewrite Hexists. }
  simpl. by rewrite Htruthy.
Qed.

(** X26.  From the sheet to the answer: when [load_csv] returns a
    snapshot, every cell of a row it kept, given as it stands in the
    sheet, validates as [valid] without context on the index built
    from that snapshot, at the level of its column, and the match
    equals the stripped cell up to case. *)
Theorem ingested_names_validate WRatio matcher c0 fieldnames rows schema_col
    table_col column_col now data row_count row schema_cell table_cell
    column_cell scope :
  load_csv fieldnames rows schema_col table_col column_col now
  = inr (data, row_count) →
  row ∈ rows →
  row !! schema_col = Some schema_cell →
  row !! table_col = Some table_cell →
  row !! column_col = Some column_cell →
  strip schema_cell ≠ "" → strip table_cell ≠ "" → strip column_cell ≠ "" →
  let cell := match scope with
              | ScopeSchema => schema_cell
              | ScopeTable => table_cell
              | ScopeColumn => column_cell
              end in
  ∃ original,
    validate WRatio (mkValidator (_build_from_raw_data data c0) matcher)
      scope cell None
    = mkResponse VALID (Some original) None
    ∧ lower original = lower (strip cell).
Proof.
  intros Hload Hrow Hs Ht Hc Hsn Htn Hcn cell.
  assert (strip column_cell
            ∈ csv_columns (raw_schemas data) (strip schema_cell)
                (strip table_cell)) as Hin.
  { apply load_csv_inr in Hload.
    apply (load_csv_rows_columns _ _ _ _ _ _ _ _ _ Hload). right.
    exists row. unfold csv_cell. rewrite Hs, Ht, Hc.
    split_and!; try done. rewrite !andb_true_iff, !truthy_true. done. }
  apply csv_columns_names in Hin as (Hsin & Htin & Hcin).
  assert (strip cell ∈ names_at scope (raw_schemas data)) as Hname.
  { by destruct scope. }
  assert (strip cell ≠ "") as Hcell by by destruct scope.
  rewrite lower_strip.
  apply validate_found.
  - rewrite <-lower_strip, truthy_lower. by apply truthy_true.
  - apply exists_in_scope_named. exists (strip cell). split; [done|].
    by rewrite <-lower_strip, lower_idemp.
Qed.

Lemma ingested_names_validate_witness :
  ∃ original,
    validate plain_ratio
      (mkValidator
         (_build_from_raw_data
            (mkRaw [("public", [("Student", ["Id"])])] (Some "2024-01-01"))
            empty_cache)
         default_matcher)
      ScopeColumn " Id " None
    = mkResponse VALID (Some original) None
    ∧ lower original = lower (strip " Id ").
Proof.
  apply (ingested_names_validate plain_ratio default_matcher empty_cache
           ["schema"; "table"; "column"] sample_rows "schema" "table" "column"
           "2024-01-01"
           (mkRaw [("public", [("Student", ["Id"])])] (Some "2024-01-01")) 2
           {[ "schema" := "public"; "table" := "Student"; "column" := " Id " ]}
           "public" "Student" " Id " ScopeColumn).
  - vm_compute. reflexivity.
  - left.
  - vm_compute. reflexivity.
  - vm_compute. reflexivity.
  - vm_compute. reflexivity.
  - vm_compute. discriminate.
  - vm_compute. discriminate.
  - vm_compute. discriminate.
Defined.

(** ** The standalone library *)

Lemma omap_ext_Forall {A B} (f g : A → option B) l :
  Forall (λ x, f x = g x) l → omap f l = omap g l.
Proof. induction 1 as [|x l Hx _ IH]; csimpl; [done|]. by rewrite Hx, IH. Qed.

Lemma candidates_lowercase data c0 scope schema table x :
  x ∈ get_candidates_for_scope (_build_from_raw_data data c0) scope schema table →
  lower x = x.
Proof.
  intros Hx.
  destruct (candidates_original _ _ _ _ _ (consistent_build data c0) Hx)
    as [v Hv].
  apply (casing_for_scope (λ k v, lower v = k) _ _ _ _
           (casing_build_lower data c0)) in Hv.
  by rewrite <-Hv, lower_idemp.
Qed.

(** X27.  On an index built from a snapshot, the validator of the
    standalone library, given the service's matcher, answers as the
    service's validator does for the same scope, term, schema and
    table. *)
Theorem standalone_validate_agrees WRatio matcher data c0 scope search_term
    schema table :
  standalone_validate
    (λ query candidates, find_matches WRatio matcher query candidates None None)
    (_build_from_raw_data data c0) scope search_term schema table
  = validate WRatio (mkValidator (_build_from_raw_data data c0) matcher)
      scope search_term (Some (mkContext schema table)).
Proof.
  set (idx := _build_from_raw_data data c0).
  unfold standalone_validate, validate, validate_staged.
  cbn [mbind option_bind ctx_schema_name ctx_table_name].
  assert (standalone_check_exact_match idx scope (strip (lower search_term))
            schema table
          = _check_exact_match (mkValidator idx matcher) scope
              (strip (lower search_term)) schema table) as ->.
  { unfold standalone_check_exact_match, _check_exact_match,
      standalone_get_original_schema, standalone_get_original_table,
      standalone_get_original_column, get_original_schema, get_original_table,
      get_original_column. cbn [cache].
    by rewrite lower_normalized. }
  destruct (truthy_opt _); [done|]. cbn [snd].
  assert (_find_suggestions
            (λ query candidates,
               find_matches WRatio matcher query candidates None None)
            idx scope search_term schema table
          = _find_fuzzy_suggestions WRatio (mkValidator idx matcher) scope
              search_term schema table) as ->.
  { unfold _find_suggestions, _find_fuzzy_suggestions. cbn [cache fuzzy_matcher].
    assert (match scope with
            | ScopeSchema => get_schema_candidates idx
            | ScopeTable => get_table_candidates idx schema
            | ScopeColumn => get_column_candidates idx schema table
            end = get_candidates_for_scope idx scope schema table) as ->.
    { by destruct scope. }
    destruct (get_candidates_for_scope idx scope schema table)
      as [|cand cands] eqn:Hcands; [done|].
    rewrite <-Hcands.
    destruct (find_matches_facts WRatio matcher search_term
                (get_candidates_for_scope idx scope schema table) None None)
      as (_ & Hin & _).
    assert (omap (standalone_suggestion idx scope)
              (find_matches WRatio matcher search_term
                 (get_candidates_for_scope idx scope schema table) None None)
            = omap (to_suggestion (mkValidator idx matcher) scope)
                (find_matches WRatio matcher search_term
                   (get_candidates_for_scope idx scope schema table) None None))
      as Homap.
    { apply omap_ext_Forall. eapply Forall_impl; [exact Hin|]. intros m [_ Hm].
      apply candidates_lowercase in Hm.
      unfold standalone_suggestion, to_suggestion, get_original_for_scope,
        standalone_get_original_schema, standalone_get_original_table,
        standalone_get_original_column, get_original_schema,
        get_original_table, get_original_column. cbn [cache].
      rewrite Hm. by destruct scope. }
    destruct (find_matches WRatio matcher search_term
                (get_candidates_for_scope idx scope schema table) None None)
      as [|m ms]; [done|].
    rewrite Homap.
    by destruct (omap (to_suggestion (mkValidator idx matcher) scope) (m :: ms)). }
  by destruct (_find_fuzzy_suggestions _ _ _ _ _ _) as [[|? ?]|].
Qed.

(** X28.  The exit code of the command line tells the status of the
    library's answer apart, whatever the index and the matcher are:
    0 for [valid], 1 for [suggestions], 2 for [not_found]. *)
Theorem print_result_of_status find_matches_of c scope search_term schema
    table :
  print_result
    (standalone_validate find_matches_of c scope search_term schema table)
  = match status (standalone_validate find_matches_of c scope search_term
                    schema table) with
    | VALID => 0
    | SUGGESTIONS => 1
    | NOT_FOUND => 2
    end.
Proof.
  unfold standalone_validate.
  destruct (truthy_opt _); [done|].
  by destruct (_find_suggestions _ _ _ _ _ _) as [[|? ?]|].
Qed.
